(** * gts: a Go to Scar source translator

  A shallow embedding of [gts.go] (package [main], type [ScarConverter])
  and proofs about its translation rules.

  The converter walks a [go/ast] syntax tree and writes Scar text into a
  [strings.Builder], keeping a current indentation level.  The embedding
  keeps that shape: the syntax tree is an inductive type, the converter is
  a record, and every method that writes is a computation in a small
  state-and-error monad over that record.  The only way such a method can
  abort is the panic of [strings.Repeat] inside [indent], which is kept as
  the failure of the monad. *)

From Stdlib Require Import String Ascii ZArith List Bool Lia.
Import ListNotations.
Local Open Scope string_scope.
Local Open Scope Z_scope.
Set Warnings "-register-all".

(* ===================================================================== *)
(** * Go's [int] *)
(* ===================================================================== *)

Module GoInt.

(** [int] is 64 bits wide on the platforms the tool is built for. *)
Definition intSize : Z := 64.
Definition maxInt : Z := 2 ^ (intSize - 1) - 1.
Definition minInt : Z := - 2 ^ (intSize - 1).

Definition in_range (z : Z) : Prop := minInt <= z <= maxInt.

(** Two's complement wrap-around of an arithmetic result. *)
Definition wrap (z : Z) : Z :=
  (z + 2 ^ (intSize - 1)) mod 2 ^ intSize - 2 ^ (intSize - 1).

(** [x++] and [x--] on an [int]. *)
Definition incr (z : Z) : Z := wrap (z + 1).
Definition decr (z : Z) : Z := wrap (z - 1).

End GoInt.

(* ===================================================================== *)
(** * The part of package [strings] that the converter calls *)
(* ===================================================================== *)

Module strings.

Definition byte (n : nat) : ascii := ascii_of_nat n.

(** The line terminator ["\n"] and the double quote. *)
Definition nl : string := String (byte 10) EmptyString.
Definition dquote : ascii := byte 34.
Definition space : ascii := byte 32.

Definition len (s : string) : Z := Z.of_nat (String.length s).

Fixpoint replicate (s : string) (n : nat) : string :=
  match n with
  | O => EmptyString
  | S n' => s ++ replicate s n'
  end.

(** [strings.Repeat(s, count)]: panics when [count] is negative or when
    [len(s) * count] overflows; [None] is the panic. *)
Definition Repeat (s : string) (count : Z) : option string :=
  if count <? 0 then None
  else if GoInt.maxInt <? len s * count then None
  else Some (replicate s (Z.to_nat count)).

(** [strings.HasPrefix(s, prefix)]. *)
Definition HasPrefix (s prefix : string) : bool := String.prefix prefix s.

(** [strings.TrimPrefix(s, prefix)]. *)
Definition TrimPrefix (s prefix : string) : string :=
  if HasPrefix s prefix
  then String.substring (String.length prefix)
                        (String.length s - String.length prefix) s
  else s.

(** [strings.HasSuffix(s, suffix)]: [s] is long enough and its last
    [len(suffix)] bytes are [suffix]. *)
Definition HasSuffix (s suffix : string) : bool :=
  (String.length suffix <=? String.length s)%nat
  && (String.substring (String.length s - String.length suffix)
                       (String.length suffix) s =? suffix)%string.

(** [strings.TrimSuffix(s, suffix)]. *)
Definition TrimSuffix (s suffix : string) : string :=
  if HasSuffix s suffix
  then String.substring 0 (String.length s - String.length suffix) s
  else s.

(** [strings.Join(elems, sep)]. *)
Definition Join (elems : list string) (sep : string) : string :=
  String.concat sep elems.

(** [strings.Split(s, sep)] for a separator of one byte: the pieces
    between the occurrences of the separator, empty pieces included; a
    string with [n] separators gives [n + 1] pieces. *)
Fixpoint Split (s : string) (sep : ascii) : list string :=
  match s with
  | EmptyString => [EmptyString]
  | String a rest =>
      if Ascii.eqb a sep then EmptyString :: Split rest sep
      else match Split rest sep with
           | [] => [String a EmptyString]
           | piece :: pieces => String a piece :: pieces
           end
  end.

Fixpoint rev_acc (s acc : string) : string :=
  match s with
  | EmptyString => acc
  | String a rest => rev_acc rest (String a acc)
  end.
Definition rev (s : string) : string := rev_acc s EmptyString.

(** White space as [unicode.IsSpace] has it, through its UTF-8 encodings:
    the six ASCII characters, U+0085 and U+00A0 (two bytes), and U+1680,
    U+2000 to U+200A, U+2028, U+2029, U+202F, U+205F, U+3000 (three
    bytes).  A byte sequence that is not the shortest encoding of one of
    these decodes to another rune or to the error rune, which is no white
    space. *)
Definition isAsciiSpace (a : ascii) : bool :=
  let n := nat_of_ascii a in
  ((9 <=? n)%nat && (n <=? 13)%nat) || (n =? 32)%nat.

Definition isSpace2 (a b : ascii) : bool :=
  (nat_of_ascii a =? 194)%nat &&
  ((nat_of_ascii b =? 133)%nat || (nat_of_ascii b =? 160)%nat).

Definition isSpace3 (a b c : ascii) : bool :=
  let x := nat_of_ascii a in
  let y := nat_of_ascii b in
  let z := nat_of_ascii c in
  ((x =? 225) && (y =? 154) && (z =? 128))%nat
  || ((x =? 226) && (y =? 128) &&
      (((128 <=? z) && (z <=? 138)) || (z =? 168) || (z =? 169)
       || (z =? 175)))%nat
  || ((x =? 226) && (y =? 129) && (z =? 159))%nat
  || ((x =? 227) && (y =? 128) && (z =? 128))%nat.

(** [strings.TrimLeftFunc(s, unicode.IsSpace)]. *)
Fixpoint trimLeftSpace (s : string) : string :=
  match s with
  | EmptyString => EmptyString
  | String a r1 =>
      if isAsciiSpace a then trimLeftSpace r1
      else match r1 with
           | EmptyString => s
           | String b r2 =>
               if isSpace2 a b then trimLeftSpace r2
               else match r2 with
                    | EmptyString => s
                    | String c r3 =>
                        if isSpace3 a b c then trimLeftSpace r3 else s
                    end
           end
  end.

(** The same on the reversed string, where the bytes of a rune come last
    byte first: this is what decoding the last rune sees. *)
Fixpoint trimLeftSpaceRev (s : string) : string :=
  match s with
  | EmptyString => EmptyString
  | String a r1 =>
      if isAsciiSpace a then trimLeftSpaceRev r1
      else match r1 with
           | EmptyString => s
           | String b r2 =>
               if isSpace2 b a then trimLeftSpaceRev r2
               else match r2 with
                    | EmptyString => s
                    | String c r3 =>
                        if isSpace3 c b a then trimLeftSpaceRev r3 else s
                    end
           end
  end.

Definition trimRightSpace (s : string) : string :=
  rev (trimLeftSpaceRev (rev s)).

(** [strings.TrimSpace(s)]. *)
Definition TrimSpace (s : string) : string :=
  trimRightSpace (trimLeftSpace s).

(** [strings.Trim(s, cutset)] for a cutset of one ASCII byte. *)
Fixpoint trimLeftByte (s : string) (c : ascii) : string :=
  match s with
  | EmptyString => EmptyString
  | String a rest => if Ascii.eqb a c then trimLeftByte rest c else s
  end.

Definition trimRightByte (s : string) (c : ascii) : string :=
  rev (trimLeftByte (rev s) c).

Definition Trim (s : string) (cutset : ascii) : string :=
  trimLeftByte (trimRightByte s cutset) cutset.

End strings.

(* ===================================================================== *)
(** * Package [go/token]: the tokens the syntax tree carries *)
(* ===================================================================== *)

Module token.

Inductive Token : Set :=
| ILLEGAL | EOF | COMMENT
| IDENT | INT | FLOAT | IMAG | CHAR | STRING
| ADD | SUB | MUL | QUO | REM
| AND | OR | XOR | SHL | SHR | AND_NOT
| ADD_ASSIGN | SUB_ASSIGN | MUL_ASSIGN | QUO_ASSIGN | REM_ASSIGN
| AND_ASSIGN | OR_ASSIGN | XOR_ASSIGN | SHL_ASSIGN | SHR_ASSIGN
| AND_NOT_ASSIGN
| LAND | LOR | ARROW | INC | DEC
| EQL | LSS | GTR | ASSIGN | NOT
| NEQ | LEQ | GEQ | DEFINE | ELLIPSIS
| LPAREN | LBRACK | LBRACE | COMMA | PERIOD
| RPAREN | RBRACK | RBRACE | SEMICOLON | COLON
| BREAK | CASE | CHAN | CONST | CONTINUE
| DEFAULT | DEFER | ELSE | FALLTHROUGH | FOR
| FUNC | GO | GOTO | IF | IMPORT
| INTERFACE | MAP | PACKAGE | RANGE | RETURN
| SELECT | STRUCT | SWITCH | TYPE | VAR
| TILDE.

(** [Token.String]: the text of an operator or keyword, the constant's name
    for the other tokens. *)
Definition String (t : Token) : string :=
  match t with
  | ILLEGAL => "ILLEGAL" | EOF => "EOF" | COMMENT => "COMMENT"
  | IDENT => "IDENT" | INT => "INT" | FLOAT => "FLOAT" | IMAG => "IMAG"
  | CHAR => "CHAR" | STRING => "STRING"
  | ADD => "+" | SUB => "-" | MUL => "*" | QUO => "/" | REM => "%"
  | AND => "&" | OR => "|" | XOR => "^" | SHL => "<<" | SHR => ">>"
  | AND_NOT => "&^"
  | ADD_ASSIGN => "+=" | SUB_ASSIGN => "-=" | MUL_ASSIGN => "*="
  | QUO_ASSIGN => "/=" | REM_ASSIGN => "%="
  | AND_ASSIGN => "&=" | OR_ASSIGN => "|=" | XOR_ASSIGN => "^="
  | SHL_ASSIGN => "<<=" | SHR_ASSIGN => ">>=" | AND_NOT_ASSIGN => "&^="
  | LAND => "&&" | LOR => "||" | ARROW => "<-" | INC => "++" | DEC => "--"
  | EQL => "==" | LSS => "<" | GTR => ">" | ASSIGN => "=" | NOT => "!"
  | NEQ => "!=" | LEQ => "<=" | GEQ => ">=" | DEFINE => ":="
  | ELLIPSIS => "..."
  | LPAREN => "(" | LBRACK => "[" | LBRACE => "{" | COMMA => ","
  | PERIOD => "."
  | RPAREN => ")" | RBRACK => "]" | RBRACE => "}" | SEMICOLON => ";"
  | COLON => ":"
  | BREAK => "break" | CASE => "case" | CHAN => "chan" | CONST => "const"
  | CONTINUE => "continue"
  | DEFAULT => "default" | DEFER => "defer" | ELSE => "else"
  | FALLTHROUGH => "fallthrough" | FOR => "for"
  | FUNC => "func" | GO => "go" | GOTO => "goto" | IF => "if"
  | IMPORT => "import"
  | INTERFACE => "interface" | MAP => "map" | PACKAGE => "package"
  | RANGE => "range" | RETURN => "return"
  | SELECT => "select" | STRUCT => "struct" | SWITCH => "switch"
  | TYPE => "type" | VAR => "var"
  | TILDE => "~"
  end.

End token.

(* ===================================================================== *)
(** * Package [go/ast]: the syntax tree *)
(* ===================================================================== *)

Module ast.

(** Expression nodes the converter never looks into. *)
Inductive OtherExprKind : Set :=
| BadExpr | Ellipsis | FuncLit | ParenExpr | IndexListExpr | SliceExpr
| KeyValueExpr | ChanType.

(** [ast.Expr].  Go keeps types and expressions in one interface, and the
    converter passes the same nodes to [convertType] and to [convertExpr].
    A field that may be [nil] is an [option].  [Field] is an entry of a
    [FieldList]: parameters, results, struct fields, interface methods. *)
Inductive Expr : Type :=
| Ident (Name : string)
| BasicLit (Kind : token.Token) (Value : string)
| BinaryExpr (X : Expr) (Op : token.Token) (Y : Expr)
| UnaryExpr (Op : token.Token) (X : Expr)
| CallExpr (Fun : Expr) (Args : list Expr)
| SelectorExpr (X : Expr) (Sel : string)
| IndexExpr (X : Expr) (Index : Expr)
| CompositeLit (Type_ : option Expr) (Elts : list Expr)
| TypeAssertExpr (X : Expr) (Type_ : option Expr)
| StarExpr (X : Expr)
| ArrayType (Len : option Expr) (Elt : Expr)
| MapType (Key : Expr) (Value : Expr)
| StructType (Fields : option (list Field))
| InterfaceType (Methods : option (list Field))
| FuncType (Params : option (list Field)) (Results : option (list Field))
| OtherExpr (kind : OtherExprKind)
with Field : Type :=
| mkField (Names : list string) (Type_ : Expr).

Definition Field_Names (f : Field) : list string :=
  match f with mkField names _ => names end.
Definition Field_Type (f : Field) : Expr :=
  match f with mkField _ ty => ty end.

(** [ast.Spec]: the entries of a [GenDecl]. *)
Inductive Spec : Type :=
| ImportSpec (Path_Value : string)
| ValueSpec (Names : list string) (Type_ : option Expr)
            (Values : list Expr)
| TypeSpec (Name : string) (Type_ : Expr).

Record GenDecl : Type := mkGenDecl {
  GenDecl_Tok : token.Token;
  GenDecl_Specs : list Spec
}.

(** Statement nodes that [convertStmt] has no case for. *)
Inductive OtherStmtKind : Set :=
| BadStmt | EmptyStmt | LabeledStmt | SendStmt | GoStmt | DeferStmt
| SelectStmt | CommClause.

(** [ast.Stmt].  A body of type [*ast.BlockStmt] is given by its statement
    list.  [DeclStmt] carries the [GenDecl] its declaration is, or [None]
    when the declaration is of another type (a [BadDecl]).  The case list
    of a [CaseClause] is a slice compared with [nil]: [None] is the [nil]
    slice of a [default] clause. *)
Inductive Stmt : Type :=
| ExprStmt (X : Expr)
| AssignStmt (Lhs : list Expr) (Tok : token.Token) (Rhs : list Expr)
| DeclStmt (Decl : option GenDecl)
| IfStmt (s : IfNode)
| ForStmt (Init : option Stmt) (Cond : option Expr) (Post : option Stmt)
          (Body : list Stmt)
| RangeStmt (Key Value : option Expr) (X : Expr) (Body : list Stmt)
| ReturnStmt (Results : list Expr)
| BlockStmt (List_ : list Stmt)
| IncDecStmt (X : Expr) (Tok : token.Token)
| SwitchStmt (Init : option Stmt) (Tag : option Expr) (Body : list Stmt)
| TypeSwitchStmt (Init : option Stmt) (Assign : Stmt) (Body : list Stmt)
| CaseClause (List_ : option (list Expr)) (Body : list Stmt)
| BranchStmt (Tok : token.Token)
| OtherStmt (kind : OtherStmtKind)
with IfNode : Type :=
| mkIf (Init : option Stmt) (Cond : Expr) (Body : list Stmt)
       (Else : option Stmt).

(** [ast.FuncDecl]; [Type.Params] and [Type.Results] are kept as two
    fields. *)
Record FuncDecl : Type := mkFuncDecl {
  FuncDecl_Recv : option (list Field);
  FuncDecl_Name : string;
  FuncDecl_Params : option (list Field);
  FuncDecl_Results : option (list Field);
  FuncDecl_Body : option (list Stmt)
}.

(** [ast.Decl]. *)
Inductive Decl : Type :=
| DFunc (d : FuncDecl)
| DGen (d : GenDecl)
| BadDecl.

(** [ast.File], as far as [ConvertFile] reads it. *)
Record File : Type := mkFile {
  File_Decls : list Decl
}.

End ast.

Import ast.

(* ===================================================================== *)
(** * Types and expressions: [convertType], [convertExpr] *)
(* ===================================================================== *)

(** The guard that opens [convertType] and [convertExpr], returning the
    empty string for a [nil] expression; it matters for the fields that may
    be [nil]. *)
Definition orNil (convert : Expr -> string) (expr : option Expr) : string :=
  match expr with
  | None => EmptyString
  | Some e => convert e
  end.

Section CallRules.

(** [convertCallExpr] and [convertCompositeLit] call back into
    [convertType] and [convertExpr]; the two are tied below. *)
Variable convertType : Expr -> string.
Variable convertExpr : Expr -> string.

(** The tail of [convertCallExpr], reached by every path that has not
    returned: [funcName(arg1, arg2, ...)]. *)
Definition genericCall (funcName : string) (Args : list Expr) : string :=
  funcName ++ "(" ++ strings.Join (map convertExpr Args) ", " ++ ")".

(** The body shared by the two [Printf] cases. *)
Definition printfCall (funcName : string) (Args : list Expr) : string :=
  match Args with
  | arg0 :: rest =>
      let format := convertExpr arg0 in
      let args := map convertExpr rest in
      if (0 <? length args)%nat
      then "print " ++ format ++ " | " ++ strings.Join args ", "
      else "print " ++ format
  | [] => genericCall funcName Args
  end.

(** The body shared by the two [Println] cases. *)
Definition printlnCall (funcName : string) (Args : list Expr) : string :=
  match Args with
  | arg0 :: _ => "print " ++ convertExpr arg0
  | [] => genericCall funcName Args
  end.

Definition convertCallExpr (Fun : Expr) (Args : list Expr) : string :=
  match Fun with
  | Ident Name =>
      let funcName := Name in
      if (funcName =? "fmt.Printf")%string || (funcName =? "printf")%string
      then printfCall funcName Args
      else if (funcName =? "fmt.Println")%string
              || (funcName =? "println")%string
      then printlnCall funcName Args
      else if (funcName =? "make")%string then
        match Args with
        | arg0 :: rest =>
            let typ := convertType arg0 in
            if strings.HasPrefix typ "list[" then
              match rest with
              | arg1 :: _ => "new " ++ typ ++ "(" ++ convertExpr arg1 ++ ")"
              | [] => "new " ++ typ ++ "()"
              end
            else if strings.HasPrefix typ "map[" then "[]"
            else genericCall funcName Args
        | [] => genericCall funcName Args
        end
      else if (funcName =? "len")%string then
        match Args with
        | arg0 :: _ => "len(" ++ convertExpr arg0 ++ ")"
        | [] => genericCall funcName Args
        end
      else if (funcName =? "append")%string then
        match Args with
        | arg0 :: arg1 :: _ =>
            convertExpr arg0 ++ ".add(" ++ convertExpr arg1 ++ ")"
        | _ => genericCall funcName Args
        end
      else genericCall funcName Args
  | SelectorExpr X Sel =>
      let obj := convertExpr X in
      let method := Sel in
      let funcName := obj ++ "." ++ method in
      if (obj =? "fmt")%string then
        if (method =? "Printf")%string then printfCall funcName Args
        else if (method =? "Println")%string then printlnCall funcName Args
        else genericCall funcName Args
      else genericCall funcName Args
  | _ => genericCall EmptyString Args
  end.

Definition convertCompositeLit (Type_ : option Expr) (Elts : list Expr)
  : string :=
  match Type_ with
  | Some ty =>
      let typ := convertType ty in
      if strings.HasPrefix typ "list["
      then "[" ++ strings.Join (map convertExpr Elts) ", " ++ "]"
      else "# composite literal"
  | None => "# composite literal"
  end.

End CallRules.

(** Convert Go types to Scar types, and Go expressions to Scar expressions.
    In the source the [SelectorExpr] case of [convertType] returns
    [convertExpr(t)] on the same node; that call is written here as the
    [SelectorExpr] case of [convertExpr] itself, and
    [convertType_SelectorExpr] below states that the two agree. *)
Fixpoint convertType (expr : Expr) : string :=
  match expr with
  | Ident Name =>
      if (Name =? "int")%string || (Name =? "int32")%string then "int"
      else if (Name =? "int64")%string then "i64"
      else if (Name =? "string")%string then "string"
      else if (Name =? "bool")%string then "bool"
      else if (Name =? "byte")%string then "char"
      else if (Name =? "float32")%string || (Name =? "float64")%string
      then "float"
      else Name
  | ArrayType _ Elt =>
      let elemType := convertType Elt in
      "list[" ++ elemType ++ "]"
  | MapType Key Value =>
      let keyType := convertType Key in
      let valueType := convertType Value in
      "map[" ++ keyType ++ ": " ++ valueType ++ "]"
  | StarExpr X =>
      let baseType := convertType X in
      "ref " ++ baseType
  | SelectorExpr X Sel => convertExpr X ++ "." ++ Sel
  | _ => "unknown"
  end

with convertExpr (expr : Expr) : string :=
  match expr with
  | Ident Name => Name
  | BasicLit Kind Value => Value
  | BinaryExpr X Op Y =>
      let left := convertExpr X in
      let right := convertExpr Y in
      let op := token.String Op in
      left ++ " " ++ op ++ " " ++ right
  | UnaryExpr Op X =>
      let operand := convertExpr X in
      let op := token.String Op in
      op ++ operand
  | CallExpr Fun Args => convertCallExpr convertType convertExpr Fun Args
  | SelectorExpr X Sel =>
      let x := convertExpr X in
      x ++ "." ++ Sel
  | IndexExpr X Index =>
      let x := convertExpr X in
      let index := convertExpr Index in
      x ++ "[" ++ index ++ "]"
  | CompositeLit Type_ Elts =>
      convertCompositeLit convertType convertExpr Type_ Elts
  | TypeAssertExpr X Type_ =>
      let x := convertExpr X in
      let typ := orNil convertType Type_ in
      "(" ++ typ ++ ")" ++ x
  | _ => "# unknown expression"
  end.

(* ===================================================================== *)
(** * The converter and its writing primitives *)
(* ===================================================================== *)

(** [ScarConverter], without [fset], which only the parser uses.  The
    fields [inFunction], [inStruct] and [currentFunc] are declared in the
    source and never read or written. *)
Record ScarConverter : Type := mkScarConverter {
  indentLevel : Z;
  output : string;
  imports : list string;
  inFunction : bool;
  inStruct : bool;
  currentFunc : string
}.

Definition NewScarConverter : ScarConverter :=
  mkScarConverter 0 EmptyString [] false false EmptyString.

Definition set_indentLevel (n : Z) (c : ScarConverter) : ScarConverter :=
  mkScarConverter n (output c) (imports c)
                  (inFunction c) (inStruct c) (currentFunc c).

Definition set_output (s : string) (c : ScarConverter) : ScarConverter :=
  mkScarConverter (indentLevel c) s (imports c)
                  (inFunction c) (inStruct c) (currentFunc c).

Definition set_imports (l : list string) (c : ScarConverter)
  : ScarConverter :=
  mkScarConverter (indentLevel c) (output c) l
                  (inFunction c) (inStruct c) (currentFunc c).

(** A method of the converter: it reads and updates the converter, and
    either returns a value or panics ([None]). *)
Definition M (A : Type) : Type := ScarConverter -> option (A * ScarConverter).

Definition ret {A : Type} (a : A) : M A := fun c => Some (a, c).

Definition bind {A B : Type} (m : M A) (k : A -> M B) : M B :=
  fun c =>
    match m c with
    | Some (a, c') => k a c'
    | None => None
    end.

Declare Scope conv_scope.
Delimit Scope conv_scope with conv.
Bind Scope conv_scope with M.

Notation "x <- m ;; k" := (bind m (fun x => k))
  (at level 61, m at next level, right associativity) : conv_scope.
Notation "m ;; k" := (bind m (fun _ => k))
  (at level 61, right associativity) : conv_scope.

Local Open Scope conv_scope.

Definition skip : M unit := ret tt.

(** [c.indent()]. *)
Definition indent (c : ScarConverter) : option string :=
  strings.Repeat "    " (indentLevel c).

(** [c.write(s)] and [c.writeRaw(s)]. *)
Definition write (s : string) : M unit :=
  fun c => Some (tt, set_output (output c ++ s) c).

Definition writeRaw (s : string) : M unit :=
  fun c => Some (tt, set_output (output c ++ s) c).

(** [c.writeln(s)]. *)
Definition writeln (s : string) : M unit :=
  fun c =>
    match indent c with
    | Some ind => Some (tt, set_output (output c ++ (ind ++ s ++ strings.nl)) c)
    | None => None
    end.

(** [c.indentLevel++] and [c.indentLevel--]. *)
Definition indentLevel_incr : M unit :=
  fun c => Some (tt, set_indentLevel (GoInt.incr (indentLevel c)) c).

Definition indentLevel_decr : M unit :=
  fun c => Some (tt, set_indentLevel (GoInt.decr (indentLevel c)) c).

Section Loops.

Context {A : Type}.

(** [for i, x := range l { body(i, x) }], counting from [i]. *)
Definition forRangeFrom (body : nat -> A -> M unit)
  : nat -> list A -> M unit :=
  fix loop (i : nat) (l : list A) : M unit :=
    match l with
    | [] => skip
    | x :: rest => body i x ;; loop (S i) rest
    end.

Definition forRange (l : list A) (body : nat -> A -> M unit) : M unit :=
  forRangeFrom body 0%nat l.

(** [for _, x := range l { body(x) }]. *)
Definition forEach (l : list A) (body : A -> M unit) : M unit :=
  (fix loop (l : list A) : M unit :=
     match l with
     | [] => skip
     | x :: rest => body x ;; loop rest
     end) l.

End Loops.

(** [if x != nil { body(x) }]. *)
Definition ifNotNil {A : Type} (x : option A) (body : A -> M unit) : M unit :=
  match x with
  | Some a => body a
  | None => skip
  end.

(* ===================================================================== *)
(** * Statements *)
(* ===================================================================== *)

Definition convertAssignStmt (Lhs : list Expr) (Tok : token.Token)
           (Rhs : list Expr) : M unit :=
  match Lhs, Rhs with
  | [lhs0], [rhs0] =>
      let lhs := convertExpr lhs0 in
      let rhs := convertExpr rhs0 in
      match Tok with
      | token.ASSIGN => writeln (lhs ++ " = " ++ rhs)
      | token.DEFINE => writeln (lhs ++ " = " ++ rhs)
      | token.ADD_ASSIGN => writeln (lhs ++ " = " ++ lhs ++ " + " ++ rhs)
      | token.SUB_ASSIGN => writeln (lhs ++ " = " ++ lhs ++ " - " ++ rhs)
      | _ => writeln (lhs ++ " = " ++ rhs)
      end
  | _, _ => skip
  end.

(** The loop body over the names of a [ValueSpec]; the source has it twice,
    in [convertDeclStmt] and in the [VAR], [CONST] case of [ConvertFile]. *)
Definition valueSpecName (Type_ : option Expr) (Values : list Expr)
           (i : nat) (name : string) : M unit :=
  let typ := orNil convertType Type_ in
  match nth_error Values i with
  | Some value =>
      let val := convertExpr value in
      if negb (typ =? EmptyString)%string
      then writeln (typ ++ " " ++ name ++ " = " ++ val)
      else writeln (name ++ " = " ++ val)
  | None =>
      if negb (typ =? EmptyString)%string
      then writeln (typ ++ " " ++ name)
      else skip
  end.

Definition convertValueSpec (spec : Spec) : M unit :=
  match spec with
  | ValueSpec Names Type_ Values => forRange Names (valueSpecName Type_ Values)
  | _ => skip
  end.

Definition convertDeclStmt (Decl : option GenDecl) : M unit :=
  match Decl with
  | Some genDecl => forEach (GenDecl_Specs genDecl) convertValueSpec
  | None => skip
  end.

Definition convertReturnStmt (Results : list Expr) : M unit :=
  match Results with
  | [] => writeln "return"
  | [result0] => writeln ("return " ++ convertExpr result0)
  | _ => writeln ("return " ++ strings.Join (map convertExpr Results) ", ")
  end.

Definition convertIncDecStmt (X : Expr) (Tok : token.Token) : M unit :=
  let x := convertExpr X in
  match Tok with
  | token.INC => writeln (x ++ " = " ++ x ++ " + 1")
  | _ => writeln (x ++ " = " ++ x ++ " - 1")
  end.

Definition convertBranchStmt (Tok : token.Token) : M unit :=
  match Tok with
  | token.BREAK => writeln "break"
  | token.CONTINUE => writeln "continue"
  | _ => skip
  end.

Section StmtRules.

(** The methods below call [convertStmt] on parts of their statement;
    [convertStmt] is tied after them. *)
Variable convertStmt : Stmt -> M unit.

Definition convertBlockStmt (List_ : list Stmt) : M unit :=
  forEach List_ convertStmt.

(** The [else] block of [convertIfStmt] and [convertElseIfStmt]. *)
Definition elseBlock (List_ : list Stmt) : M unit :=
  writeln "else:" ;;
  indentLevel_incr ;;
  convertBlockStmt List_ ;;
  indentLevel_decr.

Fixpoint convertElseIfStmt (stmt : IfNode) : M unit :=
  match stmt with
  | mkIf Init Cond Body Else =>
      ifNotNil Init convertStmt ;;
      let cond := convertExpr Cond in
      writeln ("elif " ++ cond ++ ":") ;;
      indentLevel_incr ;;
      convertBlockStmt Body ;;
      indentLevel_decr ;;
      match Else with
      | Some (IfStmt elseIf) => convertElseIfStmt elseIf
      | Some (BlockStmt List_) => elseBlock List_
      | _ => skip
      end
  end.

Definition convertIfStmt (stmt : IfNode) : M unit :=
  match stmt with
  | mkIf Init Cond Body Else =>
      ifNotNil Init convertStmt ;;
      let cond := convertExpr Cond in
      writeln ("if " ++ cond ++ ":") ;;
      indentLevel_incr ;;
      convertBlockStmt Body ;;
      indentLevel_decr ;;
      match Else with
      | Some (IfStmt elseIf) => convertElseIfStmt elseIf
      | Some (BlockStmt List_) => elseBlock List_
      | _ => skip
      end
  end.

Definition convertStmtToString (stmt : Stmt) : M string :=
  fun c =>
    let oldOutput := output c in
    let oldIndent := indentLevel c in
    match convertStmt stmt (set_indentLevel 0 (set_output EmptyString c)) with
    | Some (_, c') =>
        let result := strings.TrimSpace (output c') in
        Some (result, set_indentLevel oldIndent (set_output oldOutput c'))
    | None => None
    end.

Definition convertForStmt (Init : option Stmt) (Cond : option Expr)
           (Post : option Stmt) (Body : list Stmt) : M unit :=
  match Init, Cond, Post with
  | Some initStmt, Some condExpr, Some postStmt =>
      initText <- convertStmtToString initStmt ;;
      let init := strings.TrimSpace initText in
      let cond := convertExpr condExpr in
      postText <- convertStmtToString postStmt ;;
      let post := strings.TrimSpace postText in
      let initParts := strings.Split init strings.space in
      if (3 <=? length initParts)%nat then
        let varName := nth (length initParts - 3) initParts EmptyString in
        writeln ("for " ++ varName ++ "; " ++ cond ++ "; " ++ post ++ ":")
      else
        writeln ("while " ++ cond ++ ":")
  | _, Some condExpr, _ =>
      let cond := convertExpr condExpr in
      writeln ("while " ++ cond ++ ":")
  | _, None, _ =>
      writeln "while true:"
  end ;;
  indentLevel_incr ;;
  convertBlockStmt Body ;;
  indentLevel_decr.

Definition convertRangeStmt (Key Value : option Expr) (X : Expr)
           (Body : list Stmt) : M unit :=
  let x := convertExpr X in
  match Key, Value with
  | Some keyExpr, Some valueExpr =>
      let key := convertExpr keyExpr in
      let value := convertExpr valueExpr in
      writeln ("for " ++ key ++ ", " ++ value ++ " in " ++ x ++ ":")
  | Some keyExpr, None =>
      let key := convertExpr keyExpr in
      writeln ("for " ++ key ++ " in " ++ x ++ ":")
  | None, _ => skip
  end ;;
  indentLevel_incr ;;
  convertBlockStmt Body ;;
  indentLevel_decr.

Definition convertSwitchStmt (Init : option Stmt) (Tag : option Expr)
           (Body : list Stmt) : M unit :=
  ifNotNil Init convertStmt ;;
  match Tag with
  | Some tagExpr =>
      let tag := convertExpr tagExpr in
      writeln ("switch " ++ tag ++ ":")
  | None => writeln "switch:"
  end ;;
  indentLevel_incr ;;
  convertBlockStmt Body ;;
  indentLevel_decr.

Definition convertCaseClause (List_ : option (list Expr)) (Body : list Stmt)
  : M unit :=
  match List_ with
  | None => writeln "default:"
  | Some exprs =>
      let cases := map convertExpr exprs in
      writeln ("case " ++ strings.Join cases ", " ++ ":")
  end ;;
  indentLevel_incr ;;
  forEach Body convertStmt ;;
  indentLevel_decr.

End StmtRules.

(** [convertStmt] receives the statements of parsed bodies, which are never
    [nil]; its [nil] guard has no case here. *)
Fixpoint convertStmt (stmt : Stmt) : M unit :=
  match stmt with
  | ExprStmt X => writeln (convertExpr X)
  | AssignStmt Lhs Tok Rhs => convertAssignStmt Lhs Tok Rhs
  | DeclStmt Decl => convertDeclStmt Decl
  | IfStmt s => convertIfStmt convertStmt s
  | ForStmt Init Cond Post Body =>
      convertForStmt convertStmt Init Cond Post Body
  | RangeStmt Key Value X Body => convertRangeStmt convertStmt Key Value X Body
  | ReturnStmt Results => convertReturnStmt Results
  | BlockStmt List_ => convertBlockStmt convertStmt List_
  | IncDecStmt X Tok => convertIncDecStmt X Tok
  | SwitchStmt Init Tag Body => convertSwitchStmt convertStmt Init Tag Body
  | TypeSwitchStmt _ _ _ => writeln "# type switch not supported */"
  | CaseClause List_ Body => convertCaseClause convertStmt List_ Body
  | BranchStmt Tok => convertBranchStmt Tok
  | OtherStmt _ => writeln "# unknown statement"
  end.

(* ===================================================================== *)
(** * Declarations *)
(* ===================================================================== *)

Definition convertBlock : list Stmt -> M unit := convertBlockStmt convertStmt.

(** The receiver text computed by [convertFuncDecl]: [EmptyString] for a
    function, and [this <Type>] for a method, with a leading [ref ] of the
    receiver's type removed.  The receiver's own name is assigned first and
    then overwritten. *)
Definition funcReceiver (Recv : option (list Field)) : string :=
  match Recv with
  | Some (field :: _) =>
      let recvType := convertType (Field_Type field) in
      let recvType :=
        if strings.HasPrefix recvType "ref "
        then strings.TrimPrefix recvType "ref "
        else recvType in
      "this " ++ recvType
  | _ => EmptyString
  end.

(** The parameter list: one [<type> <name>] per declared name. *)
Definition fieldParams (field : Field) : list string :=
  let paramType := convertType (Field_Type field) in
  map (fun name => paramType ++ " " ++ name) (Field_Names field).

Definition funcParams (Params : option (list Field)) : list string :=
  match Params with
  | Some fields => flat_map fieldParams fields
  | None => []
  end.

(** The return type suffix of a function header. *)
Definition funcReturnType (Results : option (list Field)) : string :=
  match Results with
  | Some [result0] =>
      if (length (Field_Names result0) <=? 1)%nat
      then " -> " ++ convertType (Field_Type result0)
      else EmptyString
  | _ => EmptyString
  end.

Definition isNil {A : Type} (x : option A) : bool :=
  match x with
  | None => true
  | Some _ => false
  end.

Definition convertFuncDecl (decl : FuncDecl) : M unit :=
  if (FuncDecl_Name decl =? "main")%string && isNil (FuncDecl_Recv decl)
  then
    (* main: the body becomes top-level statements *)
    ifNotNil (FuncDecl_Body decl) convertBlock
  else
    let receiver := funcReceiver (FuncDecl_Recv decl) in
    let funcName := FuncDecl_Name decl in
    let params := funcParams (FuncDecl_Params decl) in
    let returnType := funcReturnType (FuncDecl_Results decl) in
    (if negb (receiver =? EmptyString)%string
     then writeln ("fn " ++ funcName ++ "(" ++ strings.Join params ", "
                   ++ ")" ++ returnType ++ ":")
     else writeln ("fn " ++ funcName ++ "(" ++ strings.Join params ", "
                   ++ ")" ++ returnType ++ ":")) ;;
    ifNotNil (FuncDecl_Body decl)
      (fun body =>
         indentLevel_incr ;; convertBlock body ;; indentLevel_decr) ;;
    writeln EmptyString.

(** The return type suffix of an interface method: the first result,
    whatever the number of results. *)
Definition methodReturnType (Results : option (list Field)) : string :=
  match Results with
  | Some (result0 :: _) => " -> " ++ convertType (Field_Type result0)
  | _ => EmptyString
  end.

Definition convertStructField (field : Field) : M unit :=
  let fieldType := convertType (Field_Type field) in
  forEach (Field_Names field)
          (fun name => writeln (fieldType ++ " this." ++ name)).

Definition convertInterfaceMethod (method : Field) : M unit :=
  match Field_Names method with
  | methodName :: _ =>
      match Field_Type method with
      | FuncType Params Results =>
          let params := funcParams Params in
          let returnType := methodReturnType Results in
          writeln ("fn " ++ methodName ++ "(" ++ strings.Join params ", "
                   ++ ")" ++ returnType)
      | _ => skip
      end
  | [] => skip
  end.

Definition convertTypeSpec (Name : string) (Type_ : Expr) : M unit :=
  match Type_ with
  | StructType Fields =>
      writeln ("class " ++ Name ++ ":") ;;
      indentLevel_incr ;;
      match Fields with
      | Some (field0 :: fields) =>
          writeln "init:" ;;
          indentLevel_incr ;;
          forEach (field0 :: fields) convertStructField ;;
          indentLevel_decr
      | _ => writeln "init:"
      end ;;
      indentLevel_decr ;;
      writeln EmptyString
  | InterfaceType Methods =>
      writeln ("interface " ++ Name ++ ":") ;;
      indentLevel_incr ;;
      ifNotNil Methods (fun methods => forEach methods convertInterfaceMethod) ;;
      indentLevel_decr ;;
      writeln EmptyString
  | _ => skip
  end.

(* ===================================================================== *)
(** * Imports and the file *)
(* ===================================================================== *)

(** A [switch] case with an empty body ends the [switch]: the function then
    returns the empty string of its last line. *)
Definition convertImportPath (path : string) : string :=
  if (path =? "crypto/sha256")%string then EmptyString
  else if (path =? "crypto/sha512")%string then EmptyString
  else if (path =? "crypto/sha1")%string then EmptyString
  else if (path =? "crypto/md5")%string then "std/crypto"
  else if (path =? "io")%string then EmptyString
  else if (path =? "bufio")%string then "std/io"
  else if (path =? "json")%string then "std/json"
  else if (path =? "regexp")%string then "std/regex"
  else if (path =? "os")%string then "std/os"
  else if (path =? "strings")%string then "std/strings"
  else if (path =? "strconv")%string then "std/strings"
  else if (path =? "math")%string then "std/math"
  else if (path =? "time")%string then "std/time"
  else if (path =? "math/rand")%string then "std/random"
  else EmptyString.

Definition appendImport (scarImport : string) : M unit :=
  fun c => Some (tt, set_imports (imports c ++ [scarImport]) c).

Definition convertImportSpec (spec : Spec) : M unit :=
  match spec with
  | ImportSpec Path_Value =>
      let path := strings.Trim Path_Value strings.dquote in
      let scarImport := convertImportPath path in
      if negb (scarImport =? EmptyString)%string
      then appendImport scarImport
      else skip
  | _ => skip
  end.

Definition convertImports (decl : GenDecl) : M unit :=
  forEach (GenDecl_Specs decl) convertImportSpec.

Definition quoted (s : string) : string :=
  String strings.dquote (s ++ String strings.dquote EmptyString).

(** The three loops of [ConvertFile]. *)
Definition processImports (decl : Decl) : M unit :=
  match decl with
  | DGen genDecl =>
      match GenDecl_Tok genDecl with
      | token.IMPORT => convertImports genDecl
      | _ => skip
      end
  | _ => skip
  end.

Definition writeImports : M unit :=
  fun c =>
    (forEach (imports c) (fun imp => writeln ("import " ++ quoted imp)) ;;
     if (0 <? length (imports c))%nat then writeln EmptyString else skip) c.

Definition convertTypeSpecOf (spec : Spec) : M unit :=
  match spec with
  | TypeSpec Name Type_ => convertTypeSpec Name Type_
  | _ => skip
  end.

Definition processDecl (decl : Decl) : M unit :=
  match decl with
  | DFunc d => convertFuncDecl d
  | DGen d =>
      match GenDecl_Tok d with
      | token.TYPE => forEach (GenDecl_Specs d) convertTypeSpecOf
      | token.VAR | token.CONST =>
          forEach (GenDecl_Specs d) convertValueSpec ;;
          writeln EmptyString
      | _ => skip
      end
  | BadDecl => skip
  end.

(** [ConvertFile] from the parsed file on; reading and parsing the input
    are the callers' concern. *)
Definition ConvertFile (file : File) : M string :=
  forEach (File_Decls file) processImports ;;
  writeImports ;;
  forEach (File_Decls file) processDecl ;;
  fun c => Some (output c, c).

(** The text [ConvertFile] returns on a fresh converter. *)
Definition translate (file : File) : option string :=
  match ConvertFile file NewScarConverter with
  | Some (text, _) => Some text
  | None => None
  end.

(** ** The command line *)

(** The output path [main] derives from the input path. *)
Definition defaultOutputFile (inputFile : string) : string :=
  strings.TrimSuffix inputFile ".go" ++ ".scar".

(** What [main] reads off [os.Args] before it converts: the input and the
    output path, or [None] when it prints the usage line and exits with
    status 1.  Reading, converting and writing the files follow. *)
Definition mainPaths (Args : list string) : option (string * string) :=
  match Args with
  | _ :: inputFile :: rest =>
      let outputFile :=
        match rest with
        | outputArg :: _ => outputArg
        | [] => defaultOutputFile inputFile
        end in
      Some (inputFile, outputFile)
  | _ => None
  end.

(* ===================================================================== *)
(** * Notions the properties are stated with *)
(* ===================================================================== *)

(** The deepest indentation [indent] accepts: four bytes per level must fit
    an [int]. *)
Definition maxIndent : Z := GoInt.maxInt / 4.

(** The text [indent] returns at a level it accepts. *)
Definition indentText (level : Z) : string :=
  strings.replicate "    " (Z.to_nat level).

(** One written line at a given level. *)
Definition line (level : Z) (s : string) : string :=
  indentText level ++ s ++ strings.nl.

(** A text made of whole lines: empty, or ending with the line
    terminator. *)
Definition wholeLines (text : string) : Prop :=
  text = EmptyString \/ exists t, text = t ++ strings.nl.

(** [c'] is [c] after whole lines were appended to its output: nothing else
    differs, the indentation level included. *)
Definition appended (c c' : ScarConverter) : Prop :=
  exists text, wholeLines text /\ c' = set_output (output c ++ text) c.

(** A method is balanced when, started at any level an [int] can hold, it
    can only return a converter that differs from the one it was given by
    appended output. *)
Definition Balanced {A : Type} (m : M A) : Prop :=
  forall c a c',
    GoInt.in_range (indentLevel c) ->
    m c = Some (a, c') ->
    appended c c'.

(** A method is safe for [k] further levels when, started at a level
    [n >= 0] with [n + k <= maxIndent], it returns, and returns a converter
    that differs by appended output only. *)
Definition Safe {A : Type} (k : nat) (m : M A) : Prop :=
  forall c,
    0 <= indentLevel c ->
    indentLevel c + Z.of_nat k <= maxIndent ->
    exists a c', m c = Some (a, c') /\ appended c c'.

(** A method emits [text] at [level] when, on every converter at that
    level, it returns and has appended exactly [text]. *)
Definition Emits (m : M unit) (level : Z) (text : string) : Prop :=
  forall c,
    indentLevel c = level ->
    m c = Some (tt, set_output (output c ++ text) c).

(** How many levels deeper than its own a statement writes. *)
Definition maxOver (f : Stmt -> nat) : list Stmt -> nat :=
  fix loop (l : list Stmt) : nat :=
    match l with
    | [] => O
    | x :: rest => Nat.max (f x) (loop rest)
    end.

Fixpoint nesting (stmt : Stmt) : nat :=
  match stmt with
  | IfStmt s => nestingIf s
  | ForStmt Init Cond Post Body =>
      Nat.max
        match Init, Cond, Post with
        | Some initStmt, Some _, Some postStmt =>
            Nat.max (nesting initStmt) (nesting postStmt)
        | _, _, _ => O
        end
        (S (maxOver nesting Body))
  | RangeStmt _ _ _ Body => S (maxOver nesting Body)
  | BlockStmt List_ => maxOver nesting List_
  | SwitchStmt Init _ Body =>
      Nat.max
        match Init with Some initStmt => nesting initStmt | None => O end
        (S (maxOver nesting Body))
  | CaseClause _ Body => S (maxOver nesting Body)
  | _ => O
  end

with nestingIf (s : IfNode) : nat :=
  match s with
  | mkIf Init _ Body Else =>
      Nat.max
        match Init with Some initStmt => nesting initStmt | None => O end
        (Nat.max
           (S (maxOver nesting Body))
           match Else with
           | Some (IfStmt elseIf) => nestingIf elseIf
           | Some (BlockStmt List_) => S (maxOver nesting List_)
           | _ => O
           end)
  end.

Definition nestingFunc (decl : FuncDecl) : nat :=
  match FuncDecl_Body decl with
  | Some body => S (maxOver nesting body)
  | None => O
  end.

Definition nestingDecl (decl : Decl) : nat :=
  match decl with
  | DFunc d => nestingFunc d
  | DGen _ => 2
  | BadDecl => O
  end.

(** The statements [convertStmt] has no rule for, and the comment it
    writes for each. *)
Definition unsupported (stmt : Stmt) : option string :=
  match stmt with
  | TypeSwitchStmt _ _ _ => Some "# type switch not supported */"
  | OtherStmt _ => Some "# unknown statement"
  | _ => None
  end.

(** The header of a three-clause [for], in the words of the specification:
    split the rendered initializer on single spaces; with at least three
    pieces the loop variable is the piece three positions from the end,
    otherwise the loop degrades to a [while]. *)
Definition spec_forHeader (init cond post : string) : string :=
  let pieces := strings.Split init strings.space in
  match rev pieces with
  | _ :: _ :: var :: _ => "for " ++ var ++ "; " ++ cond ++ "; " ++ post ++ ":"
  | _ => "while " ++ cond ++ ":"
  end.

(** The line of a local declaration, in the words of the specification;
    [None] when nothing is written. *)
Definition spec_declLine (typ : option string) (name : string)
           (init : option string) : option string :=
  match typ, init with
  | Some t, Some v => Some (t ++ " " ++ name ++ " = " ++ v)
  | Some t, None => Some (t ++ " " ++ name)
  | None, Some v => Some (name ++ " = " ++ v)
  | None, None => None
  end.

(** The text a list of optional lines makes at a given level. *)
Fixpoint linesText (level : Z) (ls : list (option string)) : string :=
  match ls with
  | [] => EmptyString
  | Some l :: rest => line level l ++ linesText level rest
  | None :: rest => linesText level rest
  end.

(** The output ends with a blank line: a line that holds nothing but the
    indentation of the given level, after the end of another line or at the
    start of the output. *)
Definition endsWithBlankLine (level : Z) (out : string) : Prop :=
  out = line level EmptyString
  \/ exists before, out = before ++ strings.nl ++ line level EmptyString.

(** The lines of a [ValueSpec], one optional line per declared name: the
    name at position [i] has an initializer when [Values] has a position
    [i]. *)
Definition spec_valueSpecLines (Type_ : option Expr) (Values : list Expr)
  : nat -> list string -> list (option string) :=
  fix loop (i : nat) (names : list string) : list (option string) :=
    match names with
    | [] => []
    | name :: rest =>
        spec_declLine (option_map convertType Type_) name
                      (option_map convertExpr (nth_error Values i))
        :: loop (S i) rest
    end.

Definition spec_specLines (spec : Spec) : list (option string) :=
  match spec with
  | ValueSpec Names Type_ Values => spec_valueSpecLines Type_ Values O Names
  | _ => []
  end.

Definition spec_declStmtLines (genDecl : GenDecl) : list (option string) :=
  flat_map spec_specLines (GenDecl_Specs genDecl).

(** A type annotation as the parser gives it: an identifier has a name. *)
Definition namedType (ty : Expr) : Prop := ty <> Ident EmptyString.

Definition namedTypes (spec : Spec) : Prop :=
  match spec with
  | ValueSpec _ (Some ty) _ => namedType ty
  | _ => True
  end.

(** The text of a formatted print, in the words of the specification. *)
Definition spec_printf (format : string) (args : list string) : string :=
  match args with
  | [] => "print " ++ format
  | _ :: _ => "print " ++ format ++ " | " ++ strings.Join args ", "
  end.

(** The import paths whose [switch] case has an empty body. *)
Definition emptyCasePaths : list string :=
  ["crypto/sha256"; "crypto/sha512"; "crypto/sha1"; "io"].

(** A method that returns on every converter and changes nothing but the
    list of imports. *)
Definition ImportsOnly (m : M unit) : Prop :=
  forall c, exists l, m c = Some (tt, set_imports l c).

(** The deepest nesting among the declarations of a file. *)
Definition nestingFile (file : File) : nat :=
  fold_right (fun decl k => Nat.max (nestingDecl decl) k) O (File_Decls file).

(** ** Emission as a list of lines *)

(** A written line with its depth relative to the level emission started
    at. *)
Definition RelLine : Type := (nat * string)%type.

(** The text of a list of lines, started at [level]. *)
Fixpoint render (level : Z) (ls : list RelLine) : string :=
  match ls with
  | [] => EmptyString
  | (d, s) :: rest => line (level + Z.of_nat d) s ++ render level rest
  end.

(** The same lines, one level deeper. *)
Definition deeper (ls : list RelLine) : list RelLine :=
  map (fun l => (S (fst l), snd l)) ls.

(** No line is deeper than [k]. *)
Definition within (k : nat) (ls : list RelLine) : Prop :=
  Forall (fun l => (fst l <= k)%nat) ls.

(** A method emits the lines [ls], none deeper than [k]: started at any
    level [n >= 0] with [n + k <= maxIndent], on any converter, it returns
    and has appended exactly the text of [ls] at level [n]. *)
Definition EmitsLines (m : M unit) (k : nat) (ls : list RelLine) : Prop :=
  within k ls
  /\ forall c,
      0 <= indentLevel c ->
      indentLevel c + Z.of_nat k <= maxIndent ->
      m c = Some (tt, set_output (output c ++ render (indentLevel c) ls) c).

Definition HasLines (m : M unit) (k : nat) : Prop :=
  exists ls, EmitsLines m k ls.

(** A method that returns [a] and the converter it was given, at the same
    levels. *)
Definition Reads {A : Type} (m : M A) (k : nat) (a : A) : Prop :=
  forall c,
    0 <= indentLevel c ->
    indentLevel c + Z.of_nat k <= maxIndent ->
    m c = Some (a, c).

(** The import paths of a file in the order of their declarations, as the
    first loop of [ConvertFile] reads them: the path literals of the import
    specs of the [import] declarations, without their quotes. *)
Definition importPathsOf (spec : Spec) : list string :=
  match spec with
  | ImportSpec Path_Value => [strings.Trim Path_Value strings.dquote]
  | _ => []
  end.

Definition importPaths (decl : Decl) : list string :=
  match decl with
  | DGen genDecl =>
      match GenDecl_Tok genDecl with
      | token.IMPORT => flat_map importPathsOf (GenDecl_Specs genDecl)
      | _ => []
      end
  | _ => []
  end.

(** The Scar modules of a list of paths: each path through the table, the
    paths without an entry left out. *)
Definition scarModules (paths : list string) : list string :=
  filter (fun m => negb (m =? EmptyString)%string)
         (map convertImportPath paths).


(** The field lines of a struct: one per field name. *)
Definition structFieldLines (fields : list Field) : list RelLine :=
  flat_map (fun field =>
              map (fun name =>
                     (2%nat, convertType (Field_Type field) ++ " this." ++ name))
                  (Field_Names field))
           fields.

(** Whether [convertTypeSpec] has a case for the type of a type spec. *)
Definition isStructOrInterface (ty : Expr) : bool :=
  match ty with
  | StructType _ | InterfaceType _ => true
  | _ => false
  end.

(** The header lines of the methods of an interface: one for each entry
    that has a name and a function type. *)
Definition interfaceMethodLines (methods : list Field) : list RelLine :=
  flat_map (fun method =>
              match Field_Names method, Field_Type method with
              | methodName :: _, FuncType Params Results =>
                  [(1%nat, "fn " ++ methodName ++ "("
                           ++ strings.Join (funcParams Params) ", " ++ ")"
                           ++ methodReturnType Results)]
              | _, _ => []
              end)
           methods.

(** The fields of a field list that may be [nil]. *)
Definition fieldsOf (fields : option (list Field)) : list Field :=
  match fields with
  | Some l => l
  | None => []
  end.

(** A spec that is no [ValueSpec]: a type declaration or an import. *)
Definition notValueSpec (spec : Spec) : Prop :=
  match spec with
  | ValueSpec _ _ _ => False
  | _ => True
  end.

(** The names [convertCallExpr] treats as built-in functions when the
    callee is an identifier. *)
Definition builtinNames : list string :=
  ["fmt.Printf"; "printf"; "fmt.Println"; "println"; "make"; "len";
   "append"].

(** The import paths whose case in [convertImportPath] returns a module,
    and the modules the table can return. *)
Definition mappedPaths : list string :=
  ["crypto/md5"; "bufio"; "json"; "regexp"; "os"; "strings"; "strconv";
   "math"; "time"; "math/rand"].

Definition moduleNames : list string :=
  ["std/crypto"; "std/io"; "std/json"; "std/regex"; "std/os"; "std/strings";
   "std/math"; "std/time"; "std/random"].

(** A plain text: not empty, and made of printable ASCII bytes other than
    the space (bytes 33 to 127), as the names and numbers of a program
    are. *)
Definition plainByte (a : ascii) : bool :=
  let n := nat_of_ascii a in
  ((33 <=? n) && (n <? 128))%nat.

Fixpoint plainText (s : string) : bool :=
  match s with
  | EmptyString => true
  | String a rest => plainByte a && plainText rest
  end.

Definition plain (s : string) : Prop :=
  s <> EmptyString /\ plainText s = true.

(** ** The scenarios of the specification, as syntax trees *)

(** [for i := 0; i < 10; i++ { sum += i }] *)
Definition sumLoop : Stmt :=
  ForStmt (Some (AssignStmt [Ident "i"] token.DEFINE [BasicLit token.INT "0"]))
          (Some (BinaryExpr (Ident "i") token.LSS (BasicLit token.INT "10")))
          (Some (IncDecStmt (Ident "i") token.INC))
          [AssignStmt [Ident "sum"] token.ADD_ASSIGN [Ident "i"]].

(** [fmt.Printf("%d-%s", n, s)] *)
Definition printfCallExample : Expr :=
  CallExpr (SelectorExpr (Ident "fmt") "Printf")
           [BasicLit token.STRING (quoted "%d-%s"); Ident "n"; Ident "s"].

(** [func main() { fmt.Println("hi") }] *)
Definition mainHi : FuncDecl :=
  mkFuncDecl None "main" (Some []) None
    (Some [ExprStmt (CallExpr (SelectorExpr (Ident "fmt") "Println")
                              [BasicLit token.STRING (quoted "hi")])]).

(** [func (p *Point) Get() int { return p.x }] *)
Definition methodGet : FuncDecl :=
  mkFuncDecl (Some [mkField ["p"] (StarExpr (Ident "Point"))]) "Get"
    (Some []) (Some [mkField [] (Ident "int")])
    (Some [ReturnStmt [SelectorExpr (Ident "p") "x"]]).

(** [a, b = f()] *)
Definition multiAssign : Stmt :=
  AssignStmt [Ident "a"; Ident "b"] token.ASSIGN [CallExpr (Ident "f") []].

(** [var ( x int = 1; y string; z = 2; a, b = f() )]: the last name has
    neither a type nor an initializer of its own. *)
Definition varDecls : GenDecl :=
  mkGenDecl token.VAR
    [ValueSpec ["x"] (Some (Ident "int")) [BasicLit token.INT "1"];
     ValueSpec ["y"] (Some (Ident "string")) [];
     ValueSpec ["z"] None [BasicLit token.INT "2"];
     ValueSpec ["a"; "b"] None [CallExpr (Ident "f") []]].

(** [switch v := x.(type) { }] *)
Definition typeSwitchExample : Stmt :=
  TypeSwitchStmt None
    (AssignStmt [Ident "v"] token.DEFINE [TypeAssertExpr (Ident "x") None])
    [].

(** [if err != nil { return err } else { return nil }] *)
Definition ifElseExample : Stmt :=
  IfStmt (mkIf None (BinaryExpr (Ident "err") token.NEQ (Ident "nil"))
               [ReturnStmt [Ident "err"]]
               (Some (BlockStmt [ReturnStmt [Ident "nil"]]))).

(** [append(xs, 5)] *)
Definition appendExample : Expr :=
  CallExpr (Ident "append") [Ident "xs"; BasicLit token.INT "5"].

(** A file: two imports, a struct, a method and [main]. *)
Definition fileExample : File :=
  mkFile
    [DGen (mkGenDecl token.IMPORT
             [ImportSpec (quoted "fmt"); ImportSpec (quoted "os")]);
     DGen (mkGenDecl token.TYPE
             [TypeSpec "Point"
                       (StructType (Some [mkField ["x"; "y"] (Ident "int")]))]);
     DFunc methodGet;
     DFunc mainHi].

(** [if a { for { break } } else if b { return } else { x++ }] *)
Definition nestedExample : Stmt :=
  IfStmt (mkIf None (Ident "a")
            [ForStmt None None None [BranchStmt token.BREAK]]
            (Some (IfStmt (mkIf None (Ident "b") [ReturnStmt []]
                             (Some (BlockStmt
                                      [IncDecStmt (Ident "x") token.INC])))))).

(* ===================================================================== *)
(** * Induction over statements *)
(* ===================================================================== *)

Definition OptForall (P : Stmt -> Prop) (o : option Stmt) : Prop :=
  match o with
  | Some s => P s
  | None => True
  end.

Definition ElseIfHolds (Q : IfNode -> Prop) (o : option Stmt) : Prop :=
  match o with
  | Some (IfStmt s) => Q s
  | _ => True
  end.

Section StmtInduction.

Variable P : Stmt -> Prop.
Variable Q : IfNode -> Prop.

Hypothesis HExpr : forall X, P (ExprStmt X).
Hypothesis HAssign : forall Lhs Tok Rhs, P (AssignStmt Lhs Tok Rhs).
Hypothesis HDecl : forall Decl, P (DeclStmt Decl).
Hypothesis HIf : forall s, Q s -> P (IfStmt s).
Hypothesis HFor : forall Init Cond Post Body,
    OptForall P Init -> OptForall P Post -> Forall P Body ->
    P (ForStmt Init Cond Post Body).
Hypothesis HRange : forall Key Value X Body,
    Forall P Body -> P (RangeStmt Key Value X Body).
Hypothesis HReturn : forall Results, P (ReturnStmt Results).
Hypothesis HBlock : forall List_, Forall P List_ -> P (BlockStmt List_).
Hypothesis HIncDec : forall X Tok, P (IncDecStmt X Tok).
Hypothesis HSwitch : forall Init Tag Body,
    OptForall P Init -> Forall P Body -> P (SwitchStmt Init Tag Body).
Hypothesis HTypeSwitch : forall Init Assign Body,
    P (TypeSwitchStmt Init Assign Body).
Hypothesis HCase : forall List_ Body,
    Forall P Body -> P (CaseClause List_ Body).
Hypothesis HBranch : forall Tok, P (BranchStmt Tok).
Hypothesis HOther : forall kind, P (OtherStmt kind).
Hypothesis HmkIf : forall Init Cond Body Else,
    OptForall P Init -> Forall P Body -> OptForall P Else ->
    ElseIfHolds Q Else ->
    Q (mkIf Init Cond Body Else).

Fixpoint Stmt_nested_ind (stmt : Stmt) : P stmt :=
  let all :=
    fix all (l : list Stmt) : Forall P l :=
      match l with
      | [] => Forall_nil P
      | x :: rest => Forall_cons x (Stmt_nested_ind x) (all rest)
      end in
  let opt := fun o : option Stmt =>
    match o return OptForall P o with
    | Some s => Stmt_nested_ind s
    | None => I
    end in
  match stmt with
  | ExprStmt X => HExpr X
  | AssignStmt Lhs Tok Rhs => HAssign Lhs Tok Rhs
  | DeclStmt Decl => HDecl Decl
  | IfStmt s => HIf s (IfNode_nested_ind s)
  | ForStmt Init Cond Post Body =>
      HFor Init Cond Post Body (opt Init) (opt Post) (all Body)
  | RangeStmt Key Value X Body => HRange Key Value X Body (all Body)
  | ReturnStmt Results => HReturn Results
  | BlockStmt List_ => HBlock List_ (all List_)
  | IncDecStmt X Tok => HIncDec X Tok
  | SwitchStmt Init Tag Body => HSwitch Init Tag Body (opt Init) (all Body)
  | TypeSwitchStmt Init Assign Body => HTypeSwitch Init Assign Body
  | CaseClause List_ Body => HCase List_ Body (all Body)
  | BranchStmt Tok => HBranch Tok
  | OtherStmt kind => HOther kind
  end

with IfNode_nested_ind (s : IfNode) : Q s :=
  let all :=
    fix all (l : list Stmt) : Forall P l :=
      match l with
      | [] => Forall_nil P
      | x :: rest => Forall_cons x (Stmt_nested_ind x) (all rest)
      end in
  let opt := fun o : option Stmt =>
    match o return OptForall P o with
    | Some s => Stmt_nested_ind s
    | None => I
    end in
  match s with
  | mkIf Init Cond Body Else =>
      HmkIf Init Cond Body Else (opt Init) (all Body) (opt Else)
        match Else return ElseIfHolds Q Else with
        | Some (IfStmt elseIf) => IfNode_nested_ind elseIf
        | Some _ => I
        | None => I
        end
  end.

End StmtInduction.

(* ===================================================================== *)
(** * Facts about [int], strings and the writing primitives *)
(* ===================================================================== *)

Lemma maxInt_value : GoInt.maxInt = 9223372036854775807.
Proof. reflexivity. Qed.

Lemma minInt_value : GoInt.minInt = -9223372036854775808.
Proof. reflexivity. Qed.

Lemma maxIndent_value : maxIndent = 2305843009213693951.
Proof. reflexivity. Qed.

Lemma wrap_in_range (z : Z) : GoInt.in_range (GoInt.wrap z).
Proof.
  unfold GoInt.in_range, GoInt.wrap.
  rewrite maxInt_value, minInt_value.
  change (2 ^ (GoInt.intSize - 1)) with 9223372036854775808.
  change (2 ^ GoInt.intSize) with 18446744073709551616.
  pose proof (Z.mod_pos_bound (z + 9223372036854775808) 18446744073709551616).
  lia.
Qed.

Lemma wrap_small (z : Z) : GoInt.in_range z -> GoInt.wrap z = z.
Proof.
  unfold GoInt.in_range, GoInt.wrap.
  rewrite maxInt_value, minInt_value.
  change (2 ^ (GoInt.intSize - 1)) with 9223372036854775808.
  change (2 ^ GoInt.intSize) with 18446744073709551616.
  intros H. rewrite Z.mod_small; lia.
Qed.

(** [x++] followed by [x--] gives [x] back, also across the wrap-around. *)
Lemma decr_incr (z : Z) : GoInt.in_range z -> GoInt.decr (GoInt.incr z) = z.
Proof.
  intros H. unfold GoInt.decr, GoInt.incr.
  rewrite <- (wrap_small z H) at 2.
  unfold GoInt.wrap.
  change (2 ^ (GoInt.intSize - 1)) with 9223372036854775808.
  change (2 ^ GoInt.intSize) with 18446744073709551616.
  f_equal.
  replace ((z + 1 + 9223372036854775808) mod 18446744073709551616
           - 9223372036854775808 - 1 + 9223372036854775808)
    with ((z + 1 + 9223372036854775808) mod 18446744073709551616 - 1) by lia.
  rewrite Zminus_mod_idemp_l. f_equal. lia.
Qed.

Lemma incr_in_range (z : Z) : GoInt.in_range (GoInt.incr z).
Proof. apply wrap_in_range. Qed.

Lemma incr_small (z : Z) : 0 <= z < maxIndent -> GoInt.incr z = z + 1.
Proof.
  intros H. unfold GoInt.incr. apply wrap_small.
  unfold GoInt.in_range. rewrite maxInt_value, minInt_value.
  rewrite maxIndent_value in H. lia.
Qed.

Lemma in_range_of_indent (z : Z) :
  0 <= z -> z <= maxIndent -> GoInt.in_range z.
Proof.
  unfold GoInt.in_range. rewrite maxInt_value, minInt_value, maxIndent_value.
  lia.
Qed.

Lemma append_nil_r (s : string) : s ++ EmptyString = s.
Proof. induction s as [|a s IH]; simpl; [reflexivity | now rewrite IH]. Qed.

Lemma append_assoc (s t u : string) : (s ++ t) ++ u = s ++ (t ++ u).
Proof. induction s as [|a s IH]; simpl; [reflexivity | now rewrite IH]. Qed.

Lemma append_nonempty_r (s t : string) : t <> EmptyString -> s ++ t <> EmptyString.
Proof.
  intros Ht. destruct s; simpl; [exact Ht | discriminate].
Qed.

Lemma eqb_empty_false (s : string) :
  s <> EmptyString -> (s =? EmptyString)%string = false.
Proof. intros H. now apply String.eqb_neq. Qed.

(** [indent] returns exactly at the levels from [0] to [maxIndent]. *)
Lemma Repeat_indent (level : Z) :
  0 <= level <= maxIndent ->
  strings.Repeat "    " level = Some (indentText level).
Proof.
  intros [H0 H1]. unfold strings.Repeat.
  destruct (Z.ltb_spec level 0) as [Hn|_]; [lia|].
  change (strings.len "    ") with 4.
  rewrite maxInt_value. rewrite maxIndent_value in H1.
  destruct (Z.ltb_spec 9223372036854775807 (4 * level)) as [Hn|_]; [lia|].
  reflexivity.
Qed.

Lemma Repeat_negative (level : Z) :
  level < 0 -> strings.Repeat "    " level = None.
Proof.
  intros H. unfold strings.Repeat.
  destruct (Z.ltb_spec level 0); [reflexivity | lia].
Qed.

Lemma set_output_same (c : ScarConverter) : set_output (output c) c = c.
Proof. now destruct c. Qed.

Lemma wholeLines_empty : wholeLines EmptyString.
Proof. now left. Qed.

Lemma wholeLines_line (level : Z) (s : string) : wholeLines (line level s).
Proof.
  right. exists (indentText level ++ s). unfold line.
  now rewrite append_assoc.
Qed.

Lemma wholeLines_app (t1 t2 : string) :
  wholeLines t1 -> wholeLines t2 -> wholeLines (t1 ++ t2).
Proof.
  intros H1 [-> | [t ->]].
  - now rewrite append_nil_r.
  - right. exists (t1 ++ t). now rewrite append_assoc.
Qed.

Lemma appended_refl (c : ScarConverter) : appended c c.
Proof.
  exists EmptyString. split; [apply wholeLines_empty|].
  rewrite append_nil_r. symmetry. apply set_output_same.
Qed.

Lemma appended_trans (c1 c2 c3 : ScarConverter) :
  appended c1 c2 -> appended c2 c3 -> appended c1 c3.
Proof.
  intros (t1 & W1 & ->) (t2 & W2 & ->). exists (t1 ++ t2).
  split; [now apply wholeLines_app|].
  destruct c1; unfold set_output; simpl. now rewrite append_assoc.
Qed.

Lemma appended_indentLevel (c c' : ScarConverter) :
  appended c c' -> indentLevel c' = indentLevel c.
Proof. now intros (t & _ & ->). Qed.

Lemma appended_imports (c c' : ScarConverter) :
  appended c c' -> imports c' = imports c.
Proof. now intros (t & _ & ->). Qed.

Lemma appended_set_output (c : ScarConverter) (text : string) :
  wholeLines text -> appended c (set_output (output c ++ text) c).
Proof. intros W. now exists text. Qed.

(** Leaving a level that was entered: what a body appended at the deeper
    level is appended to the converter at the outer level. *)
Lemma appended_bracket (c c2 : ScarConverter) :
  GoInt.in_range (indentLevel c) ->
  appended (set_indentLevel (GoInt.incr (indentLevel c)) c) c2 ->
  appended c (set_indentLevel (GoInt.decr (indentLevel c2)) c2).
Proof.
  intros Hr (t & W & ->). exists t. split; [exact W|].
  destruct c; unfold set_indentLevel, set_output; simpl in *.
  now rewrite decr_incr.
Qed.

Lemma writeln_Some (s : string) (c : ScarConverter) :
  0 <= indentLevel c <= maxIndent ->
  writeln s c
  = Some (tt, set_output (output c ++ line (indentLevel c) s) c).
Proof.
  intros H. unfold writeln, indent. now rewrite Repeat_indent.
Qed.

Lemma writeln_appended (s : string) (c : ScarConverter) (u : unit)
      (c' : ScarConverter) :
  writeln s c = Some (u, c') -> appended c c'.
Proof.
  unfold writeln. destruct (indent c) as [ind|]; [|discriminate].
  intros H. injection H as _ <-. apply appended_set_output.
  right. exists (ind ++ s). now rewrite append_assoc.
Qed.

(* ===================================================================== *)
(** * Balanced methods *)
(* ===================================================================== *)

Create HintDb balanced.
Create HintDb safe.

(** Splits a successful [bind] into its two steps. *)
Lemma bind_Some {A B : Type} (m : M A) (k : A -> M B) (c : ScarConverter)
      (b : B) (c' : ScarConverter) :
  bind m k c = Some (b, c') ->
  exists a c1, m c = Some (a, c1) /\ k a c1 = Some (b, c').
Proof.
  unfold bind. destruct (m c) as [[a c1]|]; [|discriminate].
  intros H. now exists a, c1.
Qed.

Lemma bind_run {A B : Type} (m : M A) (k : A -> M B) (c : ScarConverter)
      (a : A) (c1 : ScarConverter) :
  m c = Some (a, c1) -> bind m k c = k a c1.
Proof. intros H. unfold bind. now rewrite H. Qed.

Lemma Balanced_ret {A : Type} (a : A) : Balanced (ret a).
Proof.
  intros c a' c' _ H. injection H as _ <-. apply appended_refl.
Qed.

Lemma Balanced_skip : Balanced skip.
Proof. apply Balanced_ret. Qed.

Lemma Balanced_bind {A B : Type} (m : M A) (k : A -> M B) :
  Balanced m -> (forall a, Balanced (k a)) -> Balanced (bind m k).
Proof.
  intros Hm Hk c b c' Hr H.
  apply bind_Some in H as (a & c1 & H1 & H2).
  pose proof (Hm _ _ _ Hr H1) as A1.
  apply appended_trans with c1; [exact A1|].
  apply (Hk a c1 b c'); [|exact H2].
  now rewrite (appended_indentLevel _ _ A1).
Qed.

Lemma Balanced_writeln (s : string) : Balanced (writeln s).
Proof. intros c [] c' _ H. now apply writeln_appended in H. Qed.

(** The pattern [c.indentLevel++; body; c.indentLevel--]. *)
Lemma Balanced_bracket (m : M unit) :
  Balanced m ->
  Balanced (indentLevel_incr ;; m ;; indentLevel_decr).
Proof.
  intros Hm c [] c' Hr H.
  apply bind_Some in H as ([] & c1 & H1 & H).
  apply bind_Some in H as ([] & c2 & H2 & H3).
  unfold indentLevel_incr in H1. injection H1 as <-.
  unfold indentLevel_decr in H3. injection H3 as <-.
  apply appended_bracket; [exact Hr|].
  apply (Hm _ tt c2); [apply incr_in_range | exact H2].
Qed.

Lemma Balanced_forEach {A : Type} (l : list A) (body : A -> M unit) :
  Forall (fun x => Balanced (body x)) l -> Balanced (forEach l body).
Proof.
  induction 1 as [|x rest Hx _ IH]; simpl.
  - apply Balanced_skip.
  - apply Balanced_bind; [exact Hx | intros _; exact IH].
Qed.

Lemma Balanced_forEach_all {A : Type} (l : list A) (body : A -> M unit) :
  (forall x, Balanced (body x)) -> Balanced (forEach l body).
Proof.
  intros H. apply Balanced_forEach. apply Forall_forall. intros x _. apply H.
Qed.

Lemma Balanced_forRangeFrom {A : Type} (body : nat -> A -> M unit)
      (l : list A) :
  (forall i x, Balanced (body i x)) ->
  forall i, Balanced (forRangeFrom body i l).
Proof.
  intros H. induction l as [|x rest IH]; intros i; simpl.
  - apply Balanced_skip.
  - apply Balanced_bind; [apply H | intros _; apply IH].
Qed.

Lemma Balanced_forRange {A : Type} (l : list A) (body : nat -> A -> M unit) :
  (forall i x, Balanced (body i x)) -> Balanced (forRange l body).
Proof. intros H. now apply Balanced_forRangeFrom. Qed.

Lemma Balanced_ifNotNil {A : Type} (x : option A) (body : A -> M unit) :
  (forall a, x = Some a -> Balanced (body a)) -> Balanced (ifNotNil x body).
Proof.
  intros H. destruct x as [a|]; simpl; [now apply H | apply Balanced_skip].
Qed.

Lemma Balanced_ifNotNil_opt (o : option Stmt) (body : Stmt -> M unit) :
  OptForall (fun s => Balanced (body s)) o -> Balanced (ifNotNil o body).
Proof.
  intros H. apply Balanced_ifNotNil. intros a ->. exact H.
Qed.

#[export] Hint Resolve Balanced_ret Balanced_skip Balanced_writeln
  Balanced_bracket Balanced_forEach Balanced_forEach_all Balanced_forRange
  Balanced_ifNotNil_opt : balanced.
#[export] Hint Extern 2 (Balanced (bind _ _)) =>
  apply Balanced_bind; [|intros ?] : balanced.
#[export] Hint Extern 3 (Balanced (match ?x with _ => _ end)) =>
  destruct x : balanced.
#[export] Hint Extern 3 (Balanced (if ?x then _ else _)) =>
  destruct x : balanced.

(** The statements without a nested body. *)
Lemma Balanced_convertAssignStmt Lhs Tok Rhs :
  Balanced (convertAssignStmt Lhs Tok Rhs).
Proof. unfold convertAssignStmt. auto 8 with balanced. Qed.

Lemma Balanced_valueSpecName Type_ Values i name :
  Balanced (valueSpecName Type_ Values i name).
Proof. unfold valueSpecName. auto with balanced. Qed.

Lemma Balanced_convertValueSpec spec : Balanced (convertValueSpec spec).
Proof.
  destruct spec; simpl; auto with balanced.
  apply Balanced_forRange. intros. apply Balanced_valueSpecName.
Qed.

Lemma Balanced_convertDeclStmt Decl : Balanced (convertDeclStmt Decl).
Proof.
  destruct Decl as [g|]; simpl; auto with balanced.
  apply Balanced_forEach_all. apply Balanced_convertValueSpec.
Qed.

Lemma Balanced_convertReturnStmt Results :
  Balanced (convertReturnStmt Results).
Proof. unfold convertReturnStmt. auto with balanced. Qed.

Lemma Balanced_convertIncDecStmt X Tok : Balanced (convertIncDecStmt X Tok).
Proof. unfold convertIncDecStmt. auto with balanced. Qed.

Lemma Balanced_convertBranchStmt Tok : Balanced (convertBranchStmt Tok).
Proof. unfold convertBranchStmt. auto with balanced. Qed.

#[export] Hint Resolve Balanced_convertAssignStmt Balanced_convertDeclStmt
  Balanced_convertReturnStmt Balanced_convertIncDecStmt
  Balanced_convertBranchStmt Balanced_convertValueSpec : balanced.

Lemma Balanced_bracket_then (m rest : M unit) :
  Balanced m -> Balanced rest ->
  Balanced (indentLevel_incr ;; m ;; indentLevel_decr ;; rest).
Proof.
  intros Hm Hrest c [] c' Hr H.
  apply bind_Some in H as ([] & c1 & H1 & H).
  apply bind_Some in H as ([] & c2 & H2 & H).
  apply bind_Some in H as ([] & c3 & H3 & H4).
  unfold indentLevel_incr in H1. injection H1 as <-.
  unfold indentLevel_decr in H3. injection H3 as <-.
  assert (A3 : appended c (set_indentLevel (GoInt.decr (indentLevel c2)) c2)).
  { apply appended_bracket; [exact Hr|].
    apply (Hm _ tt c2); [apply incr_in_range | exact H2]. }
  apply appended_trans with (1 := A3).
  apply (Hrest _ tt c'); [|exact H4].
  now rewrite (appended_indentLevel _ _ A3).
Qed.

Section BalancedRules.

Variable convertStmt : Stmt -> M unit.

Lemma Balanced_convertBlockStmt (l : list Stmt) :
  Forall (fun s => Balanced (convertStmt s)) l ->
  Balanced (convertBlockStmt convertStmt l).
Proof. apply Balanced_forEach. Qed.

Lemma Balanced_elseBlock (l : list Stmt) :
  Balanced (convertBlockStmt convertStmt l) ->
  Balanced (elseBlock convertStmt l).
Proof.
  intros H. unfold elseBlock.
  apply Balanced_bind; [apply Balanced_writeln | intros _].
  now apply Balanced_bracket.
Qed.

(** [convertStmtToString] hands back the converter it was given: the saved
    output and level are restored, and a balanced [convertStmt] has changed
    nothing else. *)
Lemma convertStmtToString_restores (stmt : Stmt) :
  Balanced (convertStmt stmt) ->
  forall c text c',
    convertStmtToString convertStmt stmt c = Some (text, c') -> c' = c.
Proof.
  intros Hb c text c'. unfold convertStmtToString.
  destruct (convertStmt stmt _) as [[[] c1]|] eqn:E; [|discriminate].
  intros H. injection H as _ <-.
  apply Hb in E.
  - destruct E as (t & _ & ->). now destruct c.
  - simpl. apply wrap_in_range with (z := 0).
Qed.

Lemma Balanced_convertStmtToString (stmt : Stmt) :
  Balanced (convertStmt stmt) ->
  Balanced (convertStmtToString convertStmt stmt).
Proof.
  intros Hb c text c' _ H.
  apply convertStmtToString_restores in H; [|exact Hb].
  subst c'. apply appended_refl.
Qed.

Lemma Balanced_convertForStmt Init Cond Post Body :
  OptForall (fun s => Balanced (convertStmt s)) Init ->
  OptForall (fun s => Balanced (convertStmt s)) Post ->
  Forall (fun s => Balanced (convertStmt s)) Body ->
  Balanced (convertForStmt convertStmt Init Cond Post Body).
Proof.
  intros Hi Hp Hb. unfold convertForStmt.
  apply Balanced_bind.
  - destruct Init as [i|], Cond as [e|], Post as [q|];
      simpl in *; auto with balanced.
    apply Balanced_bind; [now apply Balanced_convertStmtToString | intros t1].
    apply Balanced_bind; [now apply Balanced_convertStmtToString | intros t2].
    auto with balanced.
  - intros _. apply Balanced_bracket. now apply Balanced_convertBlockStmt.
Qed.

Lemma Balanced_convertRangeStmt Key Value X Body :
  Forall (fun s => Balanced (convertStmt s)) Body ->
  Balanced (convertRangeStmt convertStmt Key Value X Body).
Proof.
  intros Hb. unfold convertRangeStmt.
  apply Balanced_bind.
  - destruct Key, Value; auto with balanced.
  - intros _. apply Balanced_bracket. now apply Balanced_convertBlockStmt.
Qed.

Lemma Balanced_convertSwitchStmt Init Tag Body :
  OptForall (fun s => Balanced (convertStmt s)) Init ->
  Forall (fun s => Balanced (convertStmt s)) Body ->
  Balanced (convertSwitchStmt convertStmt Init Tag Body).
Proof.
  intros Hi Hb. unfold convertSwitchStmt.
  apply Balanced_bind; [now apply Balanced_ifNotNil_opt | intros _].
  apply Balanced_bind; [destruct Tag; auto with balanced | intros _].
  apply Balanced_bracket. now apply Balanced_convertBlockStmt.
Qed.

Lemma Balanced_convertCaseClause List_ Body :
  Forall (fun s => Balanced (convertStmt s)) Body ->
  Balanced (convertCaseClause convertStmt List_ Body).
Proof.
  intros Hb. unfold convertCaseClause.
  apply Balanced_bind; [destruct List_; auto with balanced | intros _].
  apply Balanced_bracket. now apply Balanced_forEach.
Qed.

(** Both [if] methods, given that the parts of the statement are balanced
    and that an [else if] is. *)
Lemma Balanced_if_rules Init Cond Body Else :
  OptForall (fun s => Balanced (convertStmt s)) Init ->
  Forall (fun s => Balanced (convertStmt s)) Body ->
  ElseIfHolds (fun s => Balanced (convertElseIfStmt convertStmt s)) Else ->
  (forall l, Else = Some (BlockStmt l) ->
             Balanced (convertBlockStmt convertStmt l)) ->
  Balanced (convertIfStmt convertStmt (mkIf Init Cond Body Else))
  /\ Balanced (convertElseIfStmt convertStmt (mkIf Init Cond Body Else)).
Proof.
  intros Hi Hb Hq Hl.
  assert (Htail : Balanced
            match Else with
            | Some (IfStmt elseIf) => convertElseIfStmt convertStmt elseIf
            | Some (BlockStmt List_) => elseBlock convertStmt List_
            | _ => skip
            end).
  { destruct Else as [[]|]; simpl in *; auto with balanced.
    apply Balanced_elseBlock. now apply Hl. }
  split; simpl.
  - apply Balanced_bind; [now apply Balanced_ifNotNil_opt | intros _].
    apply Balanced_bind; [apply Balanced_writeln | intros _].
    apply Balanced_bracket_then; [now apply Balanced_convertBlockStmt|].
    exact Htail.
  - apply Balanced_bind; [now apply Balanced_ifNotNil_opt | intros _].
    apply Balanced_bind; [apply Balanced_writeln | intros _].
    apply Balanced_bracket_then; [now apply Balanced_convertBlockStmt|].
    exact Htail.
Qed.

End BalancedRules.

(** Every statement is balanced: whatever [convertStmt] returns differs from
    what it was given by appended output only. *)
Lemma Balanced_convertStmt (stmt : Stmt) : Balanced (convertStmt stmt).
Proof.
  induction stmt using Stmt_nested_ind
    with (Q := fun s => Balanced (convertIfStmt convertStmt s)
                        /\ Balanced (convertElseIfStmt convertStmt s));
    try (simpl; auto with balanced; fail).
  - (* IfStmt *) simpl. tauto.
  - (* ForStmt *) apply Balanced_convertForStmt; assumption.
  - (* RangeStmt *) apply Balanced_convertRangeStmt; assumption.
  - (* BlockStmt *) apply Balanced_convertBlockStmt; assumption.
  - (* SwitchStmt *) apply Balanced_convertSwitchStmt; assumption.
  - (* CaseClause *) apply Balanced_convertCaseClause; assumption.
  - (* mkIf *)
    apply Balanced_if_rules; try assumption.
    + destruct Else as [[]|]; simpl in *; tauto.
    + intros l ->. exact H1.
Qed.

(* ===================================================================== *)
(** * Safe methods: the converter returns *)
(* ===================================================================== *)

Lemma Safe_mono {A : Type} (k k' : nat) (m : M A) :
  (k <= k')%nat -> Safe k m -> Safe k' m.
Proof. intros Hk Hm c H0 H1. apply Hm; lia. Qed.

Lemma Safe_ret {A : Type} (k : nat) (a : A) : Safe k (ret a).
Proof. intros c _ _. exists a, c. split; [reflexivity | apply appended_refl]. Qed.

Lemma Safe_skip (k : nat) : Safe k skip.
Proof. apply Safe_ret. Qed.

Lemma Safe_bind {A B : Type} (k : nat) (m : M A) (f : A -> M B) :
  Safe k m -> (forall a, Safe k (f a)) -> Safe k (bind m f).
Proof.
  intros Hm Hf c H0 H1.
  destruct (Hm c H0 H1) as (a & c1 & E1 & A1).
  pose proof (appended_indentLevel _ _ A1) as Hi.
  destruct (Hf a c1) as (b & c2 & E2 & A2); try (rewrite Hi; assumption).
  exists b, c2. split.
  - unfold bind. now rewrite E1.
  - now apply appended_trans with c1.
Qed.

Lemma Safe_writeln (k : nat) (s : string) : Safe k (writeln s).
Proof.
  intros c H0 H1. eexists tt, _. split.
  - apply writeln_Some. lia.
  - apply appended_set_output. apply wholeLines_line.
Qed.

Lemma Safe_bracket (k K : nat) (m : M unit) :
  Safe k m -> (S k <= K)%nat ->
  Safe K (indentLevel_incr ;; m ;; indentLevel_decr).
Proof.
  intros Hm HK c H0 H1.
  assert (Hi : GoInt.incr (indentLevel c) = indentLevel c + 1)
    by (apply incr_small; lia).
  destruct (Hm (set_indentLevel (GoInt.incr (indentLevel c)) c))
    as ([] & c2 & E2 & A2); try (simpl; lia).
  exists tt, (set_indentLevel (GoInt.decr (indentLevel c2)) c2). split.
  - unfold bind, indentLevel_incr, indentLevel_decr. now rewrite E2.
  - apply appended_bracket; [|exact A2]. apply in_range_of_indent; lia.
Qed.

Lemma Safe_bracket_then (k K : nat) (m rest : M unit) :
  Safe k m -> (S k <= K)%nat -> Safe K rest ->
  Safe K (indentLevel_incr ;; m ;; indentLevel_decr ;; rest).
Proof.
  intros Hm HK Hrest c H0 H1.
  destruct (Safe_bracket k K m Hm HK c H0 H1) as ([] & c3 & E3 & A3).
  pose proof (appended_indentLevel _ _ A3) as Hi.
  destruct (Hrest c3) as ([] & c4 & E4 & A4); try (rewrite Hi; assumption).
  exists tt, c4. split; [|now apply appended_trans with c3].
  revert E3. unfold bind, indentLevel_incr, indentLevel_decr.
  destruct (m _) as [[[] c2]|]; [|discriminate].
  intros E3. injection E3 as ->. exact E4.
Qed.

Lemma Safe_forEach {A : Type} (k : nat) (l : list A) (body : A -> M unit) :
  Forall (fun x => Safe k (body x)) l -> Safe k (forEach l body).
Proof.
  induction 1 as [|x rest Hx _ IH]; simpl.
  - apply Safe_skip.
  - apply Safe_bind; [exact Hx | intros _; exact IH].
Qed.

Lemma Safe_forEach_all {A : Type} (k : nat) (l : list A)
      (body : A -> M unit) :
  (forall x, Safe k (body x)) -> Safe k (forEach l body).
Proof.
  intros H. apply Safe_forEach. apply Forall_forall. intros x _. apply H.
Qed.

Lemma Safe_forRange {A : Type} (k : nat) (l : list A)
      (body : nat -> A -> M unit) :
  (forall i x, Safe k (body i x)) -> Safe k (forRange l body).
Proof.
  intros H. unfold forRange. generalize 0%nat.
  induction l as [|x rest IH]; intros i; simpl.
  - apply Safe_skip.
  - apply Safe_bind; [apply H | intros _; apply IH].
Qed.

Lemma Safe_ifNotNil_opt (k : nat) (o : option Stmt) (body : Stmt -> M unit) :
  OptForall (fun s => Safe k (body s)) o -> Safe k (ifNotNil o body).
Proof.
  destruct o as [s|]; simpl; [trivial | intros _; apply Safe_skip].
Qed.

#[export] Hint Resolve Safe_ret Safe_skip Safe_writeln Safe_forEach
  Safe_forEach_all Safe_forRange Safe_ifNotNil_opt : safe.
#[export] Hint Extern 2 (Safe _ (bind _ _)) =>
  apply Safe_bind; [|intros ?] : safe.
#[export] Hint Extern 3 (Safe _ (match ?x with _ => _ end)) =>
  destruct x : safe.
#[export] Hint Extern 3 (Safe _ (if ?x then _ else _)) =>
  destruct x : safe.

Lemma Safe_convertAssignStmt k Lhs Tok Rhs :
  Safe k (convertAssignStmt Lhs Tok Rhs).
Proof. unfold convertAssignStmt. auto 8 with safe. Qed.

Lemma Safe_valueSpecName k Type_ Values i name :
  Safe k (valueSpecName Type_ Values i name).
Proof. unfold valueSpecName. auto with safe. Qed.

Lemma Safe_convertValueSpec k spec : Safe k (convertValueSpec spec).
Proof.
  destruct spec; simpl; auto with safe.
  apply Safe_forRange. intros. apply Safe_valueSpecName.
Qed.

Lemma Safe_convertDeclStmt k Decl : Safe k (convertDeclStmt Decl).
Proof.
  destruct Decl as [g|]; simpl; auto with safe.
  apply Safe_forEach_all. apply Safe_convertValueSpec.
Qed.

Lemma Safe_convertReturnStmt k Results : Safe k (convertReturnStmt Results).
Proof. unfold convertReturnStmt. auto with safe. Qed.

Lemma Safe_convertIncDecStmt k X Tok : Safe k (convertIncDecStmt X Tok).
Proof. unfold convertIncDecStmt. auto with safe. Qed.

Lemma Safe_convertBranchStmt k Tok : Safe k (convertBranchStmt Tok).
Proof. unfold convertBranchStmt. auto with safe. Qed.

#[export] Hint Resolve Safe_convertAssignStmt Safe_convertDeclStmt
  Safe_convertReturnStmt Safe_convertIncDecStmt Safe_convertBranchStmt
  Safe_convertValueSpec : safe.

Lemma maxOver_Forall (f : Stmt -> nat) (P : nat -> Stmt -> Prop)
      (l : list Stmt) (k : nat) :
  Forall (fun s => forall j, (f s <= j)%nat -> P j s) l ->
  (maxOver f l <= k)%nat ->
  Forall (P k) l.
Proof.
  induction 1 as [|x rest Hx _ IH]; simpl; intros Hk; constructor.
  - apply Hx. lia.
  - apply IH. lia.
Qed.

Section SafeRules.

Variable convertStmt : Stmt -> M unit.

Lemma Safe_convertBlockStmt (k : nat) (l : list Stmt) :
  Forall (fun s => Safe k (convertStmt s)) l ->
  Safe k (convertBlockStmt convertStmt l).
Proof. apply Safe_forEach. Qed.

Lemma Safe_body (k K : nat) (l : list Stmt) :
  Forall (fun s => Safe k (convertStmt s)) l -> (S k <= K)%nat ->
  Safe K (indentLevel_incr ;; convertBlockStmt convertStmt l ;;
          indentLevel_decr).
Proof.
  intros H HK. apply Safe_bracket with k; [|exact HK].
  now apply Safe_convertBlockStmt.
Qed.

Lemma Safe_elseBlock (k K : nat) (l : list Stmt) :
  Safe k (convertBlockStmt convertStmt l) -> (S k <= K)%nat ->
  Safe K (elseBlock convertStmt l).
Proof.
  intros H HK. unfold elseBlock.
  apply Safe_bind; [apply Safe_writeln | intros _].
  now apply Safe_bracket with k.
Qed.

(** [convertStmtToString] returns, and returns the converter it was
    given. *)
Lemma convertStmtToString_returns (k : nat) (stmt : Stmt)
      (c : ScarConverter) :
  Safe k (convertStmt stmt) ->
  0 <= indentLevel c -> indentLevel c + Z.of_nat k <= maxIndent ->
  exists text, convertStmtToString convertStmt stmt c = Some (text, c).
Proof.
  intros Hs H0 H1. unfold convertStmtToString.
  destruct (Hs (set_indentLevel 0 (set_output EmptyString c)))
    as ([] & c1 & E & (t & _ & ->)); try (simpl; lia).
  rewrite E. eexists. f_equal. f_equal. now destruct c.
Qed.

Lemma Safe_convertStmtToString (k : nat) (stmt : Stmt) :
  Safe k (convertStmt stmt) ->
  Safe k (convertStmtToString convertStmt stmt).
Proof.
  intros Hs c H0 H1.
  destruct (convertStmtToString_returns k stmt c Hs H0 H1) as [text E].
  exists text, c. split; [exact E | apply appended_refl].
Qed.

Lemma Safe_convertForStmt (k K : nat) Init Cond Post Body :
  (forall i e p, Init = Some i -> Cond = Some e -> Post = Some p ->
                 Safe K (convertStmt i) /\ Safe K (convertStmt p)) ->
  Forall (fun s => Safe k (convertStmt s)) Body -> (S k <= K)%nat ->
  Safe K (convertForStmt convertStmt Init Cond Post Body).
Proof.
  intros Hip Hb HK. unfold convertForStmt.
  apply Safe_bind; [|intros _; now apply Safe_body with k].
  destruct Init as [i|], Cond as [e|], Post as [q|]; auto with safe.
  destruct (Hip i e q eq_refl eq_refl eq_refl) as [Hi Hq].
  apply Safe_bind; [now apply Safe_convertStmtToString | intros t1].
  apply Safe_bind; [now apply Safe_convertStmtToString | intros t2].
  auto with safe.
Qed.

Lemma Safe_convertRangeStmt (k K : nat) Key Value X Body :
  Forall (fun s => Safe k (convertStmt s)) Body -> (S k <= K)%nat ->
  Safe K (convertRangeStmt convertStmt Key Value X Body).
Proof.
  intros Hb HK. unfold convertRangeStmt.
  apply Safe_bind; [|intros _; now apply Safe_body with k].
  destruct Key, Value; auto with safe.
Qed.

Lemma Safe_convertSwitchStmt (k K : nat) Init Tag Body :
  OptForall (fun s => Safe K (convertStmt s)) Init ->
  Forall (fun s => Safe k (convertStmt s)) Body -> (S k <= K)%nat ->
  Safe K (convertSwitchStmt convertStmt Init Tag Body).
Proof.
  intros Hi Hb HK. unfold convertSwitchStmt.
  apply Safe_bind; [now apply Safe_ifNotNil_opt | intros _].
  apply Safe_bind; [destruct Tag; auto with safe | intros _].
  now apply Safe_body with k.
Qed.

Lemma Safe_convertCaseClause (k K : nat) List_ Body :
  Forall (fun s => Safe k (convertStmt s)) Body -> (S k <= K)%nat ->
  Safe K (convertCaseClause convertStmt List_ Body).
Proof.
  intros Hb HK. unfold convertCaseClause.
  apply Safe_bind; [destruct List_; auto with safe | intros _].
  now apply Safe_body with k.
Qed.

Lemma Safe_if_rules (k K : nat) Init Cond Body Else :
  OptForall (fun s => Safe K (convertStmt s)) Init ->
  Forall (fun s => Safe k (convertStmt s)) Body -> (S k <= K)%nat ->
  ElseIfHolds (fun s => Safe K (convertElseIfStmt convertStmt s)) Else ->
  (forall l, Else = Some (BlockStmt l) -> Safe K (elseBlock convertStmt l)) ->
  Safe K (convertIfStmt convertStmt (mkIf Init Cond Body Else))
  /\ Safe K (convertElseIfStmt convertStmt (mkIf Init Cond Body Else)).
Proof.
  intros Hi Hb HK Hq Hl.
  assert (Htail : Safe K
            match Else with
            | Some (IfStmt elseIf) => convertElseIfStmt convertStmt elseIf
            | Some (BlockStmt List_) => elseBlock convertStmt List_
            | _ => skip
            end).
  { destruct Else as [[]|]; simpl in *; auto with safe. }
  split; simpl.
  - apply Safe_bind; [now apply Safe_ifNotNil_opt | intros _].
    apply Safe_bind; [apply Safe_writeln | intros _].
    apply Safe_bracket_then with k; try assumption.
    now apply Safe_convertBlockStmt.
  - apply Safe_bind; [now apply Safe_ifNotNil_opt | intros _].
    apply Safe_bind; [apply Safe_writeln | intros _].
    apply Safe_bracket_then with k; try assumption.
    now apply Safe_convertBlockStmt.
Qed.

End SafeRules.

Lemma OptForall_at (o : option Stmt) (K : nat) :
  OptForall (fun s => forall j, (nesting s <= j)%nat ->
                                Safe j (convertStmt s)) o ->
  (match o with Some s => nesting s | None => O end <= K)%nat ->
  OptForall (fun s => Safe K (convertStmt s)) o.
Proof. destruct o as [s|]; simpl; auto. Qed.

(** Every statement is safe for as many levels as it nests: started at a
    level [n >= 0] with [n + nesting stmt <= maxIndent], [convertStmt]
    returns. *)
Lemma Safe_convertStmt_le (stmt : Stmt) :
  forall K, (nesting stmt <= K)%nat -> Safe K (convertStmt stmt).
Proof.
  induction stmt using Stmt_nested_ind
    with (Q := fun s => forall K, (nestingIf s <= K)%nat ->
                   Safe K (convertIfStmt convertStmt s)
                   /\ Safe K (convertElseIfStmt convertStmt s));
    intros K HK; cbn [nesting nestingIf] in HK;
    try (simpl; auto with safe; fail).
  - (* IfStmt *) simpl. now apply IHstmt.
  - (* ForStmt *)
    apply Safe_convertForStmt with (k := maxOver nesting Body).
    + intros i e p -> -> ->. simpl in H, H0. split; [apply H | apply H0]; lia.
    + apply maxOver_Forall with (f := nesting) (1 := H1). lia.
    + lia.
  - (* RangeStmt *)
    apply Safe_convertRangeStmt with (k := maxOver nesting Body); [|lia].
    apply maxOver_Forall with (f := nesting) (1 := H). lia.
  - (* BlockStmt *)
    apply Safe_convertBlockStmt.
    apply maxOver_Forall with (f := nesting) (1 := H). lia.
  - (* SwitchStmt *)
    apply Safe_convertSwitchStmt with (k := maxOver nesting Body); [| |lia].
    + apply OptForall_at; [exact H | lia].
    + apply maxOver_Forall with (f := nesting) (1 := H0). lia.
  - (* CaseClause *)
    apply Safe_convertCaseClause with (k := maxOver nesting Body); [|lia].
    apply maxOver_Forall with (f := nesting) (1 := H). lia.
  - (* mkIf *)
    apply Safe_if_rules with (k := maxOver nesting Body); [| |lia| |].
    + apply OptForall_at; [exact H | lia].
    + apply maxOver_Forall with (f := nesting) (1 := H0). lia.
    + destruct Else as [[]|]; cbn [ElseIfHolds] in *; trivial.
      apply H2. lia.
    + intros l ->. cbn [OptForall] in H1.
      apply Safe_elseBlock with (k := maxOver nesting l); [|lia].
      apply (H1 (maxOver nesting l)). cbn [nesting]. lia.
Qed.

Lemma Safe_convertStmt (stmt : Stmt) : Safe (nesting stmt) (convertStmt stmt).
Proof. apply Safe_convertStmt_le. lia. Qed.

(* ===================================================================== *)
(** * Properties of the translation rules *)
(* ===================================================================== *)

(** In the source the [SelectorExpr] case of [convertType] is the call
    [convertExpr(t)]. *)
Lemma convertType_SelectorExpr (X : Expr) (Sel : string) :
  convertType (SelectorExpr X Sel) = convertExpr (SelectorExpr X Sel).
Proof. reflexivity. Qed.

(** ** Assignments with several targets or sources *)

(** C10.  An assignment whose left-hand side and right-hand side are not
    both of length one writes nothing: [convertStmt] returns the converter
    it was given, so the output buffer and the indentation level are
    unchanged.  This holds at every level, as no line is written. *)
Theorem multi_assign_emits_nothing (Lhs : list Expr) (Tok : token.Token)
        (Rhs : list Expr) (c : ScarConverter) :
  ~ (length Lhs = 1%nat /\ length Rhs = 1%nat) ->
  convertStmt (AssignStmt Lhs Tok Rhs) c = Some (tt, c)
  /\ (forall c', convertStmt (AssignStmt Lhs Tok Rhs) c = Some (tt, c') ->
                 output c' = output c /\ indentLevel c' = indentLevel c).
Proof.
  intros H.
  assert (E : convertStmt (AssignStmt Lhs Tok Rhs) c = Some (tt, c)).
  { simpl. unfold convertAssignStmt.
    destruct Lhs as [|l0 [|l1 Lhs]]; try reflexivity.
    destruct Rhs as [|r0 [|r1 Rhs]]; try reflexivity.
    exfalso. apply H. now split. }
  split; [exact E|].
  intros c' E'. rewrite E in E'. injection E' as <-. now split.
Qed.

Lemma multi_assign_emits_nothing_witness :
  ~ (length [Ident "a"; Ident "b"] = 1%nat
     /\ length [CallExpr (Ident "f") []] = 1%nat)
  /\ convertStmt multiAssign NewScarConverter = Some (tt, NewScarConverter).
Proof.
  assert (H : ~ (length [Ident "a"; Ident "b"] = 1%nat
                 /\ length [CallExpr (Ident "f") []] = 1%nat)).
  { simpl. intros [H _]. discriminate H. }
  split; [exact H|].
  exact (proj1 (multi_assign_emits_nothing
                  [Ident "a"; Ident "b"] token.ASSIGN
                  [CallExpr (Ident "f") []] NewScarConverter H)).
Defined.

(** ** Import paths *)

(** C4.  [convertImportPath] maps [crypto/md5] to [std/crypto] and [bufio]
    to [std/io], and returns the empty string for [crypto/sha256],
    [crypto/sha512], [crypto/sha1] and [io], whose cases have an empty body;
    [convertImports] then records no import for such a path, so that the
    file's output has no [import] line for it. *)
Theorem empty_case_imports_dropped :
  convertImportPath "crypto/md5" = "std/crypto"
  /\ convertImportPath "bufio" = "std/io"
  /\ Forall (fun path => convertImportPath path = EmptyString) emptyCasePaths
  /\ Forall (fun path => forall c,
                convertImports (mkGenDecl token.IMPORT
                                          [ImportSpec (quoted path)]) c
                = Some (tt, c)) emptyCasePaths
  /\ translate (mkFile [DGen (mkGenDecl token.IMPORT
                                (map (fun path => ImportSpec (quoted path))
                                     emptyCasePaths))])
     = Some EmptyString
  /\ translate (mkFile [DGen (mkGenDecl token.IMPORT
                                [ImportSpec (quoted "crypto/sha256");
                                 ImportSpec (quoted "crypto/md5");
                                 ImportSpec (quoted "io");
                                 ImportSpec (quoted "bufio")])])
     = Some (line 0 ("import " ++ quoted "std/crypto")
             ++ line 0 ("import " ++ quoted "std/io")
             ++ line 0 EmptyString).
Proof.
  repeat split.
  - repeat constructor.
  - repeat constructor; intros c; unfold convertImports; simpl;
      unfold bind, skip, ret; reflexivity.
Qed.

(** ** Formatted print *)

Lemma printfCall_spec (funcName : string) (format : Expr) (args : list Expr) :
  printfCall convertExpr funcName (format :: args)
  = spec_printf (convertExpr format) (map convertExpr args).
Proof.
  unfold printfCall, spec_printf.
  destruct args as [|a args]; reflexivity.
Qed.

(** C7.  A call [fmt.Printf(format, args...)] translates to
    [print <format> | <arg1>, <arg2>, ...], the arguments translated and
    joined with commas, and to [print <format>] when there is no argument
    after the format.  [fmt.Printf("%d-%s", n, s)] translates to
    [print "%d-%s" | n, s]. *)
Theorem printf_translation :
  (forall (format : Expr) (args : list Expr),
      convertExpr (CallExpr (SelectorExpr (Ident "fmt") "Printf")
                            (format :: args))
      = spec_printf (convertExpr format) (map convertExpr args))
  /\ (forall format : Expr,
        convertExpr (CallExpr (SelectorExpr (Ident "fmt") "Printf") [format])
        = "print " ++ convertExpr format)
  /\ (forall (format arg : Expr) (args : list Expr),
        convertExpr (CallExpr (SelectorExpr (Ident "fmt") "Printf")
                              (format :: arg :: args))
        = "print " ++ convertExpr format ++ " | "
          ++ strings.Join (map convertExpr (arg :: args)) ", ")
  /\ convertExpr printfCallExample
     = "print " ++ quoted "%d-%s" ++ " | n, s".
Proof.
  assert (H : forall format args,
             convertExpr (CallExpr (SelectorExpr (Ident "fmt") "Printf")
                                   (format :: args))
             = spec_printf (convertExpr format) (map convertExpr args)).
  { intros format args.
    change (convertExpr (CallExpr (SelectorExpr (Ident "fmt") "Printf")
                                  (format :: args)))
      with (printfCall convertExpr "fmt.Printf" (format :: args)).
    apply printfCall_spec. }
  split; [exact H|].
  split; [intros format; now rewrite H|].
  split; [intros format arg args; now rewrite H|].
  reflexivity.
Qed.

(** ** The function [main] *)

(** C8.  A function named [main] without a receiver gets no [fn main():]
    header and no deeper level: [convertFuncDecl] does exactly what
    [convertBlockStmt] does on its body at the current level, and nothing
    when it has no body.  A [main] that holds only [fmt.Println("hi")]
    contributes the single top-level line [print "hi"]. *)
Theorem main_is_flattened :
  (forall Params Results (body : list Stmt) (c : ScarConverter),
      convertFuncDecl (mkFuncDecl None "main" Params Results (Some body)) c
      = convertBlockStmt convertStmt body c)
  /\ (forall Params Results (c : ScarConverter),
        convertFuncDecl (mkFuncDecl None "main" Params Results None) c
        = Some (tt, c))
  /\ convertFuncDecl mainHi NewScarConverter
     = Some (tt, set_output (line 0 ("print " ++ quoted "hi"))
                            NewScarConverter).
Proof.
  split; [reflexivity|]. split; reflexivity.
Qed.

(** ** Method receivers *)

(** C1 fails on the code.  [convertFuncDecl] computes the receiver text
    [this <Type>] and then writes the same header whether that text is
    empty or not: the header of
    [func (p *Point) Get() int { return p.x }] is [fn Get() -> int:], and
    in general a method's output is the output of the function that has no
    receiver entry. *)
Theorem method_header_omits_receiver :
  funcReceiver (FuncDecl_Recv methodGet) = "this Point"
  /\ convertFuncDecl methodGet NewScarConverter
     = Some (tt, set_output (line 0 "fn Get() -> int:"
                             ++ line 1 "return p.x"
                             ++ line 0 EmptyString)
                            NewScarConverter)
  /\ (forall recv Name Params Results Body c,
        convertFuncDecl (mkFuncDecl (Some recv) Name Params Results Body) c
        = convertFuncDecl (mkFuncDecl (Some []) Name Params Results Body) c).
Proof.
  split; [reflexivity|]. split; [reflexivity|].
  intros recv Name Params Results Body c.
  unfold convertFuncDecl.
  cbn [FuncDecl_Recv FuncDecl_Name FuncDecl_Params FuncDecl_Results
       FuncDecl_Body isNil].
  rewrite !andb_false_r. cbv zeta.
  destruct (negb (funcReceiver (Some recv) =? EmptyString)%string);
    destruct (negb (funcReceiver (Some []) =? EmptyString)%string);
    reflexivity.
Qed.

(* ===================================================================== *)
(** * What a method emits *)
(* ===================================================================== *)

Lemma set_output_twice (c : ScarConverter) (t1 t2 : string) :
  set_output (output (set_output (output c ++ t1) c) ++ t2)
             (set_output (output c ++ t1) c)
  = set_output (output c ++ (t1 ++ t2)) c.
Proof. destruct c; unfold set_output; simpl. now rewrite append_assoc. Qed.

Lemma Emits_skip (level : Z) : Emits skip level EmptyString.
Proof.
  intros c _. unfold skip, ret. rewrite append_nil_r.
  now rewrite set_output_same.
Qed.

Lemma Emits_writeln (level : Z) (s : string) :
  0 <= level <= maxIndent -> Emits (writeln s) level (line level s).
Proof. intros H c <-. now apply writeln_Some. Qed.

Lemma Emits_bind (m1 m2 : M unit) (level : Z) (t1 t2 : string) :
  Emits m1 level t1 -> Emits m2 level t2 ->
  Emits (m1 ;; m2) level (t1 ++ t2).
Proof.
  intros H1 H2 c Hc. unfold bind. rewrite (H1 c Hc).
  rewrite H2 by exact Hc. now rewrite set_output_twice.
Qed.

Lemma Emits_bracket (m : M unit) (level : Z) (text : string) :
  0 <= level < maxIndent ->
  Emits m (level + 1) text ->
  Emits (indentLevel_incr ;; m ;; indentLevel_decr) level text.
Proof.
  intros Hl Hm c Hc. unfold bind, indentLevel_incr, indentLevel_decr.
  rewrite Hm by (simpl; rewrite Hc; apply incr_small; exact Hl).
  f_equal. f_equal.
  destruct c; unfold set_indentLevel, set_output; simpl in *.
  rewrite decr_incr; [reflexivity|].
  apply in_range_of_indent; lia.
Qed.

Lemma linesText_app (level : Z) (l1 l2 : list (option string)) :
  linesText level (l1 ++ l2) = linesText level l1 ++ linesText level l2.
Proof.
  induction l1 as [|[a|] l1 IH]; simpl; [reflexivity | | exact IH].
  now rewrite IH, append_assoc.
Qed.

Lemma linesText_cons (level : Z) (a : option string)
      (rest : list (option string)) :
  linesText level (a :: rest) = linesText level [a] ++ linesText level rest.
Proof. apply (linesText_app level [a] rest). Qed.

(** ** Local declarations *)

(** A type that is not an identifier without a name has a text. *)
Lemma convertType_nonempty (ty : Expr) :
  namedType ty -> convertType ty <> EmptyString.
Proof.
  intros H. destruct ty; try (simpl; discriminate).
  - (* Ident *)
    assert (Hn : Name <> EmptyString) by (intros ->; now apply H).
    simpl.
    repeat match goal with
           | |- (if ?b then _ else _) <> _ => destruct b; [discriminate|]
           end.
    exact Hn.
  - (* SelectorExpr *)
    simpl. apply append_nonempty_r. discriminate.
Qed.

Lemma valueSpecName_Emits (level : Z) (Type_ : option Expr)
      (Values : list Expr) (i : nat) (name : string) :
  0 <= level <= maxIndent ->
  (forall ty, Type_ = Some ty -> namedType ty) ->
  Emits (valueSpecName Type_ Values i name) level
        (linesText level
           [spec_declLine (option_map convertType Type_) name
                          (option_map convertExpr (nth_error Values i))]).
Proof.
  intros Hl Hty. unfold valueSpecName.
  destruct Type_ as [ty|]; cbn [orNil option_map].
  - rewrite (eqb_empty_false _ (convertType_nonempty ty (Hty ty eq_refl))).
    destruct (nth_error Values i) as [v|]; cbn [negb option_map spec_declLine linesText];
      rewrite append_nil_r; now apply Emits_writeln.
  - rewrite String.eqb_refl.
    destruct (nth_error Values i) as [v|]; cbn [negb option_map spec_declLine linesText].
    + rewrite append_nil_r. now apply Emits_writeln.
    + apply Emits_skip.
Qed.

Lemma forRangeFrom_Emits (level : Z) (Type_ : option Expr)
      (Values : list Expr) (names : list string) :
  0 <= level <= maxIndent ->
  (forall ty, Type_ = Some ty -> namedType ty) ->
  forall i,
    Emits (forRangeFrom (valueSpecName Type_ Values) i names) level
          (linesText level (spec_valueSpecLines Type_ Values i names)).
Proof.
  intros Hl Hty. induction names as [|name rest IH]; intros i.
  - apply Emits_skip.
  - cbn [forRangeFrom spec_valueSpecLines]. rewrite linesText_cons.
    apply Emits_bind; [now apply valueSpecName_Emits | apply IH].
Qed.

Lemma convertValueSpec_Emits (level : Z) (spec : Spec) :
  0 <= level <= maxIndent -> namedTypes spec ->
  Emits (convertValueSpec spec) level (linesText level (spec_specLines spec)).
Proof.
  intros Hl Hn. destruct spec as [path|Names Type_ Values|Name ty];
    try apply Emits_skip.
  simpl. apply forRangeFrom_Emits; [exact Hl|].
  intros ty ->. exact Hn.
Qed.

Lemma forEach_convertValueSpec_Emits (level : Z) (specs : list Spec) :
  0 <= level <= maxIndent -> Forall namedTypes specs ->
  Emits (forEach specs convertValueSpec) level
        (linesText level (flat_map spec_specLines specs)).
Proof.
  intros Hl. induction 1 as [|spec rest Hs _ IH].
  - apply Emits_skip.
  - cbn [forEach flat_map]. rewrite linesText_app.
    apply Emits_bind; [now apply convertValueSpec_Emits | exact IH].
Qed.

(** C9.  A local declaration statement writes, for each declared name in
    order, the line the specification gives: [<type> <name> = <init>] or
    [<type> <name>] when a type annotation is present, [<name> = <init>]
    when there is none but the name has an initializer, and nothing for a
    name with neither.  The type annotation is one the parser produces (an
    identifier has a name), and the level is one [indent] accepts. *)
Theorem local_decl_lines (genDecl : GenDecl) (c : ScarConverter) :
  0 <= indentLevel c <= maxIndent ->
  Forall namedTypes (GenDecl_Specs genDecl) ->
  convertStmt (DeclStmt (Some genDecl)) c
  = Some (tt, set_output
                (output c
                 ++ linesText (indentLevel c) (spec_declStmtLines genDecl))
                c).
Proof.
  intros Hl Hn. simpl.
  now apply (forEach_convertValueSpec_Emits (indentLevel c)).
Qed.

Lemma local_decl_lines_witness :
  0 <= indentLevel NewScarConverter <= maxIndent
  /\ Forall namedTypes (GenDecl_Specs varDecls)
  /\ convertStmt (DeclStmt (Some varDecls)) NewScarConverter
     = Some (tt, set_output (line 0 "int x = 1" ++ line 0 "string y"
                             ++ line 0 "z = 2" ++ line 0 "a = f()")
                            NewScarConverter).
Proof.
  assert (Hl : 0 <= indentLevel NewScarConverter <= maxIndent).
  { simpl. rewrite maxIndent_value. lia. }
  assert (Hn : Forall namedTypes (GenDecl_Specs varDecls)).
  { repeat constructor; discriminate. }
  split; [exact Hl|]. split; [exact Hn|].
  exact (local_decl_lines varDecls NewScarConverter Hl Hn).
Defined.

(** ** The three-clause [for] *)

(** The header [convertForStmt] builds from the pieces of the initializer,
    by their number and the index [len(initParts)-3], is the header of the
    specification, which reads the pieces from the end. *)
Lemma forHeader_refines (init cond post : string) :
  (let initParts := strings.Split init strings.space in
   if (3 <=? length initParts)%nat
   then "for " ++ nth (length initParts - 3) initParts EmptyString
        ++ "; " ++ cond ++ "; " ++ post ++ ":"
   else "while " ++ cond ++ ":")
  = spec_forHeader init cond post.
Proof.
  unfold spec_forHeader. cbv zeta.
  generalize (strings.Split init strings.space) as parts. intros parts.
  pose proof (rev_involutive parts) as Hp.
  remember (rev parts) as r eqn:Hr. clear Hr. subst parts.
  rewrite length_rev.
  destruct r as [|a [|b [|v r]]]; try reflexivity.
  replace (3 <=? length (a :: b :: v :: r))%nat with true
    by (symmetry; apply Nat.leb_le; simpl; lia).
  rewrite rev_nth by (simpl; lia).
  replace (length (a :: b :: v :: r) - S (length (a :: b :: v :: r) - 3))%nat
    with 2%nat by (simpl length; lia).
  reflexivity.
Qed.

Lemma writeln_if (b : bool) (s1 s2 : string) :
  (if b then writeln s1 else writeln s2) = writeln (if b then s1 else s2).
Proof. now destruct b. Qed.

(** C2.  For a [for] statement with initializer, condition and post
    statement, at a level that leaves room for its nesting:
    [convertStmtToString] renders the initializer and the post statement
    and hands the converter back; the header line is the one of the
    specification on the trimmed texts (split on single spaces; with at
    least three pieces [for <var>; <cond>; <post>:], the variable being the
    piece three positions from the end, otherwise [while <cond>:]); the body
    is then emitted one level deeper, and the level is restored.  The loop
    [for i := 0; i < 10; i++ { sum += i }] gives the header
    [for i; i < 10; i = i + 1:] and the body line [sum = sum + i] one level
    in. *)
Theorem classic_for_header :
  (forall (init : Stmt) (cond : Expr) (post : Stmt) (body : list Stmt)
          (c : ScarConverter),
      0 <= indentLevel c ->
      indentLevel c
      + Z.of_nat (nesting (ForStmt (Some init) (Some cond) (Some post) body))
      <= maxIndent ->
      exists initText postText bodyText,
        convertStmtToString convertStmt init c = Some (initText, c)
        /\ convertStmtToString convertStmt post c = Some (postText, c)
        /\ let header := spec_forHeader (strings.TrimSpace initText)
                                        (convertExpr cond)
                                        (strings.TrimSpace postText) in
           let c1 := set_output (output c ++ line (indentLevel c) header) c in
           let inner := set_indentLevel (indentLevel c + 1) c1 in
           writeln header c = Some (tt, c1)
           /\ convertBlockStmt convertStmt body inner
              = Some (tt, set_output (output inner ++ bodyText) inner)
           /\ convertStmt (ForStmt (Some init) (Some cond) (Some post) body) c
              = Some (tt, set_output
                            (output c ++ line (indentLevel c) header
                             ++ bodyText) c))
  /\ (forall init cond post,
        length (strings.Split init strings.space) < 3 ->
        spec_forHeader init cond post = "while " ++ cond ++ ":")%nat
  /\ (forall init cond post,
        3 <= length (strings.Split init strings.space) ->
        spec_forHeader init cond post
        = "for "
          ++ nth (length (strings.Split init strings.space) - 3)
                 (strings.Split init strings.space) EmptyString
          ++ "; " ++ cond ++ "; " ++ post ++ ":")%nat
  /\ convertStmt sumLoop NewScarConverter
     = Some (tt, set_output (line 0 "for i; i < 10; i = i + 1:"
                             ++ line 1 "sum = sum + i")
                            NewScarConverter).
Proof.
  split; [|split; [|split; [|reflexivity]]].
  - intros init cond post body c H0 H1.
    cbn [nesting] in H1.
    destruct (convertStmtToString_returns convertStmt (nesting init) init c
                (Safe_convertStmt init) H0 ltac:(lia)) as [initText Ei].
    destruct (convertStmtToString_returns convertStmt (nesting post) post c
                (Safe_convertStmt post) H0 ltac:(lia)) as [postText Ep].
    exists initText, postText.
    set (header := spec_forHeader (strings.TrimSpace initText)
                                  (convertExpr cond)
                                  (strings.TrimSpace postText)).
    set (c1 := set_output (output c ++ line (indentLevel c) header) c).
    set (inner := set_indentLevel (indentLevel c + 1) c1).
    assert (Ew : writeln header c = Some (tt, c1))
      by (apply writeln_Some; lia).
    destruct (Safe_convertStmt_le (BlockStmt body) (maxOver nesting body)
                (Nat.le_refl _) inner)
      as ([] & c2 & Eb & (bodyText & _ & ->)); try (simpl; lia).
    exists bodyText. cbv zeta. fold header. fold c1. fold inner.
    change (convertStmt (BlockStmt body))
      with (convertBlockStmt convertStmt body) in Eb.
    repeat split; try assumption.
    change (convertStmt (ForStmt (Some init) (Some cond) (Some post) body))
      with (convertForStmt convertStmt (Some init) (Some cond) (Some post)
                           body).
    unfold convertForStmt, bind. rewrite Ei. cbv zeta. rewrite Ep.
    pose proof (forHeader_refines (strings.TrimSpace initText)
                  (convertExpr cond) (strings.TrimSpace postText)) as Hh.
    cbv zeta in Hh. rewrite writeln_if, Hh. fold header. rewrite Ew.
    unfold indentLevel_incr, indentLevel_decr.
    replace (set_indentLevel (GoInt.incr (indentLevel c1)) c1) with inner
      by (unfold inner; f_equal; symmetry; apply incr_small; simpl; lia).
    rewrite Eb. f_equal. f_equal.
    assert (Hd : GoInt.decr (indentLevel c + 1) = indentLevel c).
    { rewrite <- (incr_small (indentLevel c)) by lia.
      apply decr_incr. apply in_range_of_indent; lia. }
    unfold inner, c1. destruct c; unfold set_indentLevel, set_output;
      simpl in *. rewrite Hd. now rewrite append_assoc.
  - intros init cond post H. rewrite <- forHeader_refines. cbv zeta.
    replace (3 <=? length (strings.Split init strings.space))%nat with false
      by (symmetry; apply Nat.leb_gt; exact H).
    reflexivity.
  - intros init cond post H. rewrite <- forHeader_refines. cbv zeta.
    replace (3 <=? length (strings.Split init strings.space))%nat with true
      by (symmetry; apply Nat.leb_le; exact H).
    reflexivity.
Qed.

(* ===================================================================== *)
(** * Declarations are balanced and safe *)
(* ===================================================================== *)

Lemma Balanced_convertBlock (l : list Stmt) : Balanced (convertBlock l).
Proof.
  apply Balanced_convertBlockStmt. apply Forall_forall.
  intros s _. apply Balanced_convertStmt.
Qed.

Lemma Balanced_body (l : list Stmt) :
  Balanced (indentLevel_incr ;; convertBlock l ;; indentLevel_decr).
Proof. apply Balanced_bracket. apply Balanced_convertBlock. Qed.

Lemma Balanced_convertFuncDecl (decl : FuncDecl) :
  Balanced (convertFuncDecl decl).
Proof.
  unfold convertFuncDecl.
  destruct ((FuncDecl_Name decl =? "main")%string
            && isNil (FuncDecl_Recv decl)).
  - apply Balanced_ifNotNil. intros body _. apply Balanced_convertBlock.
  - cbv zeta. apply Balanced_bind; [|intros _].
    + destruct (negb _); apply Balanced_writeln.
    + apply Balanced_bind; [|intros _; apply Balanced_writeln].
      apply Balanced_ifNotNil. intros body _. apply Balanced_body.
Qed.

Lemma Balanced_convertStructField (field : Field) :
  Balanced (convertStructField field).
Proof.
  unfold convertStructField. apply Balanced_forEach_all.
  intros name. apply Balanced_writeln.
Qed.

Lemma Balanced_convertInterfaceMethod (method : Field) :
  Balanced (convertInterfaceMethod method).
Proof.
  unfold convertInterfaceMethod.
  destruct (Field_Names method); [apply Balanced_skip|].
  destruct (Field_Type method); auto with balanced.
Qed.

Lemma Balanced_convertTypeSpec (Name : string) (Type_ : Expr) :
  Balanced (convertTypeSpec Name Type_).
Proof.
  destruct Type_; try apply Balanced_skip; unfold convertTypeSpec.
  - (* StructType *)
    apply Balanced_bind; [apply Balanced_writeln | intros _].
    apply Balanced_bracket_then; [|apply Balanced_writeln].
    destruct Fields as [[|field0 fields]|]; try apply Balanced_writeln.
    apply Balanced_bind; [apply Balanced_writeln | intros _].
    apply Balanced_bracket. apply Balanced_forEach_all.
    apply Balanced_convertStructField.
  - (* InterfaceType *)
    apply Balanced_bind; [apply Balanced_writeln | intros _].
    apply Balanced_bracket_then; [|apply Balanced_writeln].
    apply Balanced_ifNotNil. intros methods _.
    apply Balanced_forEach_all. apply Balanced_convertInterfaceMethod.
Qed.

Lemma Balanced_processDecl (decl : Decl) : Balanced (processDecl decl).
Proof.
  destruct decl as [d|d|]; simpl; try apply Balanced_skip.
  - apply Balanced_convertFuncDecl.
  - destruct (GenDecl_Tok d); try apply Balanced_skip.
    + (* CONST *)
      apply Balanced_bind; [|intros _; apply Balanced_writeln].
      apply Balanced_forEach_all. apply Balanced_convertValueSpec.
    + (* TYPE *)
      apply Balanced_forEach_all. intros [| |Name ty]; simpl;
        try apply Balanced_skip. apply Balanced_convertTypeSpec.
    + (* VAR *)
      apply Balanced_bind; [|intros _; apply Balanced_writeln].
      apply Balanced_forEach_all. apply Balanced_convertValueSpec.
Qed.

Lemma Safe_convertBlock (k : nat) (l : list Stmt) :
  (maxOver nesting l <= k)%nat -> Safe k (convertBlock l).
Proof.
  intros H. apply (Safe_convertStmt_le (BlockStmt l)). exact H.
Qed.

Lemma Safe_funcBody (K : nat) (Body : option (list Stmt)) :
  (match Body with Some body => S (maxOver nesting body) | None => O end
   <= K)%nat ->
  Safe K (ifNotNil Body
            (fun body =>
               indentLevel_incr ;; convertBlock body ;; indentLevel_decr)).
Proof.
  intros H. destruct Body as [body|]; simpl; [|apply Safe_skip].
  apply Safe_bracket with (k := maxOver nesting body); [|exact H].
  now apply Safe_convertBlock.
Qed.

Lemma Safe_convertFuncDecl (K : nat) (decl : FuncDecl) :
  (nestingFunc decl <= K)%nat -> Safe K (convertFuncDecl decl).
Proof.
  unfold nestingFunc, convertFuncDecl. intros H.
  destruct ((FuncDecl_Name decl =? "main")%string
            && isNil (FuncDecl_Recv decl)).
  - destruct (FuncDecl_Body decl) as [body|]; simpl; [|apply Safe_skip].
    apply Safe_convertBlock. lia.
  - cbv zeta. apply Safe_bind; [|intros _].
    + destruct (negb _); apply Safe_writeln.
    + apply Safe_bind; [|intros _; apply Safe_writeln].
      now apply Safe_funcBody.
Qed.

Lemma Safe_convertTypeSpec (K : nat) (Name : string) (Type_ : Expr) :
  (2 <= K)%nat -> Safe K (convertTypeSpec Name Type_).
Proof.
  intros HK.
  destruct Type_; try apply Safe_skip; unfold convertTypeSpec.
  - (* StructType *)
    apply Safe_bind; [apply Safe_writeln | intros _].
    apply Safe_bracket_then with (k := 1%nat);
      [|lia|apply Safe_writeln].
    destruct Fields as [[|field0 fields]|]; try apply Safe_writeln.
    apply Safe_bind; [apply Safe_writeln | intros _].
    apply Safe_bracket with (k := O); [|lia].
    apply Safe_forEach_all. intros field. unfold convertStructField.
    apply Safe_forEach_all. intros name. apply Safe_writeln.
  - (* InterfaceType *)
    apply Safe_bind; [apply Safe_writeln | intros _].
    apply Safe_bracket_then with (k := O); [|lia|apply Safe_writeln].
    destruct Methods as [methods|]; simpl; [|apply Safe_skip].
    apply Safe_forEach_all. intros method. unfold convertInterfaceMethod.
    destruct (Field_Names method); [apply Safe_skip|].
    destruct (Field_Type method); auto with safe.
Qed.

Lemma Safe_processDecl (K : nat) (decl : Decl) :
  (nestingDecl decl <= K)%nat -> Safe K (processDecl decl).
Proof.
  destruct decl as [d|d|]; simpl; intros HK; try apply Safe_skip.
  - now apply Safe_convertFuncDecl.
  - destruct (GenDecl_Tok d); try apply Safe_skip.
    + apply Safe_bind; [|intros _; apply Safe_writeln].
      apply Safe_forEach_all. apply Safe_convertValueSpec.
    + apply Safe_forEach_all. intros [| |Name ty]; simpl;
        try apply Safe_skip. now apply Safe_convertTypeSpec.
    + apply Safe_bind; [|intros _; apply Safe_writeln].
      apply Safe_forEach_all. apply Safe_convertValueSpec.
Qed.

(* ===================================================================== *)
(** * Indentation balance and totality *)
(* ===================================================================== *)

Lemma NewScarConverter_level (k : nat) :
  (Z.of_nat k <= 1000)%Z ->
  0 <= indentLevel NewScarConverter
  /\ indentLevel NewScarConverter + Z.of_nat k <= maxIndent.
Proof. simpl. rewrite maxIndent_value. lia. Qed.

(** C3.  The indentation level after a statement or a declaration is the
    level before it.  Whenever [convertStmt], or the emission of a
    top-level declaration, returns from a level an [int] holds, the level
    is the one it started from; [convertStmtToString] hands back the
    output buffer and the level it saved; and from a level that leaves room
    for the nesting of the statement or declaration, the emission does
    return. *)
Theorem indentation_restored :
  (forall (stmt : Stmt) (c c' : ScarConverter),
      GoInt.in_range (indentLevel c) ->
      convertStmt stmt c = Some (tt, c') ->
      indentLevel c' = indentLevel c)
  /\ (forall (stmt : Stmt) (c : ScarConverter) (text : string)
             (c' : ScarConverter),
        convertStmtToString convertStmt stmt c = Some (text, c') ->
        output c' = output c /\ indentLevel c' = indentLevel c)
  /\ (forall (decl : Decl) (c c' : ScarConverter),
        GoInt.in_range (indentLevel c) ->
        processDecl decl c = Some (tt, c') ->
        indentLevel c' = indentLevel c)
  /\ (forall (stmt : Stmt) (c : ScarConverter),
        0 <= indentLevel c ->
        indentLevel c + Z.of_nat (nesting stmt) <= maxIndent ->
        exists c', convertStmt stmt c = Some (tt, c')
                   /\ indentLevel c' = indentLevel c)
  /\ (forall (decl : Decl) (c : ScarConverter),
        0 <= indentLevel c ->
        indentLevel c + Z.of_nat (nestingDecl decl) <= maxIndent ->
        exists c', processDecl decl c = Some (tt, c')
                   /\ indentLevel c' = indentLevel c).
Proof.
  repeat split.
  - intros stmt c c' Hr E.
    apply appended_indentLevel. exact (Balanced_convertStmt stmt c tt c' Hr E).
  - apply convertStmtToString_restores in H; [now subst|].
    apply Balanced_convertStmt.
  - apply convertStmtToString_restores in H; [now subst|].
    apply Balanced_convertStmt.
  - intros decl c c' Hr E.
    apply appended_indentLevel. exact (Balanced_processDecl decl c tt c' Hr E).
  - intros stmt c H0 H1.
    destruct (Safe_convertStmt stmt c H0 H1) as ([] & c' & E & A).
    exists c'. split; [exact E | now apply appended_indentLevel].
  - intros decl c H0 H1.
    destruct (Safe_processDecl (nestingDecl decl) decl (Nat.le_refl _)
                               c H0 H1) as ([] & c' & E & A).
    exists c'. split; [exact E | now apply appended_indentLevel].
Qed.

Lemma indentation_restored_witness :
  (0 <= indentLevel NewScarConverter
   /\ indentLevel NewScarConverter + Z.of_nat (nesting nestedExample)
      <= maxIndent)
  /\ exists c', convertStmt nestedExample NewScarConverter = Some (tt, c')
                /\ indentLevel c' = indentLevel NewScarConverter.
Proof.
  assert (H : 0 <= indentLevel NewScarConverter
              /\ indentLevel NewScarConverter
                 + Z.of_nat (nesting nestedExample) <= maxIndent).
  { apply NewScarConverter_level. simpl. lia. }
  split; [exact H|].
  exact (proj1 (proj2 (proj2 (proj2 indentation_restored)))
               nestedExample NewScarConverter (proj1 H) (proj2 H)).
Defined.

(** C6.  Statement emission is total.  From a level that leaves room for
    its nesting, [convertStmt] returns on every statement, having appended
    whole lines to the output and changed nothing else.  On a statement it
    has no rule for (a type switch, or a kind outside its cases) the
    appended text is exactly one line, the placeholder comment, and the
    level is unchanged. *)
Theorem convertStmt_total (stmt : Stmt) (c : ScarConverter) :
  0 <= indentLevel c ->
  indentLevel c + Z.of_nat (nesting stmt) <= maxIndent ->
  exists c',
    convertStmt stmt c = Some (tt, c')
    /\ appended c c'
    /\ indentLevel c' = indentLevel c
    /\ (forall comment,
          unsupported stmt = Some comment ->
          c' = set_output (output c ++ line (indentLevel c) comment) c).
Proof.
  intros H0 H1.
  destruct (Safe_convertStmt stmt c H0 H1) as ([] & c' & E & A).
  exists c'. repeat split; try assumption.
  - now apply appended_indentLevel.
  - intros comment Hu.
    assert (Hl : 0 <= indentLevel c <= maxIndent) by lia.
    destruct stmt; try discriminate Hu; injection Hu as <-;
      simpl in E; rewrite (writeln_Some _ c Hl) in E;
      now injection E as <-.
Qed.

Lemma convertStmt_total_witness :
  (0 <= indentLevel NewScarConverter
   /\ indentLevel NewScarConverter + Z.of_nat (nesting typeSwitchExample)
      <= maxIndent)
  /\ exists c',
      convertStmt typeSwitchExample NewScarConverter = Some (tt, c')
      /\ appended NewScarConverter c'
      /\ indentLevel c' = indentLevel NewScarConverter
      /\ (forall comment,
            unsupported typeSwitchExample = Some comment ->
            c' = set_output
                   (output NewScarConverter
                    ++ line (indentLevel NewScarConverter) comment)
                   NewScarConverter).
Proof.
  assert (H : 0 <= indentLevel NewScarConverter
              /\ indentLevel NewScarConverter
                 + Z.of_nat (nesting typeSwitchExample) <= maxIndent).
  { apply NewScarConverter_level. simpl. lia. }
  split; [exact H|].
  exact (convertStmt_total typeSwitchExample NewScarConverter
                           (proj1 H) (proj2 H)).
Defined.

Lemma classic_for_header_witness :
  (0 <= indentLevel NewScarConverter
   /\ indentLevel NewScarConverter + Z.of_nat (nesting sumLoop) <= maxIndent)
  /\ exists initText postText,
      convertStmtToString convertStmt
        (AssignStmt [Ident "i"] token.DEFINE [BasicLit token.INT "0"])
        NewScarConverter = Some (initText, NewScarConverter)
      /\ convertStmtToString convertStmt (IncDecStmt (Ident "i") token.INC)
           NewScarConverter = Some (postText, NewScarConverter).
Proof.
  assert (H : 0 <= indentLevel NewScarConverter
              /\ indentLevel NewScarConverter
                 + Z.of_nat (nesting sumLoop) <= maxIndent).
  { apply NewScarConverter_level. simpl. lia. }
  split; [exact H|].
  destruct (proj1 classic_for_header
              (AssignStmt [Ident "i"] token.DEFINE [BasicLit token.INT "0"])
              (BinaryExpr (Ident "i") token.LSS (BasicLit token.INT "10"))
              (IncDecStmt (Ident "i") token.INC)
              [AssignStmt [Ident "sum"] token.ADD_ASSIGN [Ident "i"]]
              NewScarConverter (proj1 H) (proj2 H))
    as (initText & postText & _ & Ei & Ep & _).
  exists initText, postText. split; assumption.
Defined.

(* ===================================================================== *)
(** * The blank line after a function *)
(* ===================================================================== *)

Lemma line_nonempty (level : Z) (s : string) : line level s <> EmptyString.
Proof.
  unfold line. apply append_nonempty_r. apply append_nonempty_r.
  discriminate.
Qed.

Lemma wholeLines_ends (text : string) :
  wholeLines text -> text <> EmptyString ->
  exists t, text = t ++ strings.nl.
Proof. intros [-> | H] Hn; [now elim Hn | exact H]. Qed.

Lemma append_nonempty_l (s t : string) :
  s <> EmptyString -> s ++ t <> EmptyString.
Proof. destruct s; [intros H; now elim H | discriminate]. Qed.

(** Whether [convertFuncDecl] takes its [main] branch. *)
Lemma main_branch_false_iff (decl : FuncDecl) :
  (FuncDecl_Name decl =? "main")%string && isNil (FuncDecl_Recv decl) = false
  <-> FuncDecl_Name decl <> "main" \/ FuncDecl_Recv decl <> None.
Proof.
  rewrite andb_false_iff, String.eqb_neq.
  destruct (FuncDecl_Recv decl); simpl; split; intros [H|H]; auto;
    try discriminate; try (right; discriminate); now elim H.
Qed.

(** C5, as amended.  After emitting a function or method declaration other
    than the special-cased [main] (the function named [main] that has no
    receiver), a blank line is appended to the output: from a level that
    leaves room for the body, [convertFuncDecl] returns, what it appended
    ends with an empty line at the current level, and so the output ends
    with a blank line. *)
Theorem function_ends_with_blank_line (decl : FuncDecl) (c : ScarConverter) :
  FuncDecl_Name decl <> "main" \/ FuncDecl_Recv decl <> None ->
  0 <= indentLevel c ->
  indentLevel c + Z.of_nat (nestingFunc decl) <= maxIndent ->
  exists text,
    convertFuncDecl decl c
    = Some (tt, set_output
                  (output c ++ text ++ strings.nl
                   ++ line (indentLevel c) EmptyString) c)
    /\ endsWithBlankLine (indentLevel c)
         (output c ++ text ++ strings.nl ++ line (indentLevel c) EmptyString).
Proof.
  intros Hm H0 H1. apply main_branch_false_iff in Hm.
  assert (Hl : 0 <= indentLevel c <= maxIndent) by lia.
  unfold convertFuncDecl. rewrite Hm. cbv zeta.
  set (header := "fn " ++ FuncDecl_Name decl ++ "("
                 ++ strings.Join (funcParams (FuncDecl_Params decl)) ", "
                 ++ ")" ++ funcReturnType (FuncDecl_Results decl) ++ ":").
  rewrite writeln_if.
  replace (if negb (funcReceiver (FuncDecl_Recv decl) =? EmptyString)%string
           then header else header) with header by (now destruct (negb _)).
  set (c1 := set_output (output c ++ line (indentLevel c) header) c).
  destruct (Safe_funcBody (nestingFunc decl) (FuncDecl_Body decl)
              (Nat.le_refl _) c1)
    as ([] & c2 & E2 & (body & W & ->)); try (simpl; lia).
  destruct (wholeLines_ends (line (indentLevel c) header ++ body))
    as [text Et].
  { apply wholeLines_app; [apply wholeLines_line | exact W]. }
  { apply append_nonempty_l. apply line_nonempty. }
  exists text. split.
  - rewrite (bind_run _ _ c tt c1 (writeln_Some header c Hl)).
    rewrite (bind_run _ _ c1 tt _ E2).
    rewrite writeln_Some by (simpl; exact Hl).
    assert (Hs : ((output c ++ line (indentLevel c) header) ++ body)
                 ++ line (indentLevel c) EmptyString
                 = output c ++ text ++ strings.nl
                   ++ line (indentLevel c) EmptyString).
    { rewrite (append_assoc (output c)), Et. now rewrite !append_assoc. }
    f_equal. f_equal. rewrite <- Hs. unfold c1. now destruct c.
  - right. exists (output c ++ text). now rewrite !append_assoc.
Qed.

Lemma function_ends_with_blank_line_witness :
  (FuncDecl_Name methodGet <> "main" \/ FuncDecl_Recv methodGet <> None)
  /\ (0 <= indentLevel NewScarConverter
      /\ indentLevel NewScarConverter + Z.of_nat (nestingFunc methodGet)
         <= maxIndent)
  /\ exists text,
      convertFuncDecl methodGet NewScarConverter
      = Some (tt, set_output
                    (output NewScarConverter ++ text ++ strings.nl
                     ++ line (indentLevel NewScarConverter) EmptyString)
                    NewScarConverter)
      /\ endsWithBlankLine (indentLevel NewScarConverter)
           (output NewScarConverter ++ text ++ strings.nl
            ++ line (indentLevel NewScarConverter) EmptyString).
Proof.
  assert (Hm : FuncDecl_Name methodGet <> "main"
               \/ FuncDecl_Recv methodGet <> None)
    by (left; discriminate).
  assert (H : 0 <= indentLevel NewScarConverter
              /\ indentLevel NewScarConverter
                 + Z.of_nat (nestingFunc methodGet) <= maxIndent).
  { apply NewScarConverter_level. simpl. lia. }
  split; [exact Hm|]. split; [exact H|].
  exact (function_ends_with_blank_line methodGet NewScarConverter Hm
                                       (proj1 H) (proj2 H)).
Defined.

(** C5 as stated fails on [main]: emitting
    [func main() { fmt.Println("hi") }] on a fresh converter leaves the
    output [print "hi"] and its line terminator, which does not end with a
    blank line. *)
Lemma main_appends_no_blank_line :
  exists c',
    convertFuncDecl mainHi NewScarConverter = Some (tt, c')
    /\ output c' = line 0 ("print " ++ quoted "hi")
    /\ ~ endsWithBlankLine (indentLevel NewScarConverter) (output c').
Proof.
  eexists. split; [reflexivity|]. split; [reflexivity|].
  intros [H | [before H]]; [discriminate H|].
  simpl in H.
  do 11 (destruct before as [|? before];
         [discriminate H | simpl in H; injection H as _ H]).
  destruct before; discriminate H.
Qed.

(* ===================================================================== *)
(** * The whole file *)
(* ===================================================================== *)

Lemma set_imports_same (c : ScarConverter) : set_imports (imports c) c = c.
Proof. now destruct c. Qed.

Lemma ImportsOnly_skip : ImportsOnly skip.
Proof. intros c. exists (imports c). now rewrite set_imports_same. Qed.

Lemma ImportsOnly_bind (m1 m2 : M unit) :
  ImportsOnly m1 -> ImportsOnly m2 -> ImportsOnly (m1 ;; m2).
Proof.
  intros H1 H2 c. destruct (H1 c) as [l1 E1].
  destruct (H2 (set_imports l1 c)) as [l2 E2].
  exists l2. rewrite (bind_run _ _ _ _ _ E1), E2. now destruct c.
Qed.

Lemma ImportsOnly_forEach {A : Type} (l : list A) (body : A -> M unit) :
  (forall x, ImportsOnly (body x)) -> ImportsOnly (forEach l body).
Proof.
  intros H. induction l as [|x rest IH]; simpl.
  - apply ImportsOnly_skip.
  - apply ImportsOnly_bind; [apply H | exact IH].
Qed.

Lemma ImportsOnly_convertImportSpec (spec : Spec) :
  ImportsOnly (convertImportSpec spec).
Proof.
  destruct spec as [path| |]; simpl; try apply ImportsOnly_skip.
  destruct (negb _); [|apply ImportsOnly_skip].
  intros c. now eexists.
Qed.

Lemma ImportsOnly_processImports (decl : Decl) :
  ImportsOnly (processImports decl).
Proof.
  destruct decl as [d|d|]; simpl; try apply ImportsOnly_skip.
  destruct (GenDecl_Tok d); try apply ImportsOnly_skip.
  apply ImportsOnly_forEach. apply ImportsOnly_convertImportSpec.
Qed.

Lemma Safe_writeImports (k : nat) : Safe k writeImports.
Proof.
  intros c H0 H1. unfold writeImports.
  apply (Safe_bind k); try assumption.
  - apply Safe_forEach_all. intros imp. apply Safe_writeln.
  - intros _. destruct (_ <? _)%nat; [apply Safe_writeln | apply Safe_skip].
Qed.

Lemma nestingFile_bound (file : File) :
  Forall (fun decl => (nestingDecl decl <= nestingFile file)%nat)
         (File_Decls file).
Proof.
  unfold nestingFile. induction (File_Decls file) as [|d rest IH]; simpl.
  - constructor.
  - constructor; [lia|].
    apply Forall_impl with (2 := IH). intros a Ha. lia.
Qed.

(** X1.  From a fresh converter, [ConvertFile] returns the text of every
    parsed file whose nesting [indent] can indent: the levels a run reaches
    are those between [0] and the nesting of the file, so the conditions on
    the level in the theorems above hold throughout a run. *)
Theorem ConvertFile_returns (file : File) :
  Z.of_nat (nestingFile file) <= maxIndent ->
  exists text, translate file = Some text.
Proof.
  intros Hn. unfold translate, ConvertFile.
  destruct (ImportsOnly_forEach (File_Decls file) processImports
              ImportsOnly_processImports NewScarConverter) as [l E1].
  rewrite (bind_run _ _ _ _ _ E1).
  destruct (Safe_writeImports (nestingFile file) (set_imports l NewScarConverter))
    as ([] & c2 & E2 & A2); try (simpl; lia).
  rewrite (bind_run _ _ _ _ _ E2).
  pose proof (appended_indentLevel _ _ A2) as Hi. simpl in Hi.
  destruct (Safe_forEach (nestingFile file) (File_Decls file) processDecl)
    with (c := c2) as ([] & c3 & E3 & A3); try (rewrite Hi; lia).
  { apply Forall_impl with (2 := nestingFile_bound file).
    intros decl Hd. now apply Safe_processDecl. }
  rewrite (bind_run _ _ _ _ _ E3). now eexists.
Qed.

Lemma ConvertFile_returns_witness :
  Z.of_nat (nestingFile fileExample) <= maxIndent
  /\ exists text, translate fileExample = Some text.
Proof.
  assert (H : Z.of_nat (nestingFile fileExample) <= maxIndent).
  { rewrite maxIndent_value. simpl. lia. }
  split; [exact H|]. exact (ConvertFile_returns fileExample H).
Defined.

(** The text of the example file: [fmt] has no entry in the import table
    and is dropped, [os] becomes [std/os]; the struct becomes a class with
    its field list; the method and the body of [main] follow. *)
Example fileExample_text :
  translate fileExample
  = Some (line 0 ("import " ++ quoted "std/os")
          ++ line 0 EmptyString
          ++ line 0 "class Point:"
          ++ line 1 "init:"
          ++ line 2 "int this.x"
          ++ line 2 "int this.y"
          ++ line 0 EmptyString
          ++ line 0 "fn Get() -> int:"
          ++ line 1 "return p.x"
          ++ line 0 EmptyString
          ++ line 0 ("print " ++ quoted "hi")).
Proof. reflexivity. Qed.

(** ** Further scenarios of the specification *)

(** [if err != nil { return err } else { return nil }] gives
    [if err != nil:], [return err] one level in, [else:], and [return nil]
    one level in. *)
Theorem if_else_scenario :
  convertStmt ifElseExample NewScarConverter
  = Some (tt, set_output (line 0 "if err != nil:"
                          ++ line 1 "return err"
                          ++ line 0 "else:"
                          ++ line 1 "return nil")
                         NewScarConverter).
Proof. reflexivity. Qed.

(** X2.  A call of [append] with at least two arguments becomes a call of
    [add] on the collection with the element as argument, further arguments
    dropped; [append(xs, 5)] gives [xs.add(5)]. *)
Theorem append_translation :
  (forall (slice elem : Expr) (more : list Expr),
      convertExpr (CallExpr (Ident "append") (slice :: elem :: more))
      = convertExpr slice ++ ".add(" ++ convertExpr elem ++ ")")
  /\ convertExpr appendExample = "xs.add(5)".
Proof. split; reflexivity. Qed.

(** A literal's text passes through unchanged, whatever its kind. *)
Theorem literal_passthrough (Kind : token.Token) (Value : string) :
  convertExpr (BasicLit Kind Value) = Value.
Proof. reflexivity. Qed.

(** X3.  The conditions on the level are needed: at a negative level, or at
    one beyond [maxIndent], [indent] panics in [strings.Repeat], and so does
    every method that writes a line. *)
Theorem writeln_panics_outside_levels (s : string) (c : ScarConverter) :
  indentLevel c < 0 \/ maxIndent < indentLevel c ->
  writeln s c = None /\ forall X, convertStmt (ExprStmt X) c = None.
Proof.
  intros H.
  assert (E : forall s, writeln s c = None).
  { intros s'. unfold writeln, indent, strings.Repeat.
    destruct (Z.ltb_spec (indentLevel c) 0) as [_|Hn]; [reflexivity|].
    change (strings.len "    ") with 4. rewrite maxInt_value.
    rewrite maxIndent_value in H.
    destruct (Z.ltb_spec 9223372036854775807 (4 * indentLevel c));
      [reflexivity | lia]. }
  split; [apply E | intros X; apply E].
Qed.

Lemma writeln_panics_outside_levels_witness :
  (indentLevel (set_indentLevel (-1) NewScarConverter) < 0
   \/ maxIndent < indentLevel (set_indentLevel (-1) NewScarConverter))
  /\ writeln "x" (set_indentLevel (-1) NewScarConverter) = None.
Proof.
  assert (H : indentLevel (set_indentLevel (-1) NewScarConverter) < 0
              \/ maxIndent
                 < indentLevel (set_indentLevel (-1) NewScarConverter)).
  { left. simpl. lia. }
  split; [exact H|].
  exact (proj1 (writeln_panics_outside_levels
                  "x" (set_indentLevel (-1) NewScarConverter) H)).
Defined.

(** An [else if] stays at the level of its [if]: the text of
    [if a { for { break } } else if b { return } else { x++ }]. *)
Example nestedExample_text :
  convertStmt nestedExample NewScarConverter
  = Some (tt, set_output (line 0 "if a:"
                          ++ line 1 "while true:"
                          ++ line 2 "break"
                          ++ line 0 "elif b:"
                          ++ line 1 "return"
                          ++ line 0 "else:"
                          ++ line 1 "x = x + 1")
                         NewScarConverter).
Proof. reflexivity. Qed.

(* ===================================================================== *)
(** * Emission as a list of lines *)
(* ===================================================================== *)

Lemma indentLevel_set_output (text : string) (c : ScarConverter) :
  indentLevel (set_output text c) = indentLevel c.
Proof. reflexivity. Qed.

Lemma render_app (level : Z) (l1 l2 : list RelLine) :
  render level (l1 ++ l2) = render level l1 ++ render level l2.
Proof.
  induction l1 as [|[d s] l1 IH]; simpl; [reflexivity|].
  now rewrite IH, append_assoc.
Qed.

Lemma render_deeper (level : Z) (ls : list RelLine) :
  render level (deeper ls) = render (level + 1) ls.
Proof.
  induction ls as [|[d s] ls IH]; simpl; [reflexivity|].
  rewrite IH. f_equal. f_equal. lia.
Qed.

Lemma render_single (level : Z) (s : string) :
  render level [(O, s)] = line level s.
Proof. simpl. rewrite append_nil_r. f_equal. lia. Qed.

Lemma within_mono (k K : nat) (ls : list RelLine) :
  (k <= K)%nat -> within k ls -> within K ls.
Proof.
  intros HK. apply Forall_impl. intros l Hl. lia.
Qed.

Lemma within_app (k : nat) (l1 l2 : list RelLine) :
  within k l1 -> within k l2 -> within k (l1 ++ l2).
Proof. intros H1 H2. apply Forall_app. now split. Qed.

Lemma within_deeper (k : nat) (ls : list RelLine) :
  within k ls -> within (S k) (deeper ls).
Proof.
  unfold within, deeper. intros H. apply Forall_map.
  apply Forall_impl with (2 := H). intros l Hl. simpl. lia.
Qed.

Lemma EmitsLines_mono (m : M unit) (k K : nat) (ls : list RelLine) :
  (k <= K)%nat -> EmitsLines m k ls -> EmitsLines m K ls.
Proof.
  intros HK [W E]. split; [now apply within_mono with k|].
  intros c H0 H1. apply E; lia.
Qed.

Lemma EmitsLines_skip (k : nat) : EmitsLines skip k [].
Proof.
  split; [constructor|]. intros c _ _. simpl.
  unfold skip, ret. now rewrite append_nil_r, set_output_same.
Qed.

Lemma EmitsLines_writeln (k : nat) (s : string) :
  EmitsLines (writeln s) k [(O, s)].
Proof.
  split; [repeat constructor; simpl; lia|].
  intros c H0 H1. rewrite render_single. apply writeln_Some. lia.
Qed.

Lemma EmitsLines_bind (m1 m2 : M unit) (k : nat) (l1 l2 : list RelLine) :
  EmitsLines m1 k l1 -> EmitsLines m2 k l2 ->
  EmitsLines (m1 ;; m2) k (l1 ++ l2).
Proof.
  intros [W1 E1] [W2 E2]. split; [now apply within_app|].
  intros c H0 H1.
  rewrite (bind_run _ _ _ _ _ (E1 c H0 H1)).
  rewrite E2 by assumption.
  rewrite indentLevel_set_output, set_output_twice. now rewrite render_app.
Qed.

Lemma EmitsLines_bracket (m : M unit) (k K : nat) (ls : list RelLine) :
  EmitsLines m k ls -> (S k <= K)%nat ->
  EmitsLines (indentLevel_incr ;; m ;; indentLevel_decr) K (deeper ls).
Proof.
  intros [W E] HK. split.
  - apply within_mono with (S k); [exact HK | now apply within_deeper].
  - intros c H0 H1. rewrite render_deeper.
    apply (Emits_bracket m (indentLevel c) (render (indentLevel c + 1) ls));
      [lia | | reflexivity].
    intros c1 Hc1. rewrite <- Hc1. apply E; lia.
Qed.

Lemma EmitsLines_cons (m1 m2 : M unit) (k : nat) (l : RelLine)
      (ls : list RelLine) :
  EmitsLines m1 k [l] -> EmitsLines m2 k ls ->
  EmitsLines (m1 ;; m2) k (l :: ls).
Proof. intros H1 H2. apply (EmitsLines_bind m1 m2 k [l] ls H1 H2). Qed.

Lemma EmitsLines_bracket_then (m rest : M unit) (k K : nat)
      (ls lr : list RelLine) :
  EmitsLines m k ls -> (S k <= K)%nat -> EmitsLines rest K lr ->
  EmitsLines (indentLevel_incr ;; m ;; indentLevel_decr ;; rest) K
             (deeper ls ++ lr).
Proof.
  intros Hm HK Hr.
  pose proof (EmitsLines_bind _ _ _ _ _ (EmitsLines_bracket m k K ls Hm HK) Hr)
    as [W E].
  split; [exact W|]. intros c H0 H1. rewrite <- (E c H0 H1).
  unfold bind, indentLevel_incr, indentLevel_decr.
  destruct (m _) as [[[] c2]|]; reflexivity.
Qed.

Lemma HasLines_intro (m : M unit) (k : nat) (ls : list RelLine) :
  EmitsLines m k ls -> HasLines m k.
Proof. intros H. now exists ls. Qed.

Lemma HasLines_mono (m : M unit) (k K : nat) :
  (k <= K)%nat -> HasLines m k -> HasLines m K.
Proof. intros HK [ls H]. exists ls. now apply EmitsLines_mono with k. Qed.

Lemma HasLines_skip (k : nat) : HasLines skip k.
Proof. eexists. apply EmitsLines_skip. Qed.

Lemma HasLines_writeln (k : nat) (s : string) : HasLines (writeln s) k.
Proof. eexists. apply EmitsLines_writeln. Qed.

Lemma HasLines_bind (m1 m2 : M unit) (k : nat) :
  HasLines m1 k -> HasLines m2 k -> HasLines (m1 ;; m2) k.
Proof.
  intros [l1 H1] [l2 H2]. exists (l1 ++ l2)%list. now apply EmitsLines_bind.
Qed.

Lemma HasLines_bracket (m : M unit) (k K : nat) :
  HasLines m k -> (S k <= K)%nat ->
  HasLines (indentLevel_incr ;; m ;; indentLevel_decr) K.
Proof.
  intros [ls H] HK. exists (deeper ls). now apply EmitsLines_bracket with k.
Qed.

Lemma HasLines_bracket_then (m rest : M unit) (k K : nat) :
  HasLines m k -> (S k <= K)%nat -> HasLines rest K ->
  HasLines (indentLevel_incr ;; m ;; indentLevel_decr ;; rest) K.
Proof.
  intros [ls H] HK [lr Hr]. exists (deeper ls ++ lr)%list.
  now apply EmitsLines_bracket_then with k.
Qed.

Lemma HasLines_forEach {A : Type} (k : nat) (l : list A)
      (body : A -> M unit) :
  Forall (fun x => HasLines (body x) k) l -> HasLines (forEach l body) k.
Proof.
  induction 1 as [|x rest Hx _ IH]; simpl.
  - apply HasLines_skip.
  - now apply HasLines_bind.
Qed.

Lemma HasLines_forEach_all {A : Type} (k : nat) (l : list A)
      (body : A -> M unit) :
  (forall x, HasLines (body x) k) -> HasLines (forEach l body) k.
Proof.
  intros H. apply HasLines_forEach. apply Forall_forall. intros x _. apply H.
Qed.

Lemma HasLines_forRange {A : Type} (k : nat) (l : list A)
      (body : nat -> A -> M unit) :
  (forall i x, HasLines (body i x) k) -> HasLines (forRange l body) k.
Proof.
  intros H. unfold forRange. generalize 0%nat.
  induction l as [|x rest IH]; intros i; simpl.
  - apply HasLines_skip.
  - apply HasLines_bind; [apply H | apply IH].
Qed.

Lemma HasLines_ifNotNil_opt (k : nat) (o : option Stmt)
      (body : Stmt -> M unit) :
  OptForall (fun s => HasLines (body s) k) o -> HasLines (ifNotNil o body) k.
Proof.
  destruct o as [s|]; simpl; [trivial | intros _; apply HasLines_skip].
Qed.

(** After a method that only reads, the rest decides the lines. *)
Lemma HasLines_bind_Reads {A : Type} (m : M A) (f : A -> M unit) (k : nat)
      (a : A) :
  Reads m k a -> HasLines (f a) k -> HasLines (bind m f) k.
Proof.
  intros Hm [ls [W E]]. exists ls. split; [exact W|].
  intros c H0 H1. rewrite (bind_run _ _ _ _ _ (Hm c H0 H1)). now apply E.
Qed.

Create HintDb lines.
#[export] Hint Resolve HasLines_skip HasLines_writeln HasLines_forEach
  HasLines_forEach_all HasLines_forRange HasLines_ifNotNil_opt : lines.
#[export] Hint Extern 2 (HasLines (bind _ _) _) =>
  apply HasLines_bind : lines.
#[export] Hint Extern 3 (HasLines (match ?x with _ => _ end) _) =>
  destruct x : lines.
#[export] Hint Extern 3 (HasLines (if ?x then _ else _) _) =>
  destruct x : lines.

Lemma HasLines_convertAssignStmt k Lhs Tok Rhs :
  HasLines (convertAssignStmt Lhs Tok Rhs) k.
Proof. unfold convertAssignStmt. auto 8 with lines. Qed.

Lemma HasLines_convertValueSpec k spec : HasLines (convertValueSpec spec) k.
Proof.
  destruct spec; simpl; auto with lines.
  apply HasLines_forRange. intros. unfold valueSpecName. auto with lines.
Qed.

Lemma HasLines_convertDeclStmt k Decl : HasLines (convertDeclStmt Decl) k.
Proof.
  destruct Decl as [g|]; simpl; auto with lines.
  apply HasLines_forEach_all. apply HasLines_convertValueSpec.
Qed.

Lemma HasLines_convertReturnStmt k Results :
  HasLines (convertReturnStmt Results) k.
Proof. unfold convertReturnStmt. auto with lines. Qed.

Lemma HasLines_convertIncDecStmt k X Tok :
  HasLines (convertIncDecStmt X Tok) k.
Proof. unfold convertIncDecStmt. auto with lines. Qed.

Lemma HasLines_convertBranchStmt k Tok : HasLines (convertBranchStmt Tok) k.
Proof. unfold convertBranchStmt. auto with lines. Qed.

#[export] Hint Resolve HasLines_convertAssignStmt HasLines_convertDeclStmt
  HasLines_convertReturnStmt HasLines_convertIncDecStmt
  HasLines_convertBranchStmt HasLines_convertValueSpec : lines.

Section LineRules.

Variable convertStmt : Stmt -> M unit.

Lemma HasLines_convertBlockStmt (k : nat) (l : list Stmt) :
  Forall (fun s => HasLines (convertStmt s) k) l ->
  HasLines (convertBlockStmt convertStmt l) k.
Proof. apply HasLines_forEach. Qed.

Lemma HasLines_body (k K : nat) (l : list Stmt) :
  Forall (fun s => HasLines (convertStmt s) k) l -> (S k <= K)%nat ->
  HasLines (indentLevel_incr ;; convertBlockStmt convertStmt l ;;
            indentLevel_decr) K.
Proof.
  intros H HK. apply HasLines_bracket with k; [|exact HK].
  now apply HasLines_convertBlockStmt.
Qed.

Lemma HasLines_elseBlock (k K : nat) (l : list Stmt) :
  HasLines (convertBlockStmt convertStmt l) k -> (S k <= K)%nat ->
  HasLines (elseBlock convertStmt l) K.
Proof.
  intros H HK. unfold elseBlock.
  apply HasLines_bind; [apply HasLines_writeln|].
  now apply HasLines_bracket with k.
Qed.

(** The text [convertStmtToString] returns is that of the statement's lines
    at level [0], trimmed: it depends on the statement only. *)
Lemma convertStmtToString_Reads (k : nat) (stmt : Stmt) (ls : list RelLine) :
  EmitsLines (convertStmt stmt) k ls ->
  Reads (convertStmtToString convertStmt stmt) k
        (strings.TrimSpace (render 0 ls)).
Proof.
  intros [W E] c H0 H1. unfold convertStmtToString.
  rewrite E by (simpl; lia). simpl. f_equal. f_equal. now destruct c.
Qed.

Lemma HasLines_convertForStmt (k K : nat) Init Cond Post Body :
  (forall i e p, Init = Some i -> Cond = Some e -> Post = Some p ->
                 HasLines (convertStmt i) K /\ HasLines (convertStmt p) K) ->
  Forall (fun s => HasLines (convertStmt s) k) Body -> (S k <= K)%nat ->
  HasLines (convertForStmt convertStmt Init Cond Post Body) K.
Proof.
  intros Hip Hb HK. unfold convertForStmt.
  apply HasLines_bind; [|now apply HasLines_body with k].
  destruct Init as [i|], Cond as [e|], Post as [q|]; auto with lines.
  destruct (Hip i e q eq_refl eq_refl eq_refl) as [[li Hi] [lq Hq]].
  apply HasLines_bind_Reads with (1 := convertStmtToString_Reads K i li Hi).
  apply HasLines_bind_Reads with (1 := convertStmtToString_Reads K q lq Hq).
  auto with lines.
Qed.

Lemma HasLines_convertRangeStmt (k K : nat) Key Value X Body :
  Forall (fun s => HasLines (convertStmt s) k) Body -> (S k <= K)%nat ->
  HasLines (convertRangeStmt convertStmt Key Value X Body) K.
Proof.
  intros Hb HK. unfold convertRangeStmt.
  apply HasLines_bind; [|now apply HasLines_body with k].
  destruct Key, Value; auto with lines.
Qed.

Lemma HasLines_convertSwitchStmt (k K : nat) Init Tag Body :
  OptForall (fun s => HasLines (convertStmt s) K) Init ->
  Forall (fun s => HasLines (convertStmt s) k) Body -> (S k <= K)%nat ->
  HasLines (convertSwitchStmt convertStmt Init Tag Body) K.
Proof.
  intros Hi Hb HK. unfold convertSwitchStmt.
  apply HasLines_bind; [now apply HasLines_ifNotNil_opt|].
  apply HasLines_bind; [destruct Tag; auto with lines|].
  now apply HasLines_body with k.
Qed.

Lemma HasLines_convertCaseClause (k K : nat) List_ Body :
  Forall (fun s => HasLines (convertStmt s) k) Body -> (S k <= K)%nat ->
  HasLines (convertCaseClause convertStmt List_ Body) K.
Proof.
  intros Hb HK. unfold convertCaseClause.
  apply HasLines_bind; [destruct List_; auto with lines|].
  now apply HasLines_body with k.
Qed.

Lemma HasLines_if_rules (k K : nat) Init Cond Body Else :
  OptForall (fun s => HasLines (convertStmt s) K) Init ->
  Forall (fun s => HasLines (convertStmt s) k) Body -> (S k <= K)%nat ->
  ElseIfHolds (fun s => HasLines (convertElseIfStmt convertStmt s) K) Else ->
  (forall l, Else = Some (BlockStmt l) ->
             HasLines (elseBlock convertStmt l) K) ->
  HasLines (convertIfStmt convertStmt (mkIf Init Cond Body Else)) K
  /\ HasLines (convertElseIfStmt convertStmt (mkIf Init Cond Body Else)) K.
Proof.
  intros Hi Hb HK Hq Hl.
  assert (Htail : HasLines
            match Else with
            | Some (IfStmt elseIf) => convertElseIfStmt convertStmt elseIf
            | Some (BlockStmt List_) => elseBlock convertStmt List_
            | _ => skip
            end K).
  { destruct Else as [[]|]; simpl in *; auto with lines. }
  split; simpl.
  - apply HasLines_bind; [now apply HasLines_ifNotNil_opt|].
    apply HasLines_bind; [apply HasLines_writeln|].
    apply HasLines_bracket_then with k; try assumption.
    now apply HasLines_convertBlockStmt.
  - apply HasLines_bind; [now apply HasLines_ifNotNil_opt|].
    apply HasLines_bind; [apply HasLines_writeln|].
    apply HasLines_bracket_then with k; try assumption.
    now apply HasLines_convertBlockStmt.
Qed.

End LineRules.

Lemma OptForall_lines_at (o : option Stmt) (K : nat) :
  OptForall (fun s => forall j, (nesting s <= j)%nat ->
                                HasLines (convertStmt s) j) o ->
  (match o with Some s => nesting s | None => O end <= K)%nat ->
  OptForall (fun s => HasLines (convertStmt s) K) o.
Proof. destruct o as [s|]; simpl; auto. Qed.

Lemma HasLines_convertStmt_le (stmt : Stmt) :
  forall K, (nesting stmt <= K)%nat -> HasLines (convertStmt stmt) K.
Proof.
  induction stmt using Stmt_nested_ind
    with (Q := fun s => forall K, (nestingIf s <= K)%nat ->
                   HasLines (convertIfStmt convertStmt s) K
                   /\ HasLines (convertElseIfStmt convertStmt s) K);
    intros K HK; cbn [nesting nestingIf] in HK;
    try (simpl; auto with lines; fail).
  - (* IfStmt *) simpl. now apply IHstmt.
  - (* ForStmt *)
    apply HasLines_convertForStmt with (k := maxOver nesting Body).
    + intros i e p -> -> ->. simpl in H, H0. split; [apply H | apply H0]; lia.
    + apply maxOver_Forall with (f := nesting) (1 := H1). lia.
    + lia.
  - (* RangeStmt *)
    apply HasLines_convertRangeStmt with (k := maxOver nesting Body); [|lia].
    apply maxOver_Forall with (f := nesting) (1 := H). lia.
  - (* BlockStmt *)
    apply HasLines_convertBlockStmt.
    apply maxOver_Forall with (f := nesting) (1 := H). lia.
  - (* SwitchStmt *)
    apply HasLines_convertSwitchStmt with (k := maxOver nesting Body);
      [| |lia].
    + apply OptForall_lines_at; [exact H | lia].
    + apply maxOver_Forall with (f := nesting) (1 := H0). lia.
  - (* CaseClause *)
    apply HasLines_convertCaseClause with (k := maxOver nesting Body); [|lia].
    apply maxOver_Forall with (f := nesting) (1 := H). lia.
  - (* mkIf *)
    apply HasLines_if_rules with (k := maxOver nesting Body); [| |lia| |].
    + apply OptForall_lines_at; [exact H | lia].
    + apply maxOver_Forall with (f := nesting) (1 := H0). lia.
    + destruct Else as [[]|]; cbn [ElseIfHolds] in *; trivial.
      apply H2. lia.
    + intros l ->. cbn [OptForall] in H1.
      apply HasLines_elseBlock with (k := maxOver nesting l); [|lia].
      apply (H1 (maxOver nesting l)). cbn [nesting]. lia.
Qed.



(* ===================================================================== *)
(** * The lines of declarations and of the file *)
(* ===================================================================== *)



Lemma EmitsLines_forEach_writeln {A : Type} (k : nat) (l : list A)
      (text : A -> string) :
  EmitsLines (forEach l (fun x => writeln (text x))) k
             (map (fun x => (O, text x)) l).
Proof.
  induction l as [|x rest IH]; simpl.
  - apply EmitsLines_skip.
  - apply EmitsLines_cons; [apply EmitsLines_writeln | exact IH].
Qed.



(** ** Imports *)

Lemma scarModules_app (l1 l2 : list string) :
  scarModules (l1 ++ l2) = (scarModules l1 ++ scarModules l2)%list.
Proof. unfold scarModules. now rewrite map_app, filter_app. Qed.

Lemma set_imports_twice (c : ScarConverter) (l1 l2 : list string) :
  set_imports (imports (set_imports (imports c ++ l1) c) ++ l2)
              (set_imports (imports c ++ l1) c)
  = set_imports (imports c ++ (l1 ++ l2)) c.
Proof. destruct c; unfold set_imports; simpl. now rewrite app_assoc. Qed.

Lemma imports_nil (c : ScarConverter) :
  Some (tt, c) = Some (tt, set_imports (imports c ++ []) c).
Proof. rewrite app_nil_r. now rewrite set_imports_same. Qed.

Lemma convertImportSpec_records (spec : Spec) (c : ScarConverter) :
  convertImportSpec spec c
  = Some (tt, set_imports (imports c ++ scarModules (importPathsOf spec)) c).
Proof.
  destruct spec as [path| |]; simpl; try apply imports_nil.
  unfold scarModules. simpl.
  destruct (negb _); [reflexivity | apply imports_nil].
Qed.

Lemma forEach_records {A : Type} (body : A -> M unit)
      (paths : A -> list string) (l : list A) :
  (forall x c, body x c
               = Some (tt, set_imports (imports c ++ scarModules (paths x))
                                       c)) ->
  forall c, forEach l body c
            = Some (tt, set_imports
                          (imports c ++ scarModules (flat_map paths l)) c).
Proof.
  intros H. induction l as [|x rest IH]; intros c; simpl.
  - apply imports_nil.
  - rewrite (bind_run _ _ _ _ _ (H x c)). rewrite IH.
    now rewrite set_imports_twice, scarModules_app.
Qed.

Lemma processImports_records (decl : Decl) (c : ScarConverter) :
  processImports decl c
  = Some (tt, set_imports (imports c ++ scarModules (importPaths decl)) c).
Proof.
  destruct decl as [d|d|]; simpl; try apply imports_nil.
  destruct (GenDecl_Tok d); try apply imports_nil.
  apply (forEach_records convertImportSpec importPathsOf).
  apply convertImportSpec_records.
Qed.

(** X5.  The first loop of [ConvertFile] appends to the recorded imports
    the Scar modules of the file's import paths, in the order the paths are
    declared: each path is looked up in the table, a path without an entry
    is left out, and a module that two paths map to is recorded twice.
    Declarations other than imports record nothing. *)
Theorem imports_recorded_in_order (decls : list Decl) (c : ScarConverter) :
  forEach decls processImports c
  = Some (tt, set_imports
                (imports c ++ scarModules (flat_map importPaths decls)) c).
Proof.
  apply (forEach_records processImports importPaths).
  apply processImports_records.
Qed.




(* ===================================================================== *)
(** * The lines of each kind of statement *)
(* ===================================================================== *)

Lemma EmitsLines_block_break :
  EmitsLines (convertBlock [BranchStmt token.BREAK]) O [(O, "break")].
Proof.
  apply (EmitsLines_bind (writeln "break") skip O [(O, "break")] []).
  - apply EmitsLines_writeln.
  - apply EmitsLines_skip.
Qed.





Lemma EmitsLines_header_body (header : M unit) (body : list Stmt) (k : nat)
      (lh lb : list RelLine) :
  EmitsLines header (S k) lh ->
  EmitsLines (convertBlock body) k lb ->
  EmitsLines (header ;; indentLevel_incr ;; convertBlock body ;;
              indentLevel_decr) (S k) (lh ++ deeper lb).
Proof.
  intros Hh Hb. apply EmitsLines_bind; [exact Hh|].
  apply EmitsLines_bracket with k; [exact Hb | lia].
Qed.

(** X8.  A [for] statement that lacks its initializer, its condition or
    its post statement is emitted as if it had neither initializer nor post
    statement: both are dropped.  With a condition the header is
    [while <cond>:], without one [while true:]; the body follows one level
    deeper. *)
Theorem for_without_three_clauses :
  (forall Init Cond Post Body c,
      Init = None \/ Cond = None \/ Post = None ->
      convertStmt (ForStmt Init Cond Post Body) c
      = convertStmt (ForStmt None Cond None Body) c)
  /\ (forall (cond : Expr) (body : list Stmt) (k : nat)
             (lb : list RelLine),
        EmitsLines (convertBlock body) k lb ->
        EmitsLines (convertStmt (ForStmt None (Some cond) None body)) (S k)
                   ((O, "while " ++ convertExpr cond ++ ":") :: deeper lb)
        /\ EmitsLines (convertStmt (ForStmt None None None body)) (S k)
                      ((O, "while true:") :: deeper lb)).
Proof.
  split.
  - intros Init Cond Post Body c H.
    change (convertForStmt convertStmt Init Cond Post Body c
            = convertForStmt convertStmt None Cond None Body c).
    unfold convertForStmt.
    destruct Init as [i|], Cond as [e|], Post as [q|]; try reflexivity.
    destruct H as [H|[H|H]]; discriminate H.
  - intros cond body k lb Hb. split.
    + exact (EmitsLines_header_body
               (writeln ("while " ++ convertExpr cond ++ ":")) body k
               [(O, "while " ++ convertExpr cond ++ ":")] lb
               (EmitsLines_writeln _ _) Hb).
    + exact (EmitsLines_header_body (writeln "while true:") body k
               [(O, "while true:")] lb (EmitsLines_writeln _ _) Hb).
Qed.

Lemma for_without_three_clauses_witness :
  (Some (AssignStmt [Ident "i"] token.DEFINE [BasicLit token.INT "0"]) = None
   \/ Some (BinaryExpr (Ident "i") token.LSS (Ident "n")) = None
   \/ @None Stmt = None)
  /\ convertStmt
       (ForStmt (Some (AssignStmt [Ident "i"] token.DEFINE
                                  [BasicLit token.INT "0"]))
                (Some (BinaryExpr (Ident "i") token.LSS (Ident "n")))
                None [BranchStmt token.BREAK]) NewScarConverter
     = convertStmt
         (ForStmt None (Some (BinaryExpr (Ident "i") token.LSS (Ident "n")))
                  None [BranchStmt token.BREAK]) NewScarConverter.
Proof.
  assert (H : Some (AssignStmt [Ident "i"] token.DEFINE
                               [BasicLit token.INT "0"]) = None
              \/ Some (BinaryExpr (Ident "i") token.LSS (Ident "n")) = None
              \/ @None Stmt = None) by (right; right; reflexivity).
  split; [exact H|].
  exact (proj1 for_without_three_clauses _ _ _ _ NewScarConverter H).
Defined.

(** X9.  A [range] statement with key and value emits
    [for <key>, <value> in <source>:], with a key only
    [for <key> in <source>:]; without a key it emits no header at all, only
    its body one level deeper. *)
Theorem range_lines (key value X : Expr) (body : list Stmt) (k : nat)
        (lb : list RelLine) :
  EmitsLines (convertBlock body) k lb ->
  EmitsLines (convertStmt (RangeStmt (Some key) (Some value) X body)) (S k)
             ((O, "for " ++ convertExpr key ++ ", " ++ convertExpr value
                  ++ " in " ++ convertExpr X ++ ":") :: deeper lb)
  /\ EmitsLines (convertStmt (RangeStmt (Some key) None X body)) (S k)
                ((O, "for " ++ convertExpr key ++ " in " ++ convertExpr X
                     ++ ":") :: deeper lb)
  /\ EmitsLines (convertStmt (RangeStmt None None X body)) (S k) (deeper lb)
  /\ EmitsLines (convertStmt (RangeStmt None (Some value) X body)) (S k)
                (deeper lb).
Proof.
  intros Hb. split; [|split; [|split]].
  - exact (EmitsLines_header_body (writeln _) body k [_] lb
             (EmitsLines_writeln _ _) Hb).
  - exact (EmitsLines_header_body (writeln _) body k [_] lb
             (EmitsLines_writeln _ _) Hb).
  - exact (EmitsLines_header_body skip body k [] lb (EmitsLines_skip _) Hb).
  - exact (EmitsLines_header_body skip body k [] lb (EmitsLines_skip _) Hb).
Qed.

Lemma range_lines_witness :
  EmitsLines (convertBlock [BranchStmt token.BREAK]) O [(O, "break")]
  /\ EmitsLines
       (convertStmt (RangeStmt (Some (Ident "i")) (Some (Ident "v"))
                               (Ident "xs") [BranchStmt token.BREAK])) 1
       [(O, "for i, v in xs:"); (1%nat, "break")]
  /\ EmitsLines
       (convertStmt (RangeStmt None None (Ident "ch")
                               [BranchStmt token.BREAK])) 1
       [(1%nat, "break")].
Proof.
  split; [exact EmitsLines_block_break|]. split.
  - exact (proj1 (range_lines (Ident "i") (Ident "v") (Ident "xs")
                    [BranchStmt token.BREAK] O [(O, "break")]
                    EmitsLines_block_break)).
  - exact (proj1 (proj2 (proj2
             (range_lines (Ident "i") (Ident "v") (Ident "ch")
                [BranchStmt token.BREAK] O [(O, "break")]
                EmitsLines_block_break)))).
Defined.



(** X11.  In a single assignment only [+=] and [-=] keep their operator
    ([lhs = lhs + rhs], [lhs = lhs - rhs]); with any other assignment token
    ([*=], [/=], [:=], ...) the line is [lhs = rhs], the operator dropped.
    An increment is emitted as the [+=] of the literal [1] is, and a
    decrement as the [-=] of [1]. *)
Theorem assignment_lowering :
  (forall (lhs rhs : Expr) (Tok : token.Token) (c : ScarConverter),
      Tok <> token.ADD_ASSIGN -> Tok <> token.SUB_ASSIGN ->
      convertStmt (AssignStmt [lhs] Tok [rhs]) c
      = writeln (convertExpr lhs ++ " = " ++ convertExpr rhs) c)
  /\ (forall (lhs rhs : Expr) (c : ScarConverter),
        convertStmt (AssignStmt [lhs] token.ADD_ASSIGN [rhs]) c
        = writeln (convertExpr lhs ++ " = " ++ convertExpr lhs ++ " + "
                   ++ convertExpr rhs) c
        /\ convertStmt (AssignStmt [lhs] token.SUB_ASSIGN [rhs]) c
           = writeln (convertExpr lhs ++ " = " ++ convertExpr lhs ++ " - "
                      ++ convertExpr rhs) c)
  /\ (forall (X : Expr) (c : ScarConverter),
        convertStmt (IncDecStmt X token.INC) c
        = convertStmt (AssignStmt [X] token.ADD_ASSIGN
                                  [BasicLit token.INT "1"]) c
        /\ convertStmt (IncDecStmt X token.DEC) c
           = convertStmt (AssignStmt [X] token.SUB_ASSIGN
                                     [BasicLit token.INT "1"]) c).
Proof.
  split; [|split].
  - intros lhs rhs Tok c Ha Hs.
    destruct Tok; try reflexivity; [now elim Ha | now elim Hs].
  - intros lhs rhs c. split; reflexivity.
  - intros X c. split; reflexivity.
Qed.

Lemma assignment_lowering_witness :
  (token.MUL_ASSIGN <> token.ADD_ASSIGN
   /\ token.MUL_ASSIGN <> token.SUB_ASSIGN)
  /\ convertStmt (AssignStmt [Ident "x"] token.MUL_ASSIGN
                             [BasicLit token.INT "2"]) NewScarConverter
     = writeln "x = 2" NewScarConverter.
Proof.
  assert (H : token.MUL_ASSIGN <> token.ADD_ASSIGN
              /\ token.MUL_ASSIGN <> token.SUB_ASSIGN)
    by (split; discriminate).
  split; [exact H|].
  exact (proj1 assignment_lowering (Ident "x") (BasicLit token.INT "2")
               token.MUL_ASSIGN NewScarConverter (proj1 H) (proj2 H)).
Defined.

Lemma forEach_silent {A : Type} (l : list A) (body : A -> M unit)
      (c : ScarConverter) :
  Forall (fun x => body x c = Some (tt, c)) l ->
  forEach l body c = Some (tt, c).
Proof.
  induction 1 as [|x rest Hx _ IH]; simpl; [reflexivity|].
  now rewrite (bind_run _ _ _ _ _ Hx).
Qed.

(** X12.  Statements that leave no trace: a branch statement other than
    [break] and [continue] ([goto], [fallthrough]), a declaration statement
    whose specs are no value specs (a local type declaration), and an empty
    block return the converter unchanged, at every level. *)
Theorem silent_statements (c : ScarConverter) :
  (forall Tok, Tok <> token.BREAK -> Tok <> token.CONTINUE ->
               convertStmt (BranchStmt Tok) c = Some (tt, c))
  /\ (forall genDecl,
        Forall notValueSpec (GenDecl_Specs genDecl) ->
        convertStmt (DeclStmt (Some genDecl)) c = Some (tt, c))
  /\ convertStmt (DeclStmt None) c = Some (tt, c)
  /\ convertStmt (BlockStmt []) c = Some (tt, c).
Proof.
  split; [|split; [|split]]; try reflexivity.
  - intros Tok Hb Hc.
    destruct Tok; try reflexivity; [now elim Hb | now elim Hc].
  - intros genDecl H. simpl. apply forEach_silent.
    apply Forall_impl with (2 := H).
    intros [| |]; simpl; intros Hs; try reflexivity. now elim Hs.
Qed.

Lemma silent_statements_witness :
  (token.GOTO <> token.BREAK /\ token.GOTO <> token.CONTINUE)
  /\ Forall notValueSpec
            (GenDecl_Specs (mkGenDecl token.TYPE [TypeSpec "T" (Ident "int")]))
  /\ convertStmt (BranchStmt token.GOTO) NewScarConverter
     = Some (tt, NewScarConverter)
  /\ convertStmt
       (DeclStmt (Some (mkGenDecl token.TYPE [TypeSpec "T" (Ident "int")])))
       NewScarConverter
     = Some (tt, NewScarConverter).
Proof.
  assert (H : token.GOTO <> token.BREAK /\ token.GOTO <> token.CONTINUE)
    by (split; discriminate).
  assert (Hs : Forall notValueSpec
                 (GenDecl_Specs
                    (mkGenDecl token.TYPE [TypeSpec "T" (Ident "int")])))
    by (repeat constructor).
  split; [exact H|]. split; [exact Hs|]. split.
  - exact (proj1 (silent_statements NewScarConverter) token.GOTO
                 (proj1 H) (proj2 H)).
  - exact (proj1 (proj2 (silent_statements NewScarConverter)) _ Hs).
Defined.

(** X13.  A [return] emits one line whatever the number of results:
    [return] alone without results, otherwise [return] followed by the
    translated results joined with commas, with no grouping around several
    results. *)
Theorem return_line (Results : list Expr) (k : nat) :
  EmitsLines (convertStmt (ReturnStmt Results)) k
             [(O, match Results with
                  | [] => "return"
                  | _ :: _ =>
                      "return "
                      ++ strings.Join (map convertExpr Results) ", "
                  end)].
Proof.
  destruct Results as [|r0 [|r1 rest]]; apply EmitsLines_writeln.
Qed.

(* ===================================================================== *)
(** * Calls and literals *)
(* ===================================================================== *)

(** X14.  A built-in called without the arguments its rewrite needs is an
    ordinary call: every built-in name with no argument gives [name()],
    [fmt.Printf()] and [fmt.Println()] likewise, and [append] with a single
    argument gives [append(<arg>)]. *)
Theorem builtin_without_arguments :
  Forall (fun name => convertExpr (CallExpr (Ident name) []) = name ++ "()")
         builtinNames
  /\ convertExpr (CallExpr (SelectorExpr (Ident "fmt") "Printf") [])
     = "fmt.Printf()"
  /\ convertExpr (CallExpr (SelectorExpr (Ident "fmt") "Println") [])
     = "fmt.Println()"
  /\ (forall arg : Expr,
        convertExpr (CallExpr (Ident "append") [arg])
        = "append(" ++ convertExpr arg ++ ")").
Proof.
  split; [repeat constructor|]. repeat split.
Qed.

(** X15.  The print and length rewrites read their first argument only:
    [fmt.Println(a, b, ...)] and [println(a, b, ...)] give [print <a>], and
    [len(a, b, ...)] gives [len(<a>)]; the arguments after the first leave
    no trace in the text. *)
Theorem first_argument_only (arg : Expr) (rest : list Expr) :
  convertExpr (CallExpr (SelectorExpr (Ident "fmt") "Println") (arg :: rest))
  = "print " ++ convertExpr arg
  /\ convertExpr (CallExpr (Ident "println") (arg :: rest))
     = "print " ++ convertExpr arg
  /\ convertExpr (CallExpr (Ident "len") (arg :: rest))
     = "len(" ++ convertExpr arg ++ ")".
Proof. repeat split. Qed.

Lemma HasPrefix_empty (s : string) : strings.HasPrefix s EmptyString = true.
Proof. now destruct s. Qed.

(** X16.  [make] of a slice or array type gives [new list[<elem>](<size>)]
    with the translated second argument as size, later arguments dropped,
    and [new list[<elem>]()] without one; [make] of a map type gives the
    empty literal [[]] whatever its other arguments. *)
Theorem make_translation :
  (forall (Len : option Expr) (Elt : Expr),
      convertExpr (CallExpr (Ident "make") [ArrayType Len Elt])
      = "new list[" ++ convertType Elt ++ "]()")
  /\ (forall (Len : option Expr) (Elt size : Expr) (rest : list Expr),
        convertExpr (CallExpr (Ident "make")
                              (ArrayType Len Elt :: size :: rest))
        = "new list[" ++ convertType Elt ++ "](" ++ convertExpr size ++ ")")
  /\ (forall (Key Value : Expr) (rest : list Expr),
        convertExpr (CallExpr (Ident "make") (MapType Key Value :: rest))
        = "[]").
Proof.
  split; [|split]; intros; simpl; rewrite HasPrefix_empty;
    try reflexivity; now rewrite append_assoc.
Qed.

Lemma eqb_false_of_neq (s t : string) : s <> t -> (s =? t)%string = false.
Proof. apply String.eqb_neq. Qed.

(** X17.  A call whose callee is a selector on anything but [fmt], or
    [fmt] with a member other than [Printf] and [Println], or an identifier
    that is no built-in name, is an ordinary call: the translated callee,
    then the translated arguments in parentheses, joined with commas. *)
Theorem ordinary_call :
  (forall (X : Expr) (Sel : string) (Args : list Expr),
      convertExpr X <> "fmt" ->
      convertExpr (CallExpr (SelectorExpr X Sel) Args)
      = convertExpr X ++ "." ++ Sel ++ "("
        ++ strings.Join (map convertExpr Args) ", " ++ ")")
  /\ (forall (Sel : string) (Args : list Expr),
        Sel <> "Printf" -> Sel <> "Println" ->
        convertExpr (CallExpr (SelectorExpr (Ident "fmt") Sel) Args)
        = "fmt." ++ Sel ++ "("
          ++ strings.Join (map convertExpr Args) ", " ++ ")")
  /\ (forall (Name : string) (Args : list Expr),
        ~ In Name builtinNames ->
        convertExpr (CallExpr (Ident Name) Args)
        = Name ++ "(" ++ strings.Join (map convertExpr Args) ", " ++ ")").
Proof.
  split; [|split].
  - intros X Sel Args H.
    change (convertExpr (CallExpr (SelectorExpr X Sel) Args))
      with (convertCallExpr convertType convertExpr (SelectorExpr X Sel) Args).
    unfold convertCallExpr. cbv zeta.
    rewrite (eqb_false_of_neq _ _ H). unfold genericCall.
    rewrite !append_assoc. reflexivity.
  - intros Sel Args Hf Hl.
    change (convertExpr (CallExpr (SelectorExpr (Ident "fmt") Sel) Args))
      with (convertCallExpr convertType convertExpr
                            (SelectorExpr (Ident "fmt") Sel) Args).
    unfold convertCallExpr. cbv zeta.
    change (convertExpr (Ident "fmt")) with "fmt".
    rewrite String.eqb_refl.
    now rewrite (eqb_false_of_neq _ _ Hf), (eqb_false_of_neq _ _ Hl).
  - intros Name Args H.
    change (convertExpr (CallExpr (Ident Name) Args))
      with (convertCallExpr convertType convertExpr (Ident Name) Args).
    unfold convertCallExpr. cbv zeta.
    assert (Hn : forall b, In b builtinNames -> (Name =? b)%string = false).
    { intros b Hb. apply String.eqb_neq. intros ->. now apply H. }
    rewrite !Hn by (simpl; tauto). reflexivity.
Qed.

Lemma ordinary_call_witness :
  (convertExpr (Ident "p") <> "fmt"
   /\ "Sprintf" <> "Printf" /\ "Sprintf" <> "Println"
   /\ ~ In "f" builtinNames)
  /\ convertExpr (CallExpr (SelectorExpr (Ident "p") "Move")
                           [Ident "dx"; Ident "dy"])
     = "p.Move(dx, dy)"
  /\ convertExpr (CallExpr (SelectorExpr (Ident "fmt") "Sprintf")
                           [Ident "x"])
     = "fmt.Sprintf(x)"
  /\ convertExpr (CallExpr (Ident "f") []) = "f()".
Proof.
  assert (H1 : convertExpr (Ident "p") <> "fmt") by discriminate.
  assert (H2 : "Sprintf" <> "Printf") by discriminate.
  assert (H3 : "Sprintf" <> "Println") by discriminate.
  assert (H4 : ~ In "f" builtinNames).
  { simpl. intros H. repeat (destruct H as [H|H]; [discriminate H|]).
    exact H. }
  split; [repeat split; assumption|]. split; [|split].
  - exact (proj1 ordinary_call (Ident "p") "Move" [Ident "dx"; Ident "dy"] H1).
  - exact (proj1 (proj2 ordinary_call) "Sprintf" [Ident "x"] H2 H3).
  - exact (proj2 (proj2 ordinary_call) "f" [] H4).
Defined.

(** X18.  A composite literal of a slice or array type gives its elements
    in brackets, joined with commas; a composite literal without a type, of
    a map type or of a pointer type gives the placeholder
    [# composite literal], its elements dropped. *)
Theorem composite_literal :
  (forall (Len : option Expr) (Elt : Expr) (Elts : list Expr),
      convertExpr (CompositeLit (Some (ArrayType Len Elt)) Elts)
      = "[" ++ strings.Join (map convertExpr Elts) ", " ++ "]")
  /\ (forall Elts : list Expr,
        convertExpr (CompositeLit None Elts) = "# composite literal")
  /\ (forall (Key Value : Expr) (Elts : list Expr),
        convertExpr (CompositeLit (Some (MapType Key Value)) Elts)
        = "# composite literal")
  /\ (forall (X : Expr) (Elts : list Expr),
        convertExpr (CompositeLit (Some (StarExpr X)) Elts)
        = "# composite literal").
Proof.
  split; [|split; [|split]]; intros; try reflexivity.
  simpl. now rewrite HasPrefix_empty.
Qed.

(* ===================================================================== *)
(** * Headers of functions, methods and types *)
(* ===================================================================== *)

Lemma length_append (s t : string) :
  String.length (s ++ t) = (String.length s + String.length t)%nat.
Proof. induction s as [|a s IH]; simpl; [reflexivity | now rewrite IH]. Qed.

Lemma substring_all (s : string) :
  String.substring 0 (String.length s) s = s.
Proof. induction s as [|a s IH]; simpl; [reflexivity | now rewrite IH]. Qed.

Lemma substring_skip (p s : string) (n : nat) :
  String.substring (String.length p) n (p ++ s) = String.substring 0 n s.
Proof. induction p as [|a p IH]; simpl; [reflexivity | exact IH]. Qed.

Lemma substring_take (s t : string) :
  String.substring 0 (String.length s) (s ++ t) = s.
Proof.
  induction s as [|a s IH]; simpl; [now destruct t | now rewrite IH].
Qed.

Lemma HasPrefix_append (p s : string) : strings.HasPrefix (p ++ s) p = true.
Proof.
  unfold strings.HasPrefix. induction p as [|a p IH]; simpl.
  - now destruct s.
  - destruct (ascii_dec a a) as [_|Hn]; [exact IH | now elim Hn].
Qed.

Lemma TrimPrefix_append (p s : string) : strings.TrimPrefix (p ++ s) p = s.
Proof.
  unfold strings.TrimPrefix. rewrite HasPrefix_append.
  rewrite length_append, substring_skip.
  replace (String.length p + String.length s - String.length p)%nat
    with (String.length s) by lia.
  apply substring_all.
Qed.

(** X19.  The receiver text of a method is [this <Type>], from the first
    receiver entry only and without its name: for a pointer receiver the
    type is the translated base type, the [ref ] that [convertType] puts in
    front of it taken off again, and for a receiver whose translated type
    does not start with [ref ] it is the translated type.  Without a
    receiver entry the text is empty. *)
Theorem receiver_text :
  (forall (Names : list string) (base : Expr) (others : list Field),
      funcReceiver (Some (mkField Names (StarExpr base) :: others))
      = "this " ++ convertType base)
  /\ (forall (Names : list string) (ty : Expr) (others : list Field),
        strings.HasPrefix (convertType ty) "ref " = false ->
        funcReceiver (Some (mkField Names ty :: others))
        = "this " ++ convertType ty)
  /\ funcReceiver None = EmptyString
  /\ funcReceiver (Some []) = EmptyString.
Proof.
  split; [|split; [|split]]; try reflexivity.
  - intros Names base others. unfold funcReceiver.
    cbn [Field_Type]. cbn [convertType].
    now rewrite HasPrefix_append, TrimPrefix_append.
  - intros Names ty others H. unfold funcReceiver. cbn [Field_Type].
    now rewrite H.
Qed.

Lemma receiver_text_witness :
  strings.HasPrefix (convertType (Ident "Point")) "ref " = false
  /\ funcReceiver (Some [mkField ["p"] (Ident "Point")]) = "this Point".
Proof.
  assert (H : strings.HasPrefix (convertType (Ident "Point")) "ref " = false)
    by reflexivity.
  split; [exact H|].
  exact (proj1 (proj2 receiver_text) ["p"] (Ident "Point") [] H).
Defined.



(** X21.  The parameter list of a header has one [<type> <name>] entry per
    parameter name, in order: an entry that declares several names is
    spread over them, and an entry without a name (an unnamed parameter)
    leaves nothing. *)
Theorem parameters_by_name :
  (forall fields : list Field,
      funcParams (Some fields)
      = flat_map (fun field =>
                    map (fun name =>
                           convertType (Field_Type field) ++ " " ++ name)
                        (Field_Names field))
                 fields)
  /\ (forall fields : list Field,
        length (funcParams (Some fields))
        = list_sum (map (fun field => length (Field_Names field)) fields))
  /\ (forall (ty : Expr) (others : list Field),
        funcParams (Some (mkField [] ty :: others))
        = funcParams (Some others))
  /\ funcParams None = [].
Proof.
  split; [reflexivity|]. split; [|split; reflexivity].
  intros fields. simpl. induction fields as [|f fields IH]; simpl;
    [reflexivity|].
  rewrite length_app, IH. unfold fieldParams. now rewrite length_map.
Qed.

(** X22.  A function or method that is not the special-cased [main] emits
    its header [fn <name>(<params>)<return type>:], its body one level
    deeper, and an empty line; a declaration without a body (an external
    function) emits the header and the empty line.  A method named [main]
    is not special-cased. *)
Theorem function_lines (decl : FuncDecl) (k : nat) (lb : list RelLine) :
  FuncDecl_Name decl <> "main" \/ FuncDecl_Recv decl <> None ->
  match FuncDecl_Body decl with
  | Some body => EmitsLines (convertBlock body) k lb
  | None => lb = []
  end ->
  EmitsLines (convertFuncDecl decl) (S k)
             ((O, "fn " ++ FuncDecl_Name decl ++ "("
                  ++ strings.Join (funcParams (FuncDecl_Params decl)) ", "
                  ++ ")" ++ funcReturnType (FuncDecl_Results decl) ++ ":")
              :: deeper lb ++ [(O, EmptyString)]).
Proof.
  intros Hm Hb. apply main_branch_false_iff in Hm.
  unfold convertFuncDecl. rewrite Hm. cbv zeta. rewrite writeln_if.
  match goal with
  | |- context [if ?b then ?x else ?x] =>
      replace (if b then x else x) with x by (now destruct b)
  end.
  apply EmitsLines_cons; [apply EmitsLines_writeln|].
  apply EmitsLines_bind; [|apply EmitsLines_writeln].
  destruct (FuncDecl_Body decl) as [body|]; simpl.
  - apply EmitsLines_bracket with k; [exact Hb | lia].
  - subst lb. apply EmitsLines_skip.
Qed.

Lemma function_lines_witness :
  (FuncDecl_Name methodGet <> "main" \/ FuncDecl_Recv methodGet <> None)
  /\ EmitsLines (convertBlock [ReturnStmt [SelectorExpr (Ident "p") "x"]]) O
                [(O, "return p.x")]
  /\ EmitsLines (convertFuncDecl methodGet) 1
                [(O, "fn Get() -> int:"); (1%nat, "return p.x");
                 (O, EmptyString)].
Proof.
  assert (Hm : FuncDecl_Name methodGet <> "main"
               \/ FuncDecl_Recv methodGet <> None)
    by (left; discriminate).
  assert (Hb : EmitsLines
                 (convertBlock [ReturnStmt [SelectorExpr (Ident "p") "x"]]) O
                 [(O, "return p.x")]).
  { apply (EmitsLines_bind (writeln "return p.x") skip O
             [(O, "return p.x")] []).
    - apply EmitsLines_writeln.
    - apply EmitsLines_skip. }
  split; [exact Hm|]. split; [exact Hb|].
  exact (function_lines methodGet O [(O, "return p.x")] Hm Hb).
Defined.

Lemma deeper_app (l1 l2 : list RelLine) :
  deeper (l1 ++ l2) = (deeper l1 ++ deeper l2)%list.
Proof. apply map_app. Qed.

(** X23.  A struct type becomes [class <Name>:], then [init:] one level
    deeper, then one line [<type> this.<field>] per field name two levels
    deeper, then an empty line; a field without a name (an embedded field)
    leaves nothing, and a struct without fields still gets [init:].  An
    interface type becomes [interface <Name>:], one header line per method
    that has a name and a function type, one level deeper and without a
    colon, then an empty line. *)
Theorem type_lines (Name : string) :
  (forall Fields : option (list Field),
      EmitsLines (convertTypeSpec Name (StructType Fields)) 2
                 ((O, "class " ++ Name ++ ":") :: (1%nat, "init:")
                  :: structFieldLines (fieldsOf Fields)
                  ++ [(O, EmptyString)]))
  /\ (forall Methods : option (list Field),
        EmitsLines (convertTypeSpec Name (InterfaceType Methods)) 2
                   ((O, "interface " ++ Name ++ ":")
                    :: interfaceMethodLines (fieldsOf Methods)
                    ++ [(O, EmptyString)])).
Proof.
  assert (Hfield : forall field,
             EmitsLines (convertStructField field) O
                        (map (fun name =>
                                (O, convertType (Field_Type field)
                                    ++ " this." ++ name))
                             (Field_Names field))).
  { intros field. apply (EmitsLines_forEach_writeln O (Field_Names field)). }
  assert (Hfields : forall fields,
             EmitsLines (forEach fields convertStructField) O
                        (flat_map (fun field =>
                                     map (fun name =>
                                            (O, convertType (Field_Type field)
                                                ++ " this." ++ name))
                                         (Field_Names field)) fields)).
  { induction fields as [|f fields IH]; simpl.
    - apply EmitsLines_skip.
    - apply EmitsLines_bind; [apply Hfield | exact IH]. }
  assert (Hdeep : forall fields,
             deeper (deeper
                       (flat_map (fun field =>
                                    map (fun name =>
                                           (O, convertType (Field_Type field)
                                               ++ " this." ++ name))
                                        (Field_Names field)) fields))
             = structFieldLines fields).
  { induction fields as [|f fields IH]; [reflexivity|].
    unfold structFieldLines. cbn [flat_map].
    rewrite !deeper_app. fold (structFieldLines fields). rewrite <- IH.
    f_equal. unfold deeper. now rewrite !map_map. }
  assert (Hmethod : forall method,
             EmitsLines (convertInterfaceMethod method) O
                        match Field_Names method, Field_Type method with
                        | methodName :: _, FuncType Params Results =>
                            [(O, "fn " ++ methodName ++ "("
                                 ++ strings.Join (funcParams Params) ", "
                                 ++ ")" ++ methodReturnType Results)]
                        | _, _ => []
                        end).
  { intros method. unfold convertInterfaceMethod.
    destruct (Field_Names method); [apply EmitsLines_skip|].
    destruct (Field_Type method);
      try apply EmitsLines_skip; apply EmitsLines_writeln. }
  assert (Hmethods : forall methods,
             exists ls,
               EmitsLines (forEach methods convertInterfaceMethod) O ls
               /\ deeper ls = interfaceMethodLines methods).
  { induction methods as [|m methods (ls & IH & Hd)]; simpl.
    - exists []. split; [apply EmitsLines_skip | reflexivity].
    - eexists. split; [apply EmitsLines_bind; [apply Hmethod | exact IH]|].
      unfold interfaceMethodLines. cbn [flat_map].
      fold (interfaceMethodLines methods). rewrite deeper_app, Hd. f_equal.
      destruct (Field_Names m); [reflexivity|].
      destruct (Field_Type m); reflexivity. }
  split.
  - intros Fields. unfold convertTypeSpec.
    apply EmitsLines_cons; [apply EmitsLines_writeln|].
    destruct Fields as [[|field0 fields]|].
    + exact (EmitsLines_bracket_then (writeln "init:") (writeln EmptyString)
               O 2 [(O, "init:")] [(O, EmptyString)]
               (EmitsLines_writeln _ _) ltac:(lia) (EmitsLines_writeln _ _)).
    + cbn [fieldsOf]. rewrite <- Hdeep.
      refine (EmitsLines_bracket_then _ (writeln EmptyString) 1 2
                ((O, "init:") :: deeper _) [(O, EmptyString)] _ ltac:(lia)
                (EmitsLines_writeln _ _)).
      apply EmitsLines_cons; [apply EmitsLines_writeln|].
      apply EmitsLines_bracket with O; [apply Hfields | lia].
    + exact (EmitsLines_bracket_then (writeln "init:") (writeln EmptyString)
               O 2 [(O, "init:")] [(O, EmptyString)]
               (EmitsLines_writeln _ _) ltac:(lia) (EmitsLines_writeln _ _)).
  - intros Methods. unfold convertTypeSpec.
    apply EmitsLines_cons; [apply EmitsLines_writeln|].
    destruct Methods as [methods|]; cbn [fieldsOf ifNotNil].
    + destruct (Hmethods methods) as (ls & Hm & <-).
      exact (EmitsLines_bracket_then _ (writeln EmptyString) O 2 ls
               [(O, EmptyString)] Hm ltac:(lia) (EmitsLines_writeln _ _)).
    + exact (EmitsLines_bracket_then skip (writeln EmptyString) O 2 []
               [(O, EmptyString)] (EmitsLines_skip _) ltac:(lia)
               (EmitsLines_writeln _ _)).
Qed.

(** X24.  A type declaration whose type is neither a struct nor an
    interface (a named or alias type such as [type Celsius float64])
    leaves no trace: [convertTypeSpec] returns the converter unchanged, and
    so does the declaration at top level. *)
Theorem other_types_dropped (Name : string) (ty : Expr) (c : ScarConverter) :
  isStructOrInterface ty = false ->
  convertTypeSpec Name ty c = Some (tt, c)
  /\ processDecl (DGen (mkGenDecl token.TYPE [TypeSpec Name ty])) c
     = Some (tt, c).
Proof.
  intros H.
  assert (E : convertTypeSpec Name ty c = Some (tt, c))
    by (destruct ty; try reflexivity; discriminate H).
  split; [exact E|]. simpl. now rewrite (bind_run _ _ _ _ _ E).
Qed.

Lemma other_types_dropped_witness :
  isStructOrInterface (Ident "float64") = false
  /\ processDecl (DGen (mkGenDecl token.TYPE
                                  [TypeSpec "Celsius" (Ident "float64")]))
                 NewScarConverter
     = Some (tt, NewScarConverter).
Proof.
  assert (H : isStructOrInterface (Ident "float64") = false) by reflexivity.
  split; [exact H|].
  exact (proj2 (other_types_dropped "Celsius" (Ident "float64")
                                    NewScarConverter H)).
Defined.

(** X25.  A top-level [var] or [const] group is emitted by the rule of a
    local declaration, name by name, followed by an empty line; the level
    is one [indent] accepts and the type annotations are ones the parser
    produces. *)
Theorem top_level_values (Tok : token.Token) (specs : list Spec)
        (c : ScarConverter) :
  Tok = token.VAR \/ Tok = token.CONST ->
  0 <= indentLevel c <= maxIndent ->
  Forall namedTypes specs ->
  processDecl (DGen (mkGenDecl Tok specs)) c
  = Some (tt, set_output
                (output c
                 ++ linesText (indentLevel c)
                              (spec_declStmtLines (mkGenDecl Tok specs))
                 ++ line (indentLevel c) EmptyString) c).
Proof.
  intros HT Hl Hn.
  assert (E : Emits (forEach specs convertValueSpec ;; writeln EmptyString)
                    (indentLevel c)
                    (linesText (indentLevel c) (flat_map spec_specLines specs)
                     ++ line (indentLevel c) EmptyString)).
  { apply Emits_bind; [now apply forEach_convertValueSpec_Emits|].
    now apply Emits_writeln. }
  destruct HT as [-> | ->]; exact (E c eq_refl).
Qed.

Lemma top_level_values_witness :
  (token.VAR = token.VAR \/ token.VAR = token.CONST)
  /\ 0 <= indentLevel NewScarConverter <= maxIndent
  /\ Forall namedTypes (GenDecl_Specs varDecls)
  /\ processDecl (DGen varDecls) NewScarConverter
     = Some (tt, set_output (line 0 "int x = 1" ++ line 0 "string y"
                             ++ line 0 "z = 2" ++ line 0 "a = f()"
                             ++ line 0 EmptyString)
                            NewScarConverter).
Proof.
  assert (HT : token.VAR = token.VAR \/ token.VAR = token.CONST)
    by (left; reflexivity).
  assert (Hl : 0 <= indentLevel NewScarConverter <= maxIndent).
  { simpl. rewrite maxIndent_value. lia. }
  assert (Hn : Forall namedTypes (GenDecl_Specs varDecls)).
  { repeat constructor; discriminate. }
  split; [exact HT|]. split; [exact Hl|]. split; [exact Hn|].
  exact (top_level_values token.VAR (GenDecl_Specs varDecls)
                          NewScarConverter HT Hl Hn).
Defined.

(* ===================================================================== *)
(** * The command line *)
(* ===================================================================== *)

Lemma HasSuffix_append (s suffix : string) :
  strings.HasSuffix (s ++ suffix) suffix = true.
Proof.
  unfold strings.HasSuffix. rewrite length_append.
  replace (String.length s + String.length suffix - String.length suffix)%nat
    with (String.length s) by lia.
  rewrite substring_skip, substring_all, String.eqb_refl.
  rewrite andb_true_r. apply Nat.leb_le. lia.
Qed.

Lemma TrimSuffix_append (s suffix : string) :
  strings.TrimSuffix (s ++ suffix) suffix = s.
Proof.
  unfold strings.TrimSuffix. rewrite HasSuffix_append, length_append.
  replace (String.length s + String.length suffix - String.length suffix)%nat
    with (String.length s) by lia.
  apply substring_take.
Qed.

(** X26.  The output path [main] derives: an input path that ends in [.go]
    has that ending replaced by [.scar], any other input path gets [.scar]
    added; a second argument is taken as the output path instead, further
    arguments ignored; without an input argument [main] stops with the
    usage line. *)
Theorem output_paths :
  (forall base : string, defaultOutputFile (base ++ ".go") = base ++ ".scar")
  /\ (forall inputFile : string,
        strings.HasSuffix inputFile ".go" = false ->
        defaultOutputFile inputFile = inputFile ++ ".scar")
  /\ (forall prog inputFile : string,
        mainPaths [prog; inputFile]
        = Some (inputFile, defaultOutputFile inputFile))
  /\ (forall (prog inputFile outputArg : string) (rest : list string),
        mainPaths (prog :: inputFile :: outputArg :: rest)
        = Some (inputFile, outputArg))
  /\ mainPaths [] = None
  /\ (forall prog : string, mainPaths [prog] = None).
Proof.
  split; [|split; [|repeat split]].
  - intros base. unfold defaultOutputFile. now rewrite TrimSuffix_append.
  - intros inputFile H. unfold defaultOutputFile, strings.TrimSuffix.
    now rewrite H.
Qed.

Lemma output_paths_witness :
  strings.HasSuffix "notes.txt" ".go" = false
  /\ defaultOutputFile "notes.txt" = "notes.txt.scar".
Proof.
  assert (H : strings.HasSuffix "notes.txt" ".go" = false) by reflexivity.
  split; [exact H|].
  exact (proj1 (proj2 output_paths) "notes.txt" H).
Defined.

(* ===================================================================== *)
(** * The loop variable of a three-clause [for] *)
(* ===================================================================== *)

Lemma rev_acc_app (s acc : string) :
  strings.rev_acc s acc = strings.rev_acc s EmptyString ++ acc.
Proof.
  revert acc. induction s as [|a s IH]; intros acc; simpl; [reflexivity|].
  rewrite IH, (IH (String a EmptyString)). now rewrite append_assoc.
Qed.

Lemma rev_cons (a : ascii) (s : string) :
  strings.rev (String a s) = strings.rev s ++ String a EmptyString.
Proof. unfold strings.rev. simpl. apply rev_acc_app. Qed.

Lemma rev_app (s t : string) :
  strings.rev (s ++ t) = strings.rev t ++ strings.rev s.
Proof.
  induction s as [|a s IH]; simpl.
  - now rewrite append_nil_r.
  - now rewrite !rev_cons, IH, append_assoc.
Qed.

Lemma rev_rev (s : string) : strings.rev (strings.rev s) = s.
Proof.
  induction s as [|a s IH]; [reflexivity|].
  rewrite rev_cons, rev_app, IH. reflexivity.
Qed.

Lemma plainText_app (s t : string) :
  plainText (s ++ t) = plainText s && plainText t.
Proof.
  induction s as [|a s IH]; simpl; [reflexivity|].
  now rewrite IH, andb_assoc.
Qed.

Lemma plainText_rev (s : string) : plainText (strings.rev s) = plainText s.
Proof.
  induction s as [|a s IH]; [reflexivity|].
  rewrite rev_cons, plainText_app, IH. simpl.
  rewrite andb_true_r. apply andb_comm.
Qed.

Lemma rev_nonempty (s : string) :
  s <> EmptyString -> strings.rev s <> EmptyString.
Proof.
  destruct s as [|a s]; [intros H; now elim H|]. intros _.
  rewrite rev_cons. apply append_nonempty_r. discriminate.
Qed.

Ltac bool_facts :=
  repeat match goal with
         | H : (_ || _) = true |- _ => apply orb_true_iff in H as [H|H]
         | H : (_ && _) = true |- _ =>
             let H1 := fresh H in
             let H2 := fresh H in
             apply andb_true_iff in H as [H1 H2]
         | H : (_ =? _)%nat = true |- _ => apply Nat.eqb_eq in H
         | H : (_ <=? _)%nat = true |- _ => apply Nat.leb_le in H
         end.

(** A plain byte is no white space, alone or as a byte of a longer white
    space rune, and is not the space. *)
Lemma plainByte_facts (a : ascii) :
  plainByte a = true ->
  strings.isAsciiSpace a = false
  /\ (forall b, strings.isSpace2 a b = false)
  /\ (forall b, strings.isSpace2 b a = false)
  /\ (forall b c, strings.isSpace3 a b c = false)
  /\ (forall b c, strings.isSpace3 c b a = false)
  /\ Ascii.eqb a strings.space = false.
Proof.
  unfold plainByte, strings.isAsciiSpace, strings.isSpace2, strings.isSpace3.
  cbv zeta. intros H.
  apply andb_true_iff in H as [H1 H2].
  apply Nat.leb_le in H1. apply Nat.ltb_lt in H2.
  repeat split; intros;
    try (apply not_true_iff_false; intros E; bool_facts; lia).
  apply Ascii.eqb_neq. intros ->.
  change (nat_of_ascii strings.space) with 32%nat in H1. lia.
Qed.

Lemma trimLeftSpace_plain (a : ascii) (r : string) :
  plainByte a = true ->
  strings.trimLeftSpace (String a r) = String a r.
Proof.
  intros H. destruct (plainByte_facts a H) as (H1 & H2 & _ & H3 & _).
  cbn [strings.trimLeftSpace]. rewrite H1.
  destruct r as [|b r]; [reflexivity|]. rewrite H2.
  destruct r as [|c r]; [reflexivity|]. now rewrite H3.
Qed.

Lemma trimLeftSpaceRev_plain (a : ascii) (r : string) :
  plainByte a = true ->
  strings.trimLeftSpaceRev (String a r) = String a r.
Proof.
  intros H. destruct (plainByte_facts a H) as (H1 & _ & H2 & _ & H3 & _).
  cbn [strings.trimLeftSpaceRev]. rewrite H1.
  destruct r as [|b r]; [reflexivity|]. rewrite H2.
  destruct r as [|c r]; [reflexivity|]. now rewrite H3.
Qed.

Lemma trimLeftSpaceRev_space (a : ascii) (r : string) :
  strings.isAsciiSpace a = true ->
  strings.trimLeftSpaceRev (String a r) = strings.trimLeftSpaceRev r.
Proof. intros H. destruct r; simpl; now rewrite H. Qed.

(** A text that starts and ends with a plain byte is what [TrimSpace]
    leaves of it, and of the line it makes at level [0]. *)
Lemma TrimSpace_plain_ends (s : string) (a z : ascii) (r r' : string) :
  s = String a r -> strings.rev s = String z r' ->
  plainByte a = true -> plainByte z = true ->
  strings.TrimSpace s = s /\ strings.TrimSpace (s ++ strings.nl) = s.
Proof.
  intros Hs Hr Ha Hz. unfold strings.TrimSpace, strings.trimRightSpace.
  split.
  - rewrite Hs, trimLeftSpace_plain by exact Ha. rewrite <- Hs, Hr.
    rewrite trimLeftSpaceRev_plain by exact Hz. rewrite <- Hr.
    apply rev_rev.
  - rewrite Hs. cbn [append]. rewrite trimLeftSpace_plain by exact Ha.
    change (String a (r ++ strings.nl)) with (String a r ++ strings.nl).
    rewrite <- Hs, rev_app, Hr.
    change (strings.rev strings.nl ++ String z r')
      with (String (strings.byte 10) (String z r')).
    rewrite trimLeftSpaceRev_space by reflexivity.
    rewrite trimLeftSpaceRev_plain by exact Hz. rewrite <- Hr.
    apply rev_rev.
Qed.

Lemma plain_head (s : string) :
  plain s -> exists a r, s = String a r /\ plainByte a = true.
Proof.
  intros [Hn Hp]. destruct s as [|a r]; [now elim Hn|].
  simpl in Hp. apply andb_true_iff in Hp as [Ha _]. now exists a, r.
Qed.

Lemma plain_rev (s : string) : plain s -> plain (strings.rev s).
Proof.
  intros [Hn Hp]. split; [now apply rev_nonempty|].
  now rewrite plainText_rev.
Qed.

(** The text of a single assignment between plain texts survives the
    trimming, also when the right-hand side has spaces between plain
    ends. *)
Lemma TrimSpace_between (lhs middle rhs : string) :
  plain lhs -> plain rhs ->
  let text := lhs ++ middle ++ rhs in
  strings.TrimSpace text = text
  /\ strings.TrimSpace (text ++ strings.nl) = text.
Proof.
  intros Hl Hr text.
  destruct (plain_head lhs Hl) as (a & r & El & Ha).
  destruct (plain_head _ (plain_rev rhs Hr)) as (z & r' & Er & Hz).
  apply (TrimSpace_plain_ends text a z (r ++ middle ++ rhs)
           (r' ++ strings.rev middle ++ strings.rev lhs)); try assumption.
  - unfold text. now rewrite El.
  - unfold text. rewrite !rev_app, Er. now rewrite !append_assoc.
Qed.

Lemma Split_plain (s : string) :
  plainText s = true -> strings.Split s strings.space = [s].
Proof.
  induction s as [|a s IH]; [reflexivity|]. simpl. intros H.
  apply andb_true_iff in H as [Ha Hs].
  destruct (plainByte_facts a Ha) as (_ & _ & _ & _ & _ & E).
  rewrite E, IH by exact Hs. reflexivity.
Qed.

Lemma Split_plain_space (s t : string) :
  plainText s = true ->
  strings.Split (s ++ String strings.space t) strings.space
  = s :: strings.Split t strings.space.
Proof.
  induction s as [|a s IH]; simpl; intros H.
  - reflexivity.
  - apply andb_true_iff in H as [Ha Hs].
    destruct (plainByte_facts a Ha) as (_ & _ & _ & _ & _ & E).
    rewrite E, IH by exact Hs. reflexivity.
Qed.

Lemma plainText_token (Op : token.Token) :
  plainText (token.String Op) = true.
Proof. destruct Op; reflexivity. Qed.

Lemma EmitsLines_assign (lhs rhs : Expr) (Tok : token.Token) (k : nat) :
  Tok <> token.ADD_ASSIGN -> Tok <> token.SUB_ASSIGN ->
  EmitsLines (convertStmt (AssignStmt [lhs] Tok [rhs])) k
             [(O, convertExpr lhs ++ " = " ++ convertExpr rhs)].
Proof.
  intros Ha Hs.
  destruct Tok; try apply EmitsLines_writeln; [now elim Ha | now elim Hs].
Qed.

Lemma render_one_line (s : string) : render 0 [(O, s)] = s ++ strings.nl.
Proof. now rewrite render_single. Qed.

(** The lines of a three-clause [for], from the lines of its parts. *)
Lemma EmitsLines_for3 (init post : Stmt) (cond : Expr) (body : list Stmt)
      (k : nat) (li lp lb : list RelLine) :
  EmitsLines (convertStmt init) (S k) li ->
  EmitsLines (convertStmt post) (S k) lp ->
  EmitsLines (convertBlock body) k lb ->
  EmitsLines
    (convertStmt (ForStmt (Some init) (Some cond) (Some post) body)) (S k)
    ((O, spec_forHeader
           (strings.TrimSpace (strings.TrimSpace (render 0 li)))
           (convertExpr cond)
           (strings.TrimSpace (strings.TrimSpace (render 0 lp))))
     :: deeper lb).
Proof.
  intros Hi Hp Hb.
  apply (EmitsLines_header_body _ body k [_] lb); [|exact Hb].
  split; [repeat constructor; simpl; lia|].
  intros c H0 H1.
  rewrite (bind_run _ _ _ _ _
             (convertStmtToString_Reads convertStmt (S k) init li Hi c H0 H1)).
  cbv zeta.
  rewrite (bind_run _ _ _ _ _
             (convertStmtToString_Reads convertStmt (S k) post lp Hp c H0 H1)).
  rewrite writeln_if.
  pose proof (forHeader_refines
                (strings.TrimSpace (strings.TrimSpace (render 0 li)))
                (convertExpr cond)
                (strings.TrimSpace (strings.TrimSpace (render 0 lp)))) as Hh.
  cbv zeta in Hh. rewrite Hh.
  apply (proj2 (EmitsLines_writeln (S k) _) c H0 H1).
Qed.

Lemma forHeader_three (var eq val cond post : string) (init : string) :
  strings.Split init strings.space = [var; eq; val] ->
  spec_forHeader init cond post
  = "for " ++ var ++ "; " ++ cond ++ "; " ++ post ++ ":".
Proof. intros H. unfold spec_forHeader. now rewrite H. Qed.

Lemma forHeader_five (t1 t2 t3 t4 t5 cond post : string) (init : string) :
  strings.Split init strings.space = [t1; t2; t3; t4; t5] ->
  spec_forHeader init cond post
  = "for " ++ t3 ++ "; " ++ cond ++ "; " ++ post ++ ":".
Proof. intros H. unfold spec_forHeader. now rewrite H. Qed.

(** X27.  Which name the header of a three-clause [for] shows.  The
    initializer is a single assignment or definition [lhs := rhs] between
    plain texts.  When the right-hand side is one plain text, as in
    [for i := 0; ...], the header is [for <lhs>; <cond>; <post>:].  When the
    right-hand side is a binary expression of plain operands, as in
    [for i := n - 1; ...], the name in the header is the left operand of
    that expression, not the variable the loop declares. *)
Theorem for_loop_variable (lhs : Expr) (Tok : token.Token) (cond : Expr)
        (post : Stmt) (body : list Stmt) (k : nat) (lp lb : list RelLine) :
  Tok <> token.ADD_ASSIGN -> Tok <> token.SUB_ASSIGN ->
  plain (convertExpr lhs) ->
  EmitsLines (convertStmt post) (S k) lp ->
  EmitsLines (convertBlock body) k lb ->
  let postText := strings.TrimSpace (strings.TrimSpace (render 0 lp)) in
  (forall rhs : Expr,
      plain (convertExpr rhs) ->
      EmitsLines
        (convertStmt (ForStmt (Some (AssignStmt [lhs] Tok [rhs])) (Some cond)
                              (Some post) body)) (S k)
        ((O, "for " ++ convertExpr lhs ++ "; " ++ convertExpr cond ++ "; "
             ++ postText ++ ":") :: deeper lb))
  /\ (forall (X : Expr) (Op : token.Token) (Y : Expr),
        plain (convertExpr X) -> plain (convertExpr Y) ->
        EmitsLines
          (convertStmt (ForStmt (Some (AssignStmt [lhs] Tok
                                                  [BinaryExpr X Op Y]))
                                (Some cond) (Some post) body)) (S k)
          ((O, "for " ++ convertExpr X ++ "; " ++ convertExpr cond ++ "; "
               ++ postText ++ ":") :: deeper lb)).
Proof.
  intros Ha Hs Hl Hp Hb postText. split.
  - intros rhs Hr.
    pose proof (EmitsLines_for3 _ post cond body k _ lp lb
                  (EmitsLines_assign lhs rhs Tok (S k) Ha Hs) Hp Hb) as H.
    rewrite render_one_line in H.
    destruct (TrimSpace_between (convertExpr lhs) " = " (convertExpr rhs)
                Hl Hr) as [T1 T2].
    cbv zeta in T1, T2. rewrite T2, T1 in H.
    rewrite (forHeader_three (convertExpr lhs) "=" (convertExpr rhs)) in H;
      [exact H|].
    change (convertExpr lhs ++ " = " ++ convertExpr rhs)
      with (convertExpr lhs
            ++ String strings.space
                 ("=" ++ String strings.space (convertExpr rhs))).
    rewrite Split_plain_space by apply Hl.
    rewrite Split_plain_space by reflexivity.
    now rewrite Split_plain by apply Hr.
  - intros X Op Y HX HY.
    pose proof (EmitsLines_for3 _ post cond body k _ lp lb
                  (EmitsLines_assign lhs (BinaryExpr X Op Y) Tok (S k) Ha Hs)
                  Hp Hb) as H.
    rewrite render_one_line in H.
    destruct (TrimSpace_between (convertExpr lhs)
                (" = " ++ convertExpr X ++ " " ++ token.String Op ++ " ")
                (convertExpr Y) Hl HY) as [T1 T2].
    cbv zeta in T1, T2.
    assert (Et : convertExpr lhs ++ " = " ++ convertExpr (BinaryExpr X Op Y)
                 = convertExpr lhs
                   ++ (" = " ++ convertExpr X ++ " " ++ token.String Op
                       ++ " ")
                   ++ convertExpr Y).
    { cbn [convertExpr]. cbv zeta. simpl.
      rewrite !append_assoc. simpl. now rewrite !append_assoc. }
    rewrite Et, T2, T1 in H.
    rewrite (forHeader_five (convertExpr lhs) "=" (convertExpr X)
               (token.String Op) (convertExpr Y)) in H; [exact H|].
    rewrite <- Et. cbn [convertExpr]. cbv zeta.
    change (convertExpr lhs ++ " = "
            ++ convertExpr X ++ " " ++ token.String Op ++ " " ++ convertExpr Y)
      with (convertExpr lhs
            ++ String strings.space
                 ("=" ++ String strings.space
                    (convertExpr X
                     ++ String strings.space
                          (token.String Op
                           ++ String strings.space (convertExpr Y))))).
    rewrite Split_plain_space by apply Hl.
    rewrite Split_plain_space by reflexivity.
    rewrite Split_plain_space by apply HX.
    rewrite Split_plain_space by apply plainText_token.
    now rewrite Split_plain by apply HY.
Qed.

Lemma for_loop_variable_witness :
  EmitsLines
    (convertStmt
       (ForStmt (Some (AssignStmt [Ident "i"] token.DEFINE
                                  [BinaryExpr (Ident "n") token.SUB
                                              (BasicLit token.INT "1")]))
                (Some (BinaryExpr (Ident "i") token.GEQ
                                  (BasicLit token.INT "0")))
                (Some (BranchStmt token.CONTINUE))
                [BranchStmt token.BREAK])) 1
    [(O, "for n; i >= 0; continue:"); (1%nat, "break")].
Proof.
  assert (Ha : token.DEFINE <> token.ADD_ASSIGN) by discriminate.
  assert (Hs : token.DEFINE <> token.SUB_ASSIGN) by discriminate.
  assert (Hi : plain (convertExpr (Ident "i")))
    by (split; [discriminate | reflexivity]).
  assert (Hn : plain (convertExpr (Ident "n")))
    by (split; [discriminate | reflexivity]).
  assert (H1 : plain (convertExpr (BasicLit token.INT "1")))
    by (split; [discriminate | reflexivity]).
  exact (proj2 (for_loop_variable (Ident "i") token.DEFINE
                  (BinaryExpr (Ident "i") token.GEQ (BasicLit token.INT "0"))
                  (BranchStmt token.CONTINUE) [BranchStmt token.BREAK] O
                  [(O, "continue")] [(O, "break")] Ha Hs Hi
                  (EmitsLines_writeln 1 "continue") EmitsLines_block_break)
               (Ident "n") token.SUB (BasicLit token.INT "1") Hn H1).
Defined.

(* ===================================================================== *)
(** * The import table and the text of a statement *)
(* ===================================================================== *)

Lemma convertImportPath_range (path : string) :
  convertImportPath path = EmptyString
  \/ In (convertImportPath path) moduleNames.
Proof.
  unfold convertImportPath.
  repeat match goal with
         | |- context [if ?b then _ else _] => destruct b
         end; simpl; auto 20.
Qed.

(** X28.  The import table: a path is recorded exactly when it is one of
    the ten paths whose case returns a module, and whatever the import
    paths of a file, every module recorded for them is one of nine [std/]
    modules. *)
Theorem import_table :
  (forall path : string,
      convertImportPath path <> EmptyString <-> In path mappedPaths)
  /\ (forall paths : list string,
        Forall (fun m => In m moduleNames) (scarModules paths))
  /\ (forall (decls : list Decl) (c : ScarConverter),
        exists recorded : list string,
          forEach decls processImports c
          = Some (tt, set_imports (imports c ++ recorded) c)
          /\ Forall (fun m => In m moduleNames) recorded).
Proof.
  assert (R : forall paths : list string,
             Forall (fun m => In m moduleNames) (scarModules paths)).
  { intros paths. unfold scarModules. apply Forall_forall. intros m Hm.
    apply filter_In in Hm as [Hin Hne].
    apply in_map_iff in Hin as (p & <- & _).
    destruct (convertImportPath_range p) as [E|H]; [|exact H].
    rewrite E in Hne. discriminate. }
  split; [|split; [exact R|]].
  - intros path. split.
    + unfold convertImportPath.
      repeat match goal with
             | |- context [(path =? ?s)%string] =>
                 destruct (String.eqb_spec path s) as [->|?];
                 [intros H; first [now elim H | simpl; tauto]|]
             end.
      intros H. now elim H.
    + intros H. simpl in H.
      repeat (destruct H as [<-|H]; [now vm_compute|]).
      destruct H.
  - intros decls c. exists (scarModules (flat_map importPaths decls)).
    split; [|apply R].
    apply (forEach_records processImports importPaths).
    apply processImports_records.
Qed.

(** X29.  The text of a statement, as [convertStmtToString] hands it back,
    is the trimmed rendering at level [0] of the very lines the statement
    emits, and it is handed back with the converter untouched from every
    converter: the level is reset before the statement runs, so even a
    converter at a level where writing a line panics gives the text. *)
Theorem statement_text (stmt : Stmt) :
  Z.of_nat (nesting stmt) <= maxIndent ->
  exists ls : list RelLine,
    EmitsLines (convertStmt stmt) (nesting stmt) ls
    /\ forall c : ScarConverter,
        convertStmtToString convertStmt stmt c
        = Some (strings.TrimSpace (render 0 ls), c).
Proof.
  intros Hn.
  destruct (HasLines_convertStmt_le stmt (nesting stmt) (Nat.le_refl _))
    as [ls [W E]].
  exists ls. split; [now split|].
  intros c. unfold convertStmtToString.
  rewrite E by (simpl; lia). simpl. f_equal. f_equal. now destruct c.
Qed.

Lemma statement_text_witness :
  Z.of_nat (nesting nestedExample) <= maxIndent
  /\ exists ls : list RelLine,
       convertStmtToString convertStmt nestedExample
                           (set_indentLevel (-1) NewScarConverter)
       = Some (strings.TrimSpace (render 0 ls),
               set_indentLevel (-1) NewScarConverter).
Proof.
  assert (H : Z.of_nat (nesting nestedExample) <= maxIndent)
    by (rewrite maxIndent_value; simpl; lia).
  split; [exact H|].
  destruct (statement_text nestedExample H) as (ls & _ & E).
  exists ls. apply E.
Defined.
